(** * Nunjucksu: the transform-resolution and change-propagation engine

    A shallow embedding of [src/nunjucksController.ts] and the properties
    its specification states about it.

    Conventions of the embedding:
    - a [vscode.Uri] is represented by its [fsPath] string;
    - a JavaScript [Map] is an insertion-ordered association list
      ([JsMap]), a [Set] of strings that is only queried for membership is
      a [gset string];
    - Node's [path] module is an interface ([PathModule]); its POSIX
      flavour is modelled in [Posix] and used for the concrete runs;
    - the operations on strings that depend on the Unicode tables of the
      JavaScript engine ([toLowerCase], [trim], [localeCompare]) are an
      interface as well ([TextModule], and [localeCompare] of [Env]);
      the operations that only compare and cut sequences of characters
      are defined in [Js];
    - a number of a parsed document is what the controller observes of
      it ([JsNumber]);
    - the file system, the YAML parser, the settings store and the
      template renderer are external: they enter as data or as section
      variables. *)

From stdpp Require Import gmap strings list sets pretty.
From Stdlib Require Import Ascii String ZArith Lia.

Set Warnings "-register-all,-clear-no-such-hyp".
Set Default Proof Using "Type".

Open Scope string_scope.

(* ===================================================================== *)
(** * JavaScript string primitives *)
(* ===================================================================== *)

Module Js.

(** [s.startsWith(p)] *)
Fixpoint startsWith (s p : string) {struct p} : bool :=
  match p with
  | EmptyString => true
  | String a p' =>
      match s with
      | EmptyString => false
      | String b s' => Ascii.eqb a b && startsWith s' p'
      end
  end.

(** [s.endsWith(suf)] *)
Definition endsWith (s suf : string) : bool :=
  let n := String.length s in
  let k := String.length suf in
  if (k <=? n)%nat then String.eqb (String.substring (n - k) k s) suf else false.

(** [s.slice(0, -k)]: a negative end counts from the end of the string,
    but [-0] is [0], so that [s.slice(0, -0)] is the empty string. *)
Definition slice_to_neg (s : string) (k : nat) : string :=
  match k with
  | O => EmptyString
  | S _ => String.substring 0 (String.length s - k) s
  end.

(** [s.split(sep)] for a one-character separator. *)
Fixpoint split (sep : ascii) (s : string) : list string :=
  match s with
  | EmptyString => [EmptyString]
  | String c s' =>
      if Ascii.eqb c sep then EmptyString :: split sep s'
      else match split sep s' with
           | [] => [String c EmptyString]
           | seg :: segs => String c seg :: segs
           end
  end.

(** [segs.join(glue)] *)
Definition join (glue : string) (segs : list string) : string :=
  String.concat glue segs.

(** [s.includes(c)] for a one-character needle. *)
Fixpoint includes (s : string) (c : ascii) : bool :=
  match s with
  | EmptyString => false
  | String d s' => Ascii.eqb d c || includes s' c
  end.

(** JavaScript truthiness of a string: non-empty. *)
Definition truthy (s : string) : bool := negb (String.eqb s EmptyString).

End Js.

(* ===================================================================== *)
(** * JavaScript [Map]: insertion-ordered association list *)
(* ===================================================================== *)

Module JsMap.
Section Defs.
Context {V : Type}.

Definition t := list (string * V).

Definition empty : t := [].

Fixpoint get (k : string) (m : t) : option V :=
  match m with
  | [] => None
  | (k', v) :: m' => if String.eqb k k' then Some v else get k m'
  end.

Definition has (k : string) (m : t) : bool :=
  match get k m with Some _ => true | None => false end.

(** [m.set(k, v)]: an existing key keeps its position. *)
Fixpoint set (k : string) (v : V) (m : t) : t :=
  match m with
  | [] => [(k, v)]
  | (k', v') :: m' =>
      if String.eqb k k' then (k, v) :: m' else (k', v') :: set k v m'
  end.

Fixpoint delete (k : string) (m : t) : t :=
  match m with
  | [] => []
  | (k', v') :: m' =>
      if String.eqb k k' then m' else (k', v') :: delete k m'
  end.

Definition keys (m : t) : list string := map fst m.
Definition values (m : t) : list V := map snd m.
End Defs.
Arguments t : clear implicits.
End JsMap.

(* ===================================================================== *)
(** * Node's [path] module *)
(* ===================================================================== *)

(** The operations of [path] the controller uses.  [resolve] and [join]
    are variadic in Node and take a list here.  The one law recorded is
    documented behaviour on every platform: [normalize] never returns the
    empty string (a zero-length path normalizes to ["."]). *)
Record PathModule := {
  sep : ascii;
  isAbsolute : string -> bool;
  normalize : string -> string;
  resolve : list string -> string;
  relative : string -> string -> string;
  join : list string -> string;
  dirname : string -> string;
  basename : string -> string;
  normalize_nonempty : forall p, normalize p <> EmptyString
}.

(** The operations of JavaScript strings whose result depends on the
    Unicode tables of the engine: [String.prototype.toLowerCase], which
    may change the length of a string, and [String.prototype.trim], which
    strips the Unicode white space and line terminators.  The two laws
    recorded hold of every engine: the empty string has no character to
    change or to strip. *)
Record TextModule := {
  toLowerCase : string -> string;
  trim : string -> string;
  toLowerCase_empty : toLowerCase EmptyString = EmptyString;
  trim_empty : trim EmptyString = EmptyString
}.

(** ** The POSIX flavour ([path.posix]), for a process whose working
    directory is [cwd]. *)
Module Posix.

Definition slash : ascii := "/"%char.

Definition isAbsolute (p : string) : bool := Js.startsWith p "/".

Definition is_dot (seg : string) : bool :=
  String.eqb seg "" || String.eqb seg ".".

(** [normalizeString], on the [/]-separated segments: empty and ["."]
    segments vanish, [".."] removes the segment before it, and is kept
    only when nothing is left to remove and [allowAbove] holds.  [acc]
    is the result so far, last segment first. *)
Fixpoint normSegs (allowAbove : bool) (acc segs : list string) : list string :=
  match segs with
  | [] => rev acc
  | seg :: rest =>
      if is_dot seg then normSegs allowAbove acc rest
      else if String.eqb seg ".." then
        match acc with
        | top :: acc' =>
            if String.eqb top ".." then
              normSegs allowAbove (if allowAbove then ".." :: acc else acc) rest
            else normSegs allowAbove acc' rest
        | [] => normSegs allowAbove (if allowAbove then [".."] else []) rest
        end
      else normSegs allowAbove (seg :: acc) rest
  end.

Definition normalizeString (p : string) (allowAbove : bool) : string :=
  Js.join "/" (normSegs allowAbove [] (Js.split slash p)).

Definition normalize (p : string) : string :=
  if String.eqb p "" then "."
  else
    let abs := isAbsolute p in
    let trailing := Js.endsWith p "/" in
    let r := normalizeString p (negb abs) in
    if String.eqb r "" then
      (if abs then "/" else if trailing then "./" else ".")
    else
      let r' := if trailing then r ++ "/" else r in
      if abs then "/" ++ r' else r'.

Definition join (args : list string) : string :=
  match List.filter Js.truthy args with
  | [] => "."
  | parts => normalize (Js.join "/" parts)
  end.

(** The right-to-left scan of [resolve]: [parts] are the arguments from
    the last to the first, followed by the working directory. *)
Fixpoint resolve_scan (parts : list string) (acc : string) : string * bool :=
  match parts with
  | [] => (acc, false)
  | p :: rest =>
      if String.eqb p "" then resolve_scan rest acc
      else
        let acc' := p ++ "/" ++ acc in
        if isAbsolute p then (acc', true) else resolve_scan rest acc'
  end.

Definition resolve (cwd : string) (args : list string) : string :=
  let '(rp, abs) := resolve_scan (rev args ++ [cwd]) "" in
  let r := normalizeString rp (negb abs) in
  if abs then "/" ++ r
  else if String.eqb r "" then "." else r.

(** The segments of a resolved path below the root. *)
Definition segments (p : string) : list string :=
  List.filter Js.truthy (Js.split slash p).

Fixpoint strip_common (xs ys : list string) : list string * list string :=
  match xs, ys with
  | x :: xs', y :: ys' =>
      if String.eqb x y then strip_common xs' ys' else (xs, ys)
  | _, _ => (xs, ys)
  end.

(** [relative(from, to)]: one [".."] for every segment of [from] below
    the common prefix, then what is left of [to]. *)
Definition relative (cwd : string) (from to : string) : string :=
  if String.eqb from to then ""
  else
    let from' := resolve cwd [from] in
    let to' := resolve cwd [to] in
    if String.eqb from' to' then ""
    else
      let '(ups, downs) := strip_common (segments from') (segments to') in
      Js.join "/" (map (fun _ => "..") ups ++ downs).

Definition basename (p : string) : string :=
  List.last (segments p) "".

(** The backwards scan of [dirname] over the characters after the
    first: [rs] are those characters, last first; the result is the
    number of characters in front of the slash that ends the directory
    part. *)
Fixpoint dirname_scan (rs : list ascii) (matchedSlash : bool) : option nat :=
  match rs with
  | [] => None
  | c :: rs' =>
      if Ascii.eqb c slash then
        (if matchedSlash then dirname_scan rs' true else Some (List.length rs'))
      else dirname_scan rs' false
  end.

Definition dirname (p : string) : string :=
  match p with
  | EmptyString => "."
  | String c0 rest =>
      let hasRoot := Ascii.eqb c0 slash in
      match dirname_scan (rev (list_ascii_of_string rest)) true with
      | None => if hasRoot then "/" else "."
      | Some k =>
          if hasRoot && (k =? 0)%nat then "//"
          else String.substring 0 (S k) p
      end
  end.

End Posix.


(** The instance: POSIX paths in a process whose working directory is
    [cwd].  The law is proved with the other lemmas, below. *)
Lemma posix_normalize_nonempty p : Posix.normalize p <> EmptyString.
Proof.
  unfold Posix.normalize.
  destruct (String.eqb p ""); [discriminate|].
  destruct (String.eqb (Posix.normalizeString p (negb (Posix.isAbsolute p))) "") eqn:E.
  - destruct (Posix.isAbsolute p); [discriminate|].
    destruct (Js.endsWith p "/"); discriminate.
  - apply String.eqb_neq in E.
    destruct (Posix.isAbsolute p); [discriminate|].
    destruct (Js.endsWith p "/"); [|exact E].
    destruct (Posix.normalizeString p (negb false)); [congruence|discriminate].
Qed.

Definition posix (cwd : string) : PathModule := {|
  sep := Posix.slash;
  isAbsolute := Posix.isAbsolute;
  normalize := Posix.normalize;
  resolve := Posix.resolve cwd;
  relative := Posix.relative cwd;
  join := Posix.join;
  dirname := Posix.dirname;
  basename := Posix.basename;
  normalize_nonempty := posix_normalize_nonempty
|}.

(* ===================================================================== *)
(** * Data model *)
(* ===================================================================== *)

(** A number of a parsed document, by what the controller observes of
    it: whether it is finite ([Number.isFinite(n)]: not [NaN], not an
    infinity), whether it is truthy (not zero, not [NaN]), and its text
    ([String(n)]). *)
Record JsNumber := {
  isFinite : bool;
  isTruthy : bool;
  numberText : string
}.

(** The integers of absolute value below [10^21], which [String] prints
    in full digits. *)
Definition integer (n : Z) : JsNumber :=
  {| isFinite := true; isTruthy := negb (n =? 0)%Z; numberText := pretty n |}.

(** A parsed YAML document; an object keeps its fields in insertion
    order. *)
Inductive Value :=
| VNull
| VBool (b : bool)
| VNum (n : JsNumber)
| VStr (s : string)
| VSeq (items : list Value)
| VMap (fields : list (string * Value)).

(** A JavaScript object used as a record of variables. *)
Abbreviation Vars := (JsMap.t Value).

Record TransformSpec := {
  spec_source : string;
  spec_target : string;
  spec_recursive : option bool
}.

Record FileTransformEntry := {
  source : string;
  target : string;
  searchPaths : list string;
  templateName : string;
  description : string
}.

Record DirectoryTransform := {
  sourceDir : string;
  targetDir : string;
  recursive : bool;
  workspaceFolder : option string;
  dir_description : string
}.

(** The fields of [NunjucksController] that the reload and the template
    events read and write.  [sourceWatchers] holds, for every watcher, the
    source path it watches. *)
Record Controller := {
  transforms : list FileTransformEntry;
  configFileTransforms : list FileTransformEntry;
  directoryTransforms : list DirectoryTransform;
  templateTransforms : list FileTransformEntry;
  variables : list (string * Value);
  transformsBySource : list (string * list FileTransformEntry);
  sourceWatchers : list string;
  lastTemplateCount : Z
}.

(** What [vscode.workspace.fs.readDirectory] reports of a directory tree.
    Only [FileType.File] and [FileType.Directory] are told apart by the
    controller; every other type code (unknown, symbolic links) is
    [FsOther].  A directory whose listing is [None] cannot be read:
    [readDirectory] throws. *)
Inductive FsNode :=
| FsFile
| FsOther
| FsDir (listing : option (list (string * FsNode))).

(** A local hierarchical file system as [vscode.workspace.fs] presents
    it: the regular files with their bytes (a [Buffer] is a string of
    bytes), the directories, and a journal of the calls made to it,
    oldest first. *)
Abbreviation Buffer := string (only parsing).

Inductive FsCall :=
| CreateDirectory (dir : string)
| ReadFile (uri : string)
| WriteFile (uri : string) (bytes : Buffer).

Record FileSystem := {
  files : gmap string (Buffer);
  dirs : gset string;
  calls : list FsCall
}.

(** ** The render queue

    A unit of work is what one call of [handleSourceEvent] chains on the
    queue of its source: the promise [next].  Its identity is its
    position in [units].  [unit_previous] is the promise it was chained
    on ([None] for [Promise.resolve()]). *)
Inductive Status :=
| Waiting
| Running (done : nat)
| Settled.

Record RenderUnit := {
  unit_key : string;
  unit_transforms : list FileTransformEntry;
  unit_reason : string;
  unit_previous : option nat;
  unit_status : Status
}.

(** What an observer sees of the units: [run] begins, one
    [renderTransform] (render, then write) completes, the promise
    settles. *)
Inductive TraceEvent :=
| Begin (u : nat)
| Rendered (u : nat) (transform : FileTransformEntry)
| Settle (u : nat).

Record Scheduler := {
  index : list (string * list FileTransformEntry);
  renderQueue : gmap string nat;
  renderTimestamps : gmap string Z;
  units : list RenderUnit;
  trace : list TraceEvent
}.

(** The turns of the event loop that touch the queue. *)
Inductive Action :=
| SourceEvent (uri : string) (reason : string) (now : Z)
| Start (u : nat)
| Render (u : nat)
| Finish (u : nat)
| Sweep (now : Z)
| Reindex (index : list (string * list FileTransformEntry)).

Definition RENDER_TIMEOUT_MS : Z := 30000.

(** The two diagnostic surfaces: a line of the output channel
    ([output.appendLine]) and a transient warning
    ([vscode.window.showWarningMessage]). *)
Inductive Diag :=
| Out (line : string)
| Warn (message : string).

Inductive LogLevel := Silent | Normal | Verbose.


(** ** Computations that emit diagnostics *)

Definition W (A : Type) : Type := A * list Diag.

Definition ret {A} (a : A) : W A := (a, []).

Definition bind {A B} (m : W A) (k : A -> W B) : W B :=
  let '(a, d1) := m in
  let '(b, d2) := k a in
  (b, (d1 ++ d2)%list).

Definition emit (d : list Diag) : W unit := (tt, d).

Notation "'let*' x := m 'in' k" := (bind m (fun x => k))
  (at level 10, x pattern, m at level 200, k at level 200,
   format "'[v' 'let*'  x  :=  m  'in' '/' k ']'").

(** What the YAML reader makes of a configuration file: the read or the
    parse throws, or a document comes back. *)
Inductive ParseOutcome :=
| ReadFails (message : string)
| ParseFails (message : string)
| Parsed (doc : Value).

Record ConfigFile := {
  fsPath : string;
  content : ParseOutcome
}.

Definition isPlainObject (v : Value) : bool :=
  match v with VMap _ => true | _ => false end.

(** [obj.name]: [None] is [undefined]. *)
Definition prop (name : string) (v : Value) : option Value :=
  match v with VMap fields => JsMap.get name fields | _ => None end.

(** [Object.assign(target, source)] *)
Definition assign (target : Vars) (source : list (string * Value)) : Vars :=
  fold_left (fun t kv => JsMap.set (fst kv) (snd kv) t) source target.

(** JavaScript truthiness of a (possibly undefined) document value. *)
Definition truthy_value (raw : option Value) : bool :=
  match raw with
  | None | Some VNull | Some (VBool false) => false
  | Some (VNum n) => isTruthy n
  | Some (VStr s) => Js.truthy s
  | Some _ => true
  end.

(** [items.sort(cmp)], for a consistent comparator whose sign is
    [cmp a b]: [Array.prototype.sort] is stable, and so is this insertion
    sort.  An item goes in front of the first item of the sorted rest
    that it does not come after, so that it stays in front of the later
    items it ties with. *)
Section Sort.
Context {A : Type} (cmp : A -> A -> comparison).

Fixpoint sort_insert (x : A) (l : list A) : list A :=
  match l with
  | [] => [x]
  | y :: l' =>
      match cmp x y with
      | Gt => y :: sort_insert x l'
      | _ => x :: l
      end
  end.

Definition sort (l : list A) : list A :=
  fold_right sort_insert [] l.
End Sort.

(** [throw]/[catch]: a computation that may throw an [Error] carrying a
    message. *)
Inductive Res (A : Type) :=
| Ok (a : A)
| Throw (message : string).
Arguments Ok {A} a.
Arguments Throw {A} message.

(* ===================================================================== *)
(** * The depth-first search of the cycle detector *)
(* ===================================================================== *)

(** The three sets of the depth-first search. *)
Record Dfs := {
  visited : gset string;
  recursionStack : gset string;
  cycleNodes : gset string
}.

Definition dfs_init : Dfs :=
  {| visited := ∅; recursionStack := ∅; cycleNodes := ∅ |}.

Definition mark (node : string) (st : Dfs) : Dfs :=
  {| visited := visited st;
     recursionStack := recursionStack st;
     cycleNodes := {[node]} ∪ cycleNodes st |}.

Definition enter (node : string) (st : Dfs) : Dfs :=
  {| visited := {[node]} ∪ visited st;
     recursionStack := {[node]} ∪ recursionStack st;
     cycleNodes := cycleNodes st |}.

Definition leave (node : string) (st : Dfs) : Dfs :=
  {| visited := visited st;
     recursionStack := recursionStack st ∖ {[node]};
     cycleNodes := cycleNodes st |}.

Definition neighborsOf (graph : JsMap.t (list string)) (node : string)
    : list string :=
  match JsMap.get node graph with Some ns => ns | None => [] end.

(** The loop over the neighbours of [node] in [hasCycle]; [recurse] is
    the recursive call. *)
Fixpoint eachNeighbor (recurse : string -> Dfs -> option (bool * Dfs))
    (node : string) (neighbors : list string) (st : Dfs) : option (bool * Dfs) :=
  match neighbors with
  | [] => Some (false, leave node st)
  | neighbor :: rest =>
      match recurse neighbor st with
      | None => None
      | Some (true, st') => Some (true, mark node st')
      | Some (false, st') => eachNeighbor recurse node rest st'
      end
  end.

(** The closure [hasCycle] of [detectAndRemoveCycles].  The recursion of
    the source is bounded here by [fuel]; [None] means the bound was too
    small ([dfs_fuel] never is, see [checkAll_terminates]). *)
Fixpoint hasCycle (graph : JsMap.t (list string)) (fuel : nat) (node : string)
    (st : Dfs) : option (bool * Dfs) :=
  match fuel with
  | O => None
  | S fuel' =>
      if decide (node ∈ recursionStack st) then Some (true, mark node st)
      else if decide (node ∈ visited st) then Some (false, st)
      else eachNeighbor (hasCycle graph fuel') node (neighborsOf graph node)
             (enter node st)
  end.

(** [for (const node of graph.keys()) hasCycle(node)] *)
Fixpoint checkAll (graph : JsMap.t (list string)) (fuel : nat)
    (nodes : list string) (st : Dfs) : option Dfs :=
  match nodes with
  | [] => Some st
  | node :: rest =>
      match hasCycle graph fuel node st with
      | None => None
      | Some (_, st') => checkAll graph fuel rest st'
      end
  end.

(** A recursion depth no search exceeds: one more than the number of
    node occurrences in the graph. *)
Definition dfs_fuel (graph : JsMap.t (list string)) : nat :=
  S (List.length (JsMap.keys graph)
     + List.length (List.concat (JsMap.values graph))).

(* ===================================================================== *)
(** * The controller *)
(* ===================================================================== *)

(** The platform and the external collaborators, as the controller sees
    them. *)
Record Env := {
  (** Node's [path] *)
  path : PathModule;
  (** [String.prototype.toLowerCase] and [String.prototype.trim] *)
  text : TextModule;
  (** [process.platform === 'win32'] *)
  win32 : bool;
  (** [getTemplateExtension()], [getAdditionalSearchPaths()], [getLogLevel()] *)
  templateExtension : string;
  additionalSearchPaths : list string;
  logLevel : LogLevel;
  (** [fs.existsSync] *)
  existsSync : string -> bool;
  (** The directory tree [vscode.workspace.fs.readDirectory] walks into at
      a path. *)
  nodeAt : string -> FsNode;
  (** [vscode.workspace.getWorkspaceFolder(uri) ?? workspaceFolders?.[0]] *)
  workspaceFolderOf : string -> option string;
  (** [a.localeCompare(b, undefined, { sensitivity: 'base' })], as a sign *)
  localeCompare : string -> string -> comparison;
  (** [nunjucks]: the render of a template looked up by name on search
      paths, with a context, over the files it can read *)
  render : list string -> string -> list (string * Value) ->
           gmap string Buffer -> Res string
}.

Section Controller.

Context (E : Env).

Local Abbreviation P := (path E).
Local Abbreviation toLowerCase := (toLowerCase (text E)).
Local Abbreviation trim := (trim (text E)).
Local Abbreviation win32 := (win32 E).
Local Abbreviation templateExtension := (templateExtension E).
Local Abbreviation additionalSearchPaths := (additionalSearchPaths E).
Local Abbreviation logLevel := (logLevel E).
Local Abbreviation existsSync := (existsSync E).
Local Abbreviation nodeAt := (nodeAt E).
Local Abbreviation workspaceFolderOf := (workspaceFolderOf E).
Local Abbreviation localeCompare := (localeCompare E).
Local Abbreviation render := (render E).

Definition normalizeFsPath (fsPath : string) : string :=
  let normalized := resolve P [fsPath] in
  if win32 then toLowerCase normalized else normalized.

Definition uniquePaths (paths : list string) : list string :=
  fold_left
    (fun seen entry =>
       if Js.truthy entry then
         let n := normalize P entry in
         if existsb (String.eqb n) seen then seen else (seen ++ [n])%list
       else seen)
    paths [].

Definition log (message : string) (level : LogLevel) : W unit :=
  match logLevel, level with
  | Silent, _ => ret tt
  | Normal, Verbose => ret tt
  | _, _ => emit [Out message]
  end.

Definition resolvePath (value : string) (workspaceFolder : option string)
    (configDir : string) : string :=
  if isAbsolute P value then normalize P value
  else
    let base := match workspaceFolder with Some w => w | None => configDir end in
    normalize P (resolve P [base; value]).

Definition buildSearchPaths (sourcePath : string)
    (workspaceFolder : option string) : list string :=
  let paths := [dirname P sourcePath] in
  let paths := match workspaceFolder with
               | Some w => (paths ++ [w])%list
               | None => paths
               end in
  let paths :=
    fold_left
      (fun paths additionalPath =>
         let resolved := match workspaceFolder with
                         | Some w => resolve P [w; additionalPath]
                         | None => resolve P [additionalPath]
                         end in
         (paths ++ [resolved])%list)
      additionalSearchPaths paths in
  uniquePaths paths.

Fixpoint deriveTemplateName (sourcePath : string) (searchPaths : list string)
    : string :=
  match searchPaths with
  | [] => basename P sourcePath
  | base :: rest =>
      let rel := relative P base sourcePath in
      if negb (Js.startsWith rel "..") && negb (isAbsolute P rel)
      then Js.join "/" (Js.split (sep P) rel)
      else deriveTemplateName sourcePath rest
  end.

Definition createFileTransformEntry (spec : TransformSpec)
    (workspaceFolder : option string) (configDir : string)
    : W (option FileTransformEntry) :=
  let sourcePath := resolvePath (spec_source spec) workspaceFolder configDir in
  let targetPath := resolvePath (spec_target spec) workspaceFolder configDir in
  if negb (Js.truthy sourcePath) || negb (Js.truthy targetPath) then ret None
  else if negb (existsSync sourcePath) then
    let* _ := emit
      [Out ("Nunjucksu: warning - source file does not exist: " ++ spec_source spec);
       Warn ("Nunjucksu: source file not found: " ++ basename P sourcePath)] in
    ret None
  else if String.eqb (normalizeFsPath sourcePath) (normalizeFsPath targetPath) then
    let* _ := emit
      [Out ("Nunjucksu: skipped transform where source and target are the same path ("
            ++ spec_source spec ++ ").")] in
    ret None
  else
    let searchPaths := buildSearchPaths sourcePath workspaceFolder in
    let templateName := deriveTemplateName sourcePath searchPaths in
    if negb (Js.truthy templateName) || String.eqb (trim templateName) "" then
      let* _ := emit
        [Out ("Nunjucksu: could not derive template name for " ++ spec_source spec)] in
      ret None
    else
      ret (Some {| source := sourcePath;
                   target := targetPath;
                   searchPaths := searchPaths;
                   templateName := templateName;
                   description := spec_source spec ++ " → " ++ spec_target spec |}).

Definition createDirectoryTransform (spec : TransformSpec)
    (workspaceFolder : option string) (configDir : string)
    : option DirectoryTransform :=
  let sourceDir := resolvePath (spec_source spec) workspaceFolder configDir in
  let targetDir := resolvePath (spec_target spec) workspaceFolder configDir in
  if negb (Js.truthy sourceDir) || negb (Js.truthy targetDir) then None
  else
    let recursive := match spec_recursive spec with Some b => b | None => false end in
    Some {| sourceDir := normalize P sourceDir;
            targetDir := normalize P targetDir;
            recursive := recursive;
            workspaceFolder := workspaceFolder;
            dir_description :=
              spec_source spec ++ " → " ++ spec_target spec
              ++ (if recursive then " (recursive)" else "") |}.

(** ** Directory expansion *)

Definition stripNjkExtension (value : string) : string :=
  let ext := templateExtension in
  if Js.endsWith (toLowerCase value) (toLowerCase ext)
  then Js.slice_to_neg value (String.length ext)
  else value.

(** The loop over the entries of a directory in
    [walkDirectoryForTemplates]; [recurse] is the recursive call on a
    sub-directory. *)
Fixpoint eachEntry
    (recurse : string -> FsNode -> list (string * string) -> Res (list (string * string)))
    (recursive : bool) (currentPath relativePath : string)
    (entries : list (string * FsNode)) (bucket : list (string * string))
    : Res (list (string * string)) :=
  match entries with
  | [] => Ok bucket
  | (name, child) :: entries' =>
      let childRelative :=
        if Js.truthy relativePath then join P [relativePath; name] else name in
      let childPath := join P [currentPath; name] in
      match child with
      | FsFile =>
          let ext := templateExtension in
          if Js.endsWith (toLowerCase name) (toLowerCase ext)
          then eachEntry recurse recursive currentPath relativePath entries'
                 (bucket ++ [(childPath, childRelative)])%list
          else eachEntry recurse recursive currentPath relativePath entries' bucket
      | FsDir _ =>
          if recursive then
            match recurse childRelative child bucket with
            | Ok bucket' =>
                eachEntry recurse recursive currentPath relativePath entries' bucket'
            | Throw message => Throw message
            end
          else eachEntry recurse recursive currentPath relativePath entries' bucket
      | FsOther => eachEntry recurse recursive currentPath relativePath entries' bucket
      end
  end.

(** [walkDirectoryForTemplates]: [node] is what lies at [currentPath];
    reading anything but a readable directory throws (the message is the
    file system's).  The entries appended to [bucket] are pairs of the
    child's path and its path relative to [rootPath]. *)
Fixpoint walkDirectoryForTemplates (rootPath relativePath : string)
    (recursive : bool) (node : FsNode) (bucket : list (string * string))
    {struct node} : Res (list (string * string)) :=
  let currentPath :=
    if Js.truthy relativePath then join P [rootPath; relativePath] else rootPath in
  match node with
  | FsDir (Some entries) =>
      eachEntry
        (fun childRelative child bucket =>
           walkDirectoryForTemplates rootPath childRelative recursive child bucket)
        recursive currentPath relativePath entries bucket
  | FsDir None => Throw "NoPermissions"
  | FsFile | FsOther => Throw "FileNotADirectory"
  end.

Definition collectTemplatesFromDirectory (directoryTransform : DirectoryTransform)
    : Res (list (string * string)) :=
  let rootPath := sourceDir directoryTransform in
  walkDirectoryForTemplates rootPath "" (recursive directoryTransform)
    (nodeAt rootPath) [].

Definition createDirectoryFileTransform (directoryTransform : DirectoryTransform)
    (uri : string) (rel : string) : W (option FileTransformEntry) :=
  let normalizedRelative := normalize P rel in
  let ext := templateExtension in
  if negb (Js.endsWith (toLowerCase normalizedRelative) (toLowerCase ext))
  then ret None
  else if negb (recursive directoryTransform)
          && Js.includes normalizedRelative (sep P)
  then ret None
  else
    let outputRelative := stripNjkExtension normalizedRelative in
    let targetPath := join P [targetDir directoryTransform; outputRelative] in
    let spec := {| spec_source := uri; spec_target := targetPath;
                   spec_recursive := None |} in
    let* entry := createFileTransformEntry spec
                    (workspaceFolder directoryTransform)
                    (sourceDir directoryTransform) in
    match entry with
    | Some e =>
        ret (Some {| source := source e; target := target e;
                     searchPaths := searchPaths e;
                     templateName := templateName e;
                     description := dir_description directoryTransform
                                    ++ " :: " ++ normalizedRelative |})
    | None => ret None
    end.

(** ** Reading a configuration file *)

Definition coercePath (value : option Value) : option string :=
  match value with
  | Some (VStr s) => Some s
  | Some (VNum n) => if isFinite n then Some (numberText n) else None
  | _ => None
  end.

Definition truthy_path (p : option string) : bool :=
  match p with Some s => Js.truthy s | None => false end.

Definition boolean_of (value : option Value) : option bool :=
  match value with Some (VBool b) => Some b | _ => None end.

Definition normalizeTransform (entry : Value) : option TransformSpec :=
  if negb (isPlainObject entry) then None
  else
    match coercePath (prop "source" entry), coercePath (prop "target" entry) with
    | Some s, Some t =>
        if Js.truthy s && Js.truthy t then
          Some {| spec_source := s; spec_target := t;
                  spec_recursive := boolean_of (prop "recursive" entry) |}
        else None
    | _, _ => None
    end.

Definition extractVars (raw : option Value) : Vars :=
  match raw with
  | Some (VMap fields) => assign JsMap.empty fields
  | _ => JsMap.empty
  end.

(** [for (const item of items) { ... }] over an accumulator, with
    diagnostics. *)
Definition for_each {A S : Type} (items : list A) (init : S)
    (body : S -> A -> W S) : W S :=
  fold_left (fun acc item => let* s := acc in body s item) items (ret init).

Definition spec_of_target_object (sourceKey : string) (targetSpec : Value)
    : option TransformSpec :=
  if isPlainObject targetSpec then
    match coercePath (prop "target" targetSpec) with
    | Some targetPath =>
        if Js.truthy targetPath then
          let candidateSource :=
            match coercePath (prop "source" targetSpec) with
            | Some s => s
            | None => sourceKey
            end in
          Some {| spec_source := candidateSource; spec_target := targetPath;
                  spec_recursive := boolean_of (prop "recursive" targetSpec) |}
        else None
    | None => None
    end
  else None.

Definition extractTransformSpecs (raw : option Value) (configPath : string)
    : W (list TransformSpec) :=
  if negb (truthy_value raw) then ret []
  else
    match raw with
    | Some (VSeq items) =>
        for_each items []
          (fun specs entry =>
             match normalizeTransform entry with
             | Some normalized => ret (specs ++ [normalized])%list
             | None =>
                 let* _ := emit
                   [Out ("Nunjucksu: skipped invalid transform entry in "
                         ++ configPath ++ ".")] in
                 ret specs
             end)
    | Some (VMap record) =>
        let singleSource := coercePath (JsMap.get "source" record) in
        let singleTarget := coercePath (JsMap.get "target" record) in
        let each_entry :=
          for_each record []
            (fun specs kv =>
               let sourceKey := fst kv in
               let targetSpec := snd kv in
               match coercePath (Some targetSpec) with
               | Some directTarget =>
                   if Js.truthy directTarget then
                     ret (specs ++ [ {| spec_source := sourceKey;
                                        spec_target := directTarget;
                                        spec_recursive := None |} ])%list
                   else
                     let* _ := emit
                       [Out ("Nunjucksu: transform '" ++ sourceKey ++ "' in "
                             ++ configPath ++ " is invalid and was ignored.")] in
                     ret specs
               | None =>
                   match spec_of_target_object sourceKey targetSpec with
                   | Some spec => ret (specs ++ [spec])%list
                   | None =>
                       let* _ := emit
                         [Out ("Nunjucksu: transform '" ++ sourceKey ++ "' in "
                               ++ configPath ++ " is invalid and was ignored.")] in
                       ret specs
                   end
               end) in
        match singleSource, singleTarget with
        | Some s, Some t =>
            if Js.truthy s && Js.truthy t then
              ret [ {| spec_source := s; spec_target := t;
                       spec_recursive :=
                         boolean_of (JsMap.get "recursive" record) |} ]
            else each_entry
        | _, _ => each_entry
        end
    | _ =>
        let* _ := emit
          [Out ("Nunjucksu: transforms section in " ++ configPath
                ++ " must be an array or mapping.")] in
        ret []
    end.

Definition readConfig (file : ConfigFile)
    : Res (W (Vars * list FileTransformEntry * list DirectoryTransform)) :=
  match content file with
  | ReadFails message => Throw message
  | ParseFails message => Throw message
  | Parsed doc =>
      let parsed := match doc with VNull => VMap [] | _ => doc end in
      if negb (isPlainObject parsed) then
        Throw "Configuration root must be a mapping."
      else
        Ok (let vars := extractVars (prop "vars" parsed) in
            let* specs := extractTransformSpecs (prop "transforms" parsed)
                            (fsPath file) in
            let configDir := dirname P (fsPath file) in
            let workspaceFolder := workspaceFolderOf (fsPath file) in
            let* gathered :=
              for_each specs ([], [])
                (fun acc spec =>
                   let fileTransforms := fst acc in
                   let directoryTransforms := snd acc in
                   match spec_recursive spec with
                   | Some _ =>
                       match createDirectoryTransform spec workspaceFolder
                               configDir with
                       | Some directoryEntry =>
                           ret (fileTransforms,
                                (directoryTransforms ++ [directoryEntry])%list)
                       | None => ret acc
                       end
                   | None =>
                       let* entry := createFileTransformEntry spec
                                       workspaceFolder configDir in
                       match entry with
                       | Some e =>
                           ret ((fileTransforms ++ [e])%list, directoryTransforms)
                       | None => ret acc
                       end
                   end) in
            ret (vars, fst gathered, snd gathered))
  end.

(** ** Cycle detection *)

(** The adjacency list: canonical source to canonical targets. *)
Definition buildGraph (transforms : list FileTransformEntry)
    : JsMap.t (list string) :=
  fold_left
    (fun graph transform =>
       let sourceKey := normalizeFsPath (source transform) in
       let targetKey := normalizeFsPath (target transform) in
       let graph :=
         if JsMap.has sourceKey graph then graph
         else JsMap.set sourceKey [] graph in
       match JsMap.get sourceKey graph with
       | Some targets => JsMap.set sourceKey (targets ++ [targetKey])%list graph
       | None => graph
       end)
    transforms JsMap.empty.

Definition cycleNodesOf (transforms : list FileTransformEntry)
    : option (gset string) :=
  let graph := buildGraph transforms in
  match checkAll graph (dfs_fuel graph) (JsMap.keys graph) dfs_init with
  | Some st => Some (cycleNodes st)
  | None => None
  end.

Definition touchesCycle (cycle : gset string) (transform : FileTransformEntry)
    : bool :=
  bool_decide (normalizeFsPath (source transform) ∈ cycle)
  || bool_decide (normalizeFsPath (target transform) ∈ cycle).

(** [None] only if the search ran out of fuel, which it never does
    ([detectAndRemoveCycles_total]). *)
Definition detectAndRemoveCycles (transforms : list FileTransformEntry)
    : option (W (list FileTransformEntry)) :=
  match cycleNodesOf transforms with
  | None => None
  | Some cycle =>
      Some (for_each transforms []
              (fun filtered transform =>
                 if touchesCycle cycle transform then
                   let* _ := emit
                     [Out ("Nunjucksu: removed transform " ++ description transform
                           ++ " (part of cycle)");
                      Warn ("Nunjucksu: cycle detected in transforms involving "
                            ++ basename P (source transform))] in
                   ret filtered
                 else ret (filtered ++ [transform])%list))
  end.

(** ** The combined transform list and the watchers *)

Definition bySource (entries : list FileTransformEntry)
    : JsMap.t FileTransformEntry :=
  fold_left
    (fun m entry => JsMap.set (normalizeFsPath (source entry)) entry m)
    entries JsMap.empty.

Definition rebuildTransformsList (st : Controller) : Controller :=
  let configBySource := bySource (configFileTransforms st) in
  let templateBySource :=
    fold_left
      (fun m entry =>
         let key := normalizeFsPath (source entry) in
         if negb (JsMap.has key configBySource) then JsMap.set key entry m else m)
      (templateTransforms st) JsMap.empty in
  {| transforms := (configFileTransforms st ++ JsMap.values templateBySource)%list;
     configFileTransforms := configFileTransforms st;
     directoryTransforms := directoryTransforms st;
     templateTransforms := templateTransforms st;
     variables := variables st;
     transformsBySource := transformsBySource st;
     sourceWatchers := sourceWatchers st;
     lastTemplateCount := lastTemplateCount st |}.

Definition rebuildSourceWatchers (st : Controller) : Controller :=
  let index :=
    fold_left
      (fun m transform =>
         let key := normalizeFsPath (source transform) in
         match JsMap.get key m with
         | Some existing => JsMap.set key (existing ++ [transform])%list m
         | None => JsMap.set key [transform] m
         end)
      (transforms st) JsMap.empty in
  {| transforms := transforms st;
     configFileTransforms := configFileTransforms st;
     directoryTransforms := directoryTransforms st;
     templateTransforms := templateTransforms st;
     variables := variables st;
     transformsBySource := index;
     sourceWatchers :=
       omap (fun entries => match entries with
                            | e :: _ => Some (source e)
                            | [] => None
                            end) (JsMap.values index);
     lastTemplateCount := lastTemplateCount st |}.

Definition with_templateTransforms (entries : list FileTransformEntry)
    (st : Controller) : Controller :=
  {| transforms := transforms st;
     configFileTransforms := configFileTransforms st;
     directoryTransforms := directoryTransforms st;
     templateTransforms := entries;
     variables := variables st;
     transformsBySource := transformsBySource st;
     sourceWatchers := sourceWatchers st;
     lastTemplateCount := lastTemplateCount st |}.

Definition with_lastTemplateCount (n : Z) (st : Controller) : Controller :=
  {| transforms := transforms st;
     configFileTransforms := configFileTransforms st;
     directoryTransforms := directoryTransforms st;
     templateTransforms := templateTransforms st;
     variables := variables st;
     transformsBySource := transformsBySource st;
     sourceWatchers := sourceWatchers st;
     lastTemplateCount := n |}.

(** ** Full rescan of the directory transforms *)

Definition scanDirectoryTransform (directoryTransform : DirectoryTransform)
    (directoryTransformMap : JsMap.t FileTransformEntry)
    : W (JsMap.t FileTransformEntry) :=
  match collectTemplatesFromDirectory directoryTransform with
  | Ok templates =>
      for_each templates directoryTransformMap
        (fun m template =>
           let* entry := createDirectoryFileTransform directoryTransform
                           (fst template) (snd template) in
           match entry with
           | Some e => ret (JsMap.set (normalizeFsPath (source e)) e m)
           | None => ret m
           end)
  | Throw message =>
      let* _ := emit
        [Out ("Nunjucksu: failed to scan " ++ sourceDir directoryTransform
              ++ ": " ++ message);
         Warn ("Nunjucksu: cannot access directory "
               ++ basename P (sourceDir directoryTransform)
               ++ ". Check permissions.")] in
      ret directoryTransformMap
  end.

Definition performTemplateReload (st : Controller) : W Controller :=
  let snapshotConfigTransforms := configFileTransforms st in
  let configTransformsBySource := bySource snapshotConfigTransforms in
  let* directoryTransformMap :=
    for_each (directoryTransforms st) JsMap.empty
      (fun m directoryTransform => scanDirectoryTransform directoryTransform m) in
  let dynamicTransforms :=
    List.filter
      (fun entry =>
         negb (JsMap.has (normalizeFsPath (source entry)) configTransformsBySource))
      (JsMap.values directoryTransformMap) in
  let dynamicTransforms :=
    sort (fun a b => localeCompare (source a) (source b)) dynamicTransforms in
  let st := with_templateTransforms dynamicTransforms st in
  let st := rebuildSourceWatchers (rebuildTransformsList st) in
  let count := Z.of_nat (List.length dynamicTransforms) in
  if negb (lastTemplateCount st =? count)%Z then
    let* _ := emit
      [Out ("Nunjucksu: discovered " ++ pretty count
            ++ " .njk template(s) from directory transforms.")] in
    ret (with_lastTemplateCount count st)
  else ret st.

(** ** Incremental updates on template events *)

(** [templateTransforms[existingIndex] = entry] at the first entry of
    canonical source [key], or [push(entry)] when there is none. *)
Fixpoint upsert (key : string) (entry : FileTransformEntry)
    (entries : list FileTransformEntry) : list FileTransformEntry :=
  match entries with
  | [] => [entry]
  | t :: rest =>
      if String.eqb (normalizeFsPath (source t)) key then entry :: rest
      else t :: upsert key entry rest
  end.

Fixpoint handleTemplateChange_loop (uri : string)
    (dirTransforms : list DirectoryTransform) (st : Controller) : W Controller :=
  match dirTransforms with
  | [] => ret st
  | dirTransform :: rest =>
      let relativePath := relative P (sourceDir dirTransform) uri in
      if negb (Js.startsWith relativePath "..") && negb (isAbsolute P relativePath)
      then
        let* entry := createDirectoryFileTransform dirTransform uri relativePath in
        match entry with
        | Some e =>
            let key := normalizeFsPath uri in
            let st := with_templateTransforms
                        (upsert key e (templateTransforms st)) st in
            ret (rebuildSourceWatchers (rebuildTransformsList st))
        | None => handleTemplateChange_loop uri rest st
        end
      else handleTemplateChange_loop uri rest st
  end.

Definition handleTemplateChange (uri : string) (st : Controller) : W Controller :=
  handleTemplateChange_loop uri (directoryTransforms st) st.

Definition handleTemplateDelete (uri : string) (st : Controller) : Controller :=
  let key := normalizeFsPath uri in
  let initialLength := List.length (templateTransforms st) in
  let remaining :=
    List.filter (fun t => negb (String.eqb (normalizeFsPath (source t)) key))
      (templateTransforms st) in
  let st := with_templateTransforms remaining st in
  if negb (List.length remaining =? initialLength)%nat then
    rebuildSourceWatchers (rebuildTransformsList st)
  else st.

(** ** Configuration reload *)

(** One turn of the loop over the configuration files: the body of the
    [try], or the [catch] when [readConfig] throws. *)
Definition loadConfig
    (acc : Vars * list FileTransformEntry * list DirectoryTransform)
    (uri : ConfigFile)
    : W (Vars * list FileTransformEntry * list DirectoryTransform) :=
  let '(mergedVars, gatheredFileTransforms, gatheredDirectoryTransforms) := acc in
  match readConfig uri with
  | Ok loaded =>
      let* r := loaded in
      let '(vars, fileTransforms, directoryTransforms) := r in
      ret (assign mergedVars vars,
           (gatheredFileTransforms ++ fileTransforms)%list,
           (gatheredDirectoryTransforms ++ directoryTransforms)%list)
  | Throw message =>
      let* _ := emit
        [Out ("Nunjucksu: failed to load " ++ fsPath uri ++ ": " ++ message);
         Warn ("Nunjucksu: unable to read " ++ basename P (fsPath uri)
               ++ ". Check the output channel for details.")] in
      ret acc
  end.

Definition sortConfigs (configUris : list ConfigFile) : list ConfigFile :=
  sort (fun a b => localeCompare (fsPath a) (fsPath b)) configUris.

(** The merge of the configuration files, before cycle detection. *)
Definition gatherConfigs (configUris : list ConfigFile)
    : W (Vars * list FileTransformEntry * list DirectoryTransform) :=
  for_each (sortConfigs configUris) (JsMap.empty, [], []) loadConfig.

(** [performReload], for the configuration files [configUris] that
    [findFiles] returned.  [None] only if the cycle search ran out of
    fuel. *)
Definition performReload (configUris : list ConfigFile) (st : Controller)
    : option (W Controller) :=
  let gathered :=
    let* _ := match configUris with
              | [] => log "Nunjucksu: no .njk.yaml configuration files were found."
                        Verbose
              | _ => ret tt
              end in
    gatherConfigs configUris in
  let '(mergedVars, gatheredFileTransforms, gatheredDirectoryTransforms) :=
    fst gathered in
  match detectAndRemoveCycles gatheredFileTransforms with
  | None => None
  | Some removal =>
      Some (let* _ := gathered in
            let* filteredTransforms := removal in
            let st :=
              {| transforms := transforms st;
                 configFileTransforms := filteredTransforms;
                 directoryTransforms := gatheredDirectoryTransforms;
                 templateTransforms := templateTransforms st;
                 variables := mergedVars;
                 transformsBySource := transformsBySource st;
                 sourceWatchers := sourceWatchers st;
                 lastTemplateCount := lastTemplateCount st |} in
            let* _ := match configUris with
                      | [] => ret tt
                      | _ =>
                          log ("Nunjucksu: loaded "
                               ++ pretty (List.length gatheredFileTransforms)
                               ++ " file transform(s) and "
                               ++ pretty (List.length gatheredDirectoryTransforms)
                               ++ " directory transform(s) from "
                               ++ pretty (List.length configUris)
                               ++ " config file(s).") Verbose
                      end in
            performTemplateReload st)
  end.

(** ** The file system calls of the writer *)

Definition journal (call : FsCall) (fs : FileSystem) : FileSystem :=
  {| files := files fs; dirs := dirs fs; calls := (calls fs ++ [call])%list |}.

(** A directory and the directories above it, up to the root. *)
Fixpoint ancestors (fuel : nat) (dir : string) : list string :=
  match fuel with
  | O => [dir]
  | S fuel' =>
      let parent := dirname P dir in
      if String.eqb parent dir then [dir] else dir :: ancestors fuel' parent
  end.

(** [fs.createDirectory]: creates the missing directories on the way
    ([mkdir -p]); throws when a regular file is in the way. *)
Definition createDirectory (dir : string) (fs : FileSystem)
    : Res unit * FileSystem :=
  let chain := ancestors (String.length dir) dir in
  let fs := journal (CreateDirectory dir) fs in
  if existsb (fun a => bool_decide (is_Some (files fs !! a))) chain
  then (Throw "FileExists", fs)
  else (Ok tt, {| files := files fs;
                  dirs := list_to_set chain ∪ dirs fs;
                  calls := calls fs |}).

(** [fs.readFile]: throws unless a regular file is there. *)
Definition readFile (uri : string) (fs : FileSystem)
    : Res (Buffer) * FileSystem :=
  let fs := journal (ReadFile uri) fs in
  match files fs !! uri with
  | Some bytes => (Ok bytes, fs)
  | None => (Throw "FileNotFound", fs)
  end.

(** [fs.writeFile]: creates or overwrites a regular file; throws when
    the path is a directory. *)
Definition writeFile (uri : string) (bytes : Buffer) (fs : FileSystem)
    : Res unit * FileSystem :=
  let fs := journal (WriteFile uri bytes) fs in
  if bool_decide (uri ∈ dirs fs) then (Throw "FileIsADirectory", fs)
  else (Ok tt, {| files := <[uri := bytes]> (files fs);
                  dirs := dirs fs;
                  calls := calls fs |}).

(** [Buffer.from(contents, 'utf8')]: a string of the embedding is the
    sequence of its UTF-8 bytes already. *)
Definition utf8 (contents : string) : Buffer := contents.

Definition writeTarget (uri : string) (contents : string) (fs : FileSystem)
    : Res unit * FileSystem :=
  let directory := dirname P uri in
  match createDirectory directory fs with
  | (Throw message, fs) => (Throw message, fs)
  | (Ok _, fs) =>
      let next := utf8 contents in
      match readFile uri fs with
      | (Ok current, fs) =>
          if String.eqb current next then (Ok tt, fs)
          else writeFile uri next fs
      | (Throw _, fs) => writeFile uri next fs
      end
  end.

Definition renderTemplate (transform : FileTransformEntry) (variables : Vars)
    (fs : FileSystem) : Res string :=
  let context := assign JsMap.empty variables in
  render (searchPaths transform) (templateName transform) context (files fs).

Definition renderTransform (transform : FileTransformEntry) (reason : string)
    (variables : Vars) (fs : FileSystem) : W FileSystem :=
  let failed (message : string) (fs : FileSystem) : W FileSystem :=
    let* _ := emit
      [Out ("Nunjucksu: failed to render " ++ description transform ++ ": "
            ++ message);
       Warn ("Nunjucksu: failed to render " ++ basename P (target transform)
             ++ ". See output for details.")] in
    ret fs in
  match renderTemplate transform variables fs with
  | Ok output =>
      match writeTarget (target transform) output fs with
      | (Ok _, fs) =>
          let* _ := log ("Nunjucksu: rendered " ++ description transform
                         ++ " (" ++ reason ++ ").") Normal in
          ret fs
      | (Throw message, fs) => failed message fs
      end
  | Throw message => failed message fs
  end.


(** ** The render scheduler *)

Definition with_status (status : Status) (unit : RenderUnit) : RenderUnit :=
  {| unit_key := unit_key unit;
     unit_transforms := unit_transforms unit;
     unit_reason := unit_reason unit;
     unit_previous := unit_previous unit;
     unit_status := status |}.

Definition settled (sched : Scheduler) (promise : option nat) : bool :=
  match promise with
  | None => true
  | Some p =>
      match units sched !! p with
      | Some unit => match unit_status unit with Settled => true | _ => false end
      | None => false
      end
  end.

(** [handleSourceEvent] *)
Definition handleSourceEvent (uri reason : string) (now : Z) (sched : Scheduler)
    : Scheduler :=
  let key := normalizeFsPath uri in
  match JsMap.get key (index sched) with
  | None | Some [] => sched
  | Some transforms =>
      let previous := renderQueue sched !! key in
      let next := List.length (units sched) in
      {| index := index sched;
         renderQueue := <[key := next]> (renderQueue sched);
         renderTimestamps := <[key := now]> (renderTimestamps sched);
         units := (units sched
                   ++ [ {| unit_key := key; unit_transforms := transforms;
                           unit_reason := reason; unit_previous := previous;
                           unit_status := Waiting |} ])%list;
         trace := trace sched |}
  end.

Definition stale (now : Z) (timestamps : gmap string Z) (key : string) : bool :=
  match timestamps !! key with
  | Some timestamp => (RENDER_TIMEOUT_MS <? now - timestamp)%Z
  | None => false
  end.

(** [cleanupStaleRenders] *)
Definition cleanupStaleRenders (now : Z) (sched : Scheduler) : Scheduler :=
  let keep {V} (m : gmap string V) : gmap string V :=
    filter (fun kv => stale now (renderTimestamps sched) (fst kv) = false) m in
  {| index := index sched;
     renderQueue := keep (renderQueue sched);
     renderTimestamps := keep (renderTimestamps sched);
     units := units sched;
     trace := trace sched |}.

Definition update_unit (u : nat) (unit : RenderUnit) (event : TraceEvent)
    (sched : Scheduler) : Scheduler :=
  {| index := index sched;
     renderQueue := renderQueue sched;
     renderTimestamps := renderTimestamps sched;
     units := <[u := unit]> (units sched);
     trace := (trace sched ++ [event])%list |}.

(** The [finally] callback of a unit. *)
Definition forget (u : nat) (key : string) (sched : Scheduler) : Scheduler :=
  if bool_decide (renderQueue sched !! key = Some u) then
    {| index := index sched;
       renderQueue := delete key (renderQueue sched);
       renderTimestamps := delete key (renderTimestamps sched);
       units := units sched;
       trace := trace sched |}
  else sched.

(** One turn; [None] when the turn cannot happen in this state. *)
Definition step (action : Action) (sched : Scheduler) : option Scheduler :=
  match action with
  | SourceEvent uri reason now => Some (handleSourceEvent uri reason now sched)
  | Sweep now => Some (cleanupStaleRenders now sched)
  | Reindex idx =>
      Some {| index := idx;
              renderQueue := renderQueue sched;
              renderTimestamps := renderTimestamps sched;
              units := units sched;
              trace := trace sched |}
  | Start u =>
      match units sched !! u with
      | Some unit =>
          match unit_status unit with
          | Waiting =>
              if settled sched (unit_previous unit)
              then Some (update_unit u (with_status (Running 0) unit) (Begin u) sched)
              else None
          | _ => None
          end
      | None => None
      end
  | Render u =>
      match units sched !! u with
      | Some unit =>
          match unit_status unit with
          | Running done =>
              match unit_transforms unit !! done with
              | Some transform =>
                  Some (update_unit u (with_status (Running (S done)) unit)
                          (Rendered u transform) sched)
              | None => None
              end
          | _ => None
          end
      | None => None
      end
  | Finish u =>
      match units sched !! u with
      | Some unit =>
          match unit_status unit with
          | Running done =>
              if (done =? List.length (unit_transforms unit))%nat then
                Some (forget u (unit_key unit)
                        (update_unit u (with_status Settled unit) (Settle u) sched))
              else None
          | _ => None
          end
      | None => None
      end
  end.

Fixpoint run (actions : list Action) (sched : Scheduler) : option Scheduler :=
  match actions with
  | [] => Some sched
  | action :: rest =>
      match step action sched with
      | Some sched' => run rest sched'
      | None => None
      end
  end.

Definition scheduler_init (idx : list (string * list FileTransformEntry))
    : Scheduler :=
  {| index := idx; renderQueue := ∅; renderTimestamps := ∅;
     units := []; trace := [] |}.

End Controller.

(* ===================================================================== *)
(** * Notions of the specification *)
(* ===================================================================== *)

(** What a configuration file contributes when it loads: its variables,
    its file transforms and its directory transforms.  [None] when
    reading it throws. *)
Definition configLayer (E : Env) (file : ConfigFile)
    : option (Vars * list FileTransformEntry * list DirectoryTransform) :=
  match readConfig E file with
  | Ok loaded => Some (fst loaded)
  | Throw _ => None
  end.

Definition configVars (E : Env) (file : ConfigFile) : option Vars :=
  match configLayer E file with
  | Some layer => Some (fst (fst layer))
  | None => None
  end.

(** The file loads: reading it does not throw. *)
Definition loads (E : Env) (file : ConfigFile) : bool :=
  match readConfig E file with Ok _ => true | Throw _ => false end.

(** Shallow overwrite, in the words of the specification: a key holds the
    value the last layer that defines it gives, whole. *)
Definition shallowOverwrite (layers : list Vars) (k : string) : option Value :=
  fold_left
    (fun acc vars => match JsMap.get k vars with Some v => Some v | None => acc end)
    layers None.

(** ** The transform graph *)

(** [y] is a neighbour of [x] in the adjacency list. *)
Definition edge (graph : JsMap.t (list string)) (x y : string) : Prop :=
  In y (neighborsOf graph x).

Definition graph_nodes (graph : JsMap.t (list string)) : gset string :=
  list_to_set (JsMap.keys graph ++ List.concat (JsMap.values graph)).

(** [x] lies on a directed cycle (of length one or more). *)
Definition on_cycle (graph : JsMap.t (list string)) (x : string) : Prop :=
  tc (edge graph) x x.

(** A directed cycle can be reached from [x]: [x] lies on one or on a
    path into one. *)
Definition leads_to_cycle (graph : JsMap.t (list string)) (x : string) : Prop :=
  exists c, rtc (edge graph) x c /\ on_cycle graph c.

(** No infinite path starts at [x]. *)
Definition finite_from (graph : JsMap.t (list string)) (x : string) : Prop :=
  Acc (fun y x => edge graph x y) x.

(** What the search maintains: the recursion stack is visited, the marked
    nodes are on it, and a node that was left has no infinite path. *)
Definition dfs_inv (graph : JsMap.t (list string)) (st : Dfs) : Prop :=
  recursionStack st ⊆ visited st
  /\ cycleNodes st ⊆ recursionStack st
  /\ forall x, x ∈ visited st -> x ∉ recursionStack st -> finite_from graph x.

(** What a call [hasCycle(node)] made in state [st] establishes when it
    returns [b] in state [st']. *)
Definition hasCycle_post (graph : JsMap.t (list string)) (node : string)
    (st : Dfs) (b : bool) (st' : Dfs) : Prop :=
  visited st ⊆ visited st'
  /\ dfs_inv graph st'
  /\ node ∈ visited st'
  /\ if b then
       recursionStack st ⊆ recursionStack st'
       /\ cycleNodes st ⊆ cycleNodes st'
       /\ node ∈ cycleNodes st'
       /\ leads_to_cycle graph node
       /\ (forall a, a ∈ recursionStack st' -> a ∉ recursionStack st ->
                     a ∈ cycleNodes st' /\ leads_to_cycle graph a)
       /\ (forall a, a ∈ cycleNodes st' -> a ∉ cycleNodes st ->
                     leads_to_cycle graph a)
     else
       recursionStack st' = recursionStack st
       /\ cycleNodes st' = cycleNodes st
       /\ node ∉ recursionStack st'.

(** What holds between two calls of the loop over the keys: the nodes
    left on the stack are marked, and every marked node leads to a
    cycle. *)
Definition top_inv (graph : JsMap.t (list string)) (st : Dfs) : Prop :=
  dfs_inv graph st
  /\ (forall a, a ∈ recursionStack st -> a ∈ cycleNodes st)
  /\ (forall a, a ∈ cycleNodes st -> leads_to_cycle graph a).

(** The canonical source and target of a transform, and the graph of a
    transform set. *)
Definition sourceKey (E : Env) (t : FileTransformEntry) : string :=
  normalizeFsPath E (source t).

Definition targetKey (E : Env) (t : FileTransformEntry) : string :=
  normalizeFsPath E (target t).

(** ** A platform for the concrete runs

    POSIX paths, working directory [/], no workspace folder, default
    settings; every path exists unless a run says otherwise; the
    renderer answers with the name of the template.

    The strings of the runs are made of ASCII characters.  On such
    strings [toLowerCase] changes the letters [A] to [Z] and nothing
    else, and [trim] strips the characters 9 to 13 and 32; this is what
    [asciiText] computes.  It stands for the engine on ASCII strings
    only: on other strings the engine folds more, strips more and may
    change the length. *)
Definition asciiLower (c : ascii) : ascii :=
  let n := nat_of_ascii c in
  if (65 <=? n)%nat && (n <=? 90)%nat then ascii_of_nat (n + 32) else c.

Fixpoint asciiLowerCase (s : string) : string :=
  match s with
  | EmptyString => EmptyString
  | String c s' => String (asciiLower c) (asciiLowerCase s')
  end.

Definition asciiSpace (c : ascii) : bool :=
  let n := nat_of_ascii c in
  ((9 <=? n)%nat && (n <=? 13)%nat) || (n =? 32)%nat.

Fixpoint asciiTrimStart (s : string) : string :=
  match s with
  | EmptyString => EmptyString
  | String c s' => if asciiSpace c then asciiTrimStart s' else s
  end.

Fixpoint asciiTrimEnd (s : string) : string :=
  match s with
  | EmptyString => EmptyString
  | String c s' =>
      match asciiTrimEnd s' with
      | EmptyString => if asciiSpace c then EmptyString else String c EmptyString
      | r => String c r
      end
  end.

Definition asciiTrim (s : string) : string := asciiTrimEnd (asciiTrimStart s).

Definition asciiText : TextModule := {|
  toLowerCase := asciiLowerCase;
  trim := asciiTrim;
  toLowerCase_empty := eq_refl;
  trim_empty := eq_refl
|}.

(** A comparator for the runs: the order of the character codes of the
    ASCII-lower-cased paths.  It is not the collation of
    [localeCompare]; it answers as [localeCompare] with sensitivity
    [base] does on the pairs of paths the runs compare, which first
    differ at a letter or a digit. *)
Definition asciiCompare (a b : string) : comparison :=
  String.compare (asciiLowerCase a) (asciiLowerCase b).

Definition posixEnv : Env := {|
  path := posix "/";
  text := asciiText;
  win32 := false;
  templateExtension := ".njk";
  additionalSearchPaths := [];
  logLevel := Normal;
  existsSync := fun _ => true;
  nodeAt := fun _ => FsDir None;
  workspaceFolderOf := fun _ => None;
  localeCompare := asciiCompare;
  render := fun _ templateName _ _ => Ok ("rendered " ++ templateName)
|}.

(** The entry an explicit transform from [src] to [tgt] resolves to. *)
Definition transform (src tgt : string) : FileTransformEntry := {|
  source := src;
  target := tgt;
  searchPaths := [Posix.dirname src];
  templateName := Posix.basename src;
  description := src ++ " → " ++ tgt
|}.

(** The transform set of the repository's unit test "detectCycles finds
    cycle in complex graph": the cycle B -> C -> D -> B, entered from A,
    and the edge A -> E on the side. *)
Definition complexGraph : list FileTransformEntry :=
  [ transform "/A" "/B"; transform "/B" "/C"; transform "/C" "/D";
    transform "/D" "/B"; transform "/A" "/E" ].

(** ** Explicit over derived *)

(** The entries of a transform list whose canonical source is [k]. *)
Definition withSource (E : Env) (k : string) (entries : list FileTransformEntry)
    : list FileTransformEntry :=
  List.filter (fun t => String.eqb (sourceKey E t) k) entries.

(** For every canonical source an explicit transform names, the combined
    list holds the explicit transforms of that source, as configured, and
    nothing else. *)
Definition explicitWins (E : Env) (st : Controller) : Prop :=
  forall k, In k (map (sourceKey E) (configFileTransforms st)) ->
            withSource E k (transforms st)
            = withSource E k (configFileTransforms st).

(** A workspace rooted at [/w] whose directory [tpl] holds [a.njk] and
    [sub/b.njk]. *)
Definition tplTree : FsNode :=
  FsDir (Some [("a.njk", FsFile); ("sub", FsDir (Some [("b.njk", FsFile)]))]).

Definition workspaceEnv : Env := {|
  path := posix "/";
  text := asciiText;
  win32 := false;
  templateExtension := ".njk";
  additionalSearchPaths := [];
  logLevel := Normal;
  existsSync := fun _ => true;
  nodeAt := fun p => if String.eqb p "/w/tpl" then tplTree else FsDir None;
  workspaceFolderOf := fun _ => Some "/w";
  localeCompare := asciiCompare;
  render := fun _ templateName _ _ => Ok ("rendered " ++ templateName)
|}.

Definition controller_init : Controller := {|
  transforms := [];
  configFileTransforms := [];
  directoryTransforms := [];
  templateTransforms := [];
  variables := [];
  transformsBySource := [];
  sourceWatchers := [];
  lastTemplateCount := (-1)%Z
|}.

(** A configuration file with two explicit transforms of one source and
    a directory transform over the directory of that source. *)
Definition sharedSourceConfig : ConfigFile := {|
  fsPath := "/w/.vscode/site.njk.yaml";
  content :=
    Parsed (VMap [("transforms",
      VSeq [ VMap [("source", VStr "tpl/a.njk"); ("target", VStr "out/x")];
             VMap [("source", VStr "tpl/a.njk"); ("target", VStr "out/y")];
             VMap [("source", VStr "tpl"); ("target", VStr "gen");
                   ("recursive", VBool false)] ])])
|}.

(** ** Template lookup names *)

(** The test of the controller on a search path: the relative path from
    [base] to the source does not begin with the two characters [..] and
    is not absolute.  The empty relative path (the source is [base])
    passes; a relative path that is the name of a file beginning with two
    dots does not. *)
Definition passes (P : PathModule) (sourcePath base : string) : bool :=
  negb (Js.startsWith (relative P base sourcePath) "..")
  && negb (isAbsolute P (relative P base sourcePath)).

(** In the words of the specification: the source is a proper descendant
    of the search path when the relative path has no [..] segment and
    the two are not equal. *)
Definition properDescendant (P : PathModule) (base sourcePath : string) : bool :=
  let rel := relative P base sourcePath in
  negb (String.eqb rel "")
  && negb (existsb (String.eqb "..") (Js.split (sep P) rel))
  && negb (isAbsolute P rel).

(** The lookup name as the specification derives it. *)
Definition specTemplateName (P : PathModule) (sourcePath : string)
    (searchPaths : list string) : string :=
  match List.find (fun base => properDescendant P base sourcePath) searchPaths with
  | Some base => Js.join "/" (Js.split (sep P) (relative P base sourcePath))
  | None => basename P sourcePath
  end.

(** A platform that is not win32 over a file system that ignores letter
    case: the one file [/w/tpl/page.njk] answers to every spelling. *)
Definition caseInsensitiveEnv : Env := {|
  path := posix "/";
  text := asciiText;
  win32 := false;
  templateExtension := ".njk";
  additionalSearchPaths := [];
  logLevel := Normal;
  existsSync := fun p => String.eqb (asciiLowerCase p) "/w/tpl/page.njk";
  nodeAt := fun _ => FsDir None;
  workspaceFolderOf := fun _ => Some "/w";
  localeCompare := asciiCompare;
  render := fun _ templateName _ _ => Ok ("rendered " ++ templateName)
|}.

(** A file system with nothing in it. *)
Definition emptyFs : FileSystem := {| files := ∅; dirs := ∅; calls := [] |}.

(** ** Further transform sets for the runs *)

(** The transform set of the repository's unit test "detectCycles finds
    no cycle in linear chain". *)
Definition linearChain : list FileTransformEntry :=
  [ transform "/A" "/B"; transform "/B" "/C" ].

(** What [detectAndRemoveCycles] reports of a transform it removes. *)
Definition removalReport (E : Env) (t : FileTransformEntry) : list Diag :=
  [Out ("Nunjucksu: removed transform " ++ description t ++ " (part of cycle)");
   Warn ("Nunjucksu: cycle detected in transforms involving "
         ++ basename (path E) (source t))].

(** ** Directory trees *)

(** The regular files of a directory tree: [fileAt node dirs name] when
    the file [name] lies in the directory reached from [node] through the
    sub-directories [dirs], all of them readable. *)
Inductive fileAt : FsNode -> list string -> string -> Prop :=
| fileAt_here entries name :
    In (name, FsFile) entries -> fileAt (FsDir (Some entries)) [] name
| fileAt_below entries dir child dirs name :
    In (dir, child) entries -> fileAt child dirs name ->
    fileAt (FsDir (Some entries)) (dir :: dirs) name.

Definition isDirectory (node : FsNode) : Prop := exists listing, node = FsDir listing.

(** Every directory the walk enters can be read: the node itself, and,
    when the walk is recursive, the directories below it. *)
Inductive readable (recursive : bool) : FsNode -> Prop :=
| readable_dir entries :
    (recursive = true ->
     forall name child, In (name, child) entries -> isDirectory child ->
                        readable recursive child) ->
    readable recursive (FsDir (Some entries)).

(** The path of a child relative to the root of the walk, as
    [walkDirectoryForTemplates] computes it from the relative path of the
    directory, and the relative path of what lies below the names
    [names]. *)
Definition childRelative (P : PathModule) (relativePath name : string) : string :=
  if Js.truthy relativePath then join P [relativePath; name] else name.

Definition relativeOf (P : PathModule) (names : list string) : string :=
  fold_left (childRelative P) names "".

(** The path of the directory at [relativePath] below [rootPath], as the
    walk computes it. *)
Definition currentPathOf (P : PathModule) (rootPath relativePath : string) : string :=
  if Js.truthy relativePath then join P [rootPath; relativePath] else rootPath.

(** The name is that of a template: lower-cased as the engine
    lower-cases it, it ends with the lower-cased template extension. *)
Definition isTemplate (E : Env) (name : string) : bool :=
  Js.endsWith (toLowerCase (text E) name)
    (toLowerCase (text E) (templateExtension E)).

(** What the walk is to find below [node], a node reached from the root
    through the directories [pre]. *)
Definition foundBelow (E : Env) (rootPath : string) (pre : list string)
    (recursive : bool) (node : FsNode) (found : list (string * string)) : Prop :=
  forall uri rel,
    In (uri, rel) found
    <-> exists dirs name,
          fileAt node dirs name
          /\ isTemplate E name = true
          /\ (recursive = true \/ dirs = [])
          /\ rel = relativeOf (path E) (pre ++ dirs ++ [name])
          /\ uri = join (path E)
                     [currentPathOf (path E) rootPath
                        (relativeOf (path E) (pre ++ dirs)); name].


(** ** Search paths *)

(** One turn of the loop of [uniquePaths]: an empty entry is passed
    over, a path seen before is not added again. *)
Definition addPath (E : Env) (seen : list string) (entry : string) : list string :=
  if Js.truthy entry then
    let n := normalize (path E) entry in
    if existsb (String.eqb n) seen then seen else (seen ++ [n])%list
  else seen.

(** The paths of [l] that are not among [seen]. *)
Definition unseen (seen l : list string) : list string :=
  List.filter (fun n => negb (existsb (String.eqb n) seen)) l.

(** The workspace of [workspaceEnv] with the setting
    [nunjucksu.templateExtension] empty. *)
Definition noExtensionEnv : Env := {|
  path := posix "/";
  text := asciiText;
  win32 := false;
  templateExtension := "";
  additionalSearchPaths := [];
  logLevel := Normal;
  existsSync := fun _ => true;
  nodeAt := fun p => if String.eqb p "/w/tpl" then tplTree else FsDir None;
  workspaceFolderOf := fun _ => Some "/w";
  localeCompare := asciiCompare;
  render := fun _ templateName _ _ => Ok ("rendered " ++ templateName)
|}.

(** ** Reading a configuration *)

(** The root of a configuration document: an empty document counts as
    the empty mapping. *)
Definition rootOf (doc : Value) : Value :=
  match doc with VNull => VMap [] | _ => doc end.

(** The transform specs a configuration file declares, when it can be
    read and parsed. *)
Definition declaredSpecs (file : ConfigFile) : list TransformSpec :=
  match content file with
  | Parsed doc =>
      fst (extractTransformSpecs (prop "transforms" (rootOf doc)) (fsPath file))
  | _ => []
  end.

(** The spec says [recursive: true] or [recursive: false]. *)
Definition isDirectorySpec (spec : TransformSpec) : bool :=
  match spec_recursive spec with Some _ => true | None => false end.

(** What one key of a [transforms] mapping declares: [source: target],
    or [source: { target, source?, recursive? }]. *)
Definition mappingEntrySpec (kv : string * Value) : option TransformSpec :=
  match coercePath (Some (snd kv)) with
  | Some directTarget =>
      if Js.truthy directTarget
      then Some {| spec_source := fst kv; spec_target := directTarget;
                   spec_recursive := None |}
      else None
  | None => spec_of_target_object (fst kv) (snd kv)
  end.


(** A configuration with a [transforms] array of a file transform, a
    directory transform that is not recursive, and an entry without
    target. *)
Definition mixedConfig : ConfigFile := {|
  fsPath := "/w/.vscode/site.njk.yaml";
  content :=
    Parsed (VMap [("transforms",
      VSeq [ VMap [("source", VStr "tpl/a.njk"); ("target", VStr "out/a")];
             VMap [("source", VStr "tpl"); ("target", VStr "gen");
                   ("recursive", VBool false)];
             VMap [("source", VStr "tpl/b.njk")] ])])
|}.

(** ** The index of the source watchers *)

(** One turn of the first loop of [rebuildSourceWatchers]. *)
Definition indexStep (E : Env) (m : JsMap.t (list FileTransformEntry))
    (transform : FileTransformEntry) : JsMap.t (list FileTransformEntry) :=
  let key := normalizeFsPath E (source transform) in
  match JsMap.get key m with
  | Some existing => JsMap.set key (existing ++ [transform])%list m
  | None => JsMap.set key [transform] m
  end.

(** Every list of an index holds a transform, and only transforms of the
    canonical source it is filed under. *)
Definition grouped (E : Env) (m : JsMap.t (list FileTransformEntry)) : Prop :=
  forall k l, In (k, l) m -> l <> [] /\ forall t, In t l -> sourceKey E t = k.

(** The source the watcher of a group is made for: that of its first
    transform. *)
Definition watchedSource (entries : list FileTransformEntry) : option string :=
  match entries with
  | e :: _ => Some (source e)
  | [] => None
  end.

(** ** A workspace with one directory transform *)

(** The recursive directory transform [tpl -> gen] of the workspace
    [/w], and a controller that holds it and nothing else. *)
Definition tplDirectory : DirectoryTransform := {|
  sourceDir := "/w/tpl";
  targetDir := "/w/gen";
  recursive := true;
  workspaceFolder := Some "/w";
  dir_description := "tpl → gen (recursive)"
|}.

Definition watchingTpl : Controller := {|
  transforms := [];
  configFileTransforms := [];
  directoryTransforms := [tplDirectory];
  templateTransforms := [];
  variables := [];
  transformsBySource := [];
  sourceWatchers := [];
  lastTemplateCount := (-1)%Z
|}.

(** ** The full rescan *)

(** The map of derived transforms the rescan builds from the directory
    transforms, and the derived transforms it keeps: those whose source
    no explicit transform names, sorted by source. *)
Definition scannedMap (E : Env) (st : Controller) : JsMap.t FileTransformEntry :=
  fst (for_each (directoryTransforms st) JsMap.empty
         (fun m directoryTransform => scanDirectoryTransform E directoryTransform m)).

Definition discovered (E : Env) (st : Controller) : list FileTransformEntry :=
  sort (fun a b => localeCompare E (source a) (source b))
    (List.filter
       (fun entry =>
          negb (JsMap.has (normalizeFsPath E (source entry))
                  (bySource E (configFileTransforms st))))
       (JsMap.values (scannedMap E st))).

(** The directory transform can be scanned: reading its directories does
    not throw. *)
Definition scannable (E : Env) (directoryTransform : DirectoryTransform) : bool :=
  match collectTemplatesFromDirectory E directoryTransform with
  | Ok _ => true
  | Throw _ => false
  end.

(** The transform [t] is derived from a template that the scan of the
    directory transform [directoryTransform] finds. *)
Definition derivedFrom (E : Env) (directoryTransform : DirectoryTransform)
    (t : FileTransformEntry) : Prop :=
  exists found uri rel,
    collectTemplatesFromDirectory E directoryTransform = Ok found
    /\ In (uri, rel) found
    /\ fst (createDirectoryFileTransform E directoryTransform uri rel) = Some t.

(** A map of derived transforms files each under its canonical source,
    and holds only transforms derived from the directory transforms
    [dts]. *)
Definition keyed (E : Env) (dts : list DirectoryTransform)
    (m : JsMap.t FileTransformEntry) : Prop :=
  NoDup (JsMap.keys m)
  /\ forall k e, In (k, e) m ->
       sourceKey E e = k /\ exists dt, In dt dts /\ derivedFrom E dt e.

Definition with_directoryTransforms (dts : list DirectoryTransform)
    (st : Controller) : Controller :=
  {| transforms := transforms st;
     configFileTransforms := configFileTransforms st;
     directoryTransforms := dts;
     templateTransforms := templateTransforms st;
     variables := variables st;
     transformsBySource := transformsBySource st;
     sourceWatchers := sourceWatchers st;
     lastTemplateCount := lastTemplateCount st |}.

(** The workspace of [workspaceEnv] with a second directory transform
    over [/w/locked], which cannot be read. *)
Definition lockedDirectory : DirectoryTransform := {|
  sourceDir := "/w/locked";
  targetDir := "/w/gen";
  recursive := false;
  workspaceFolder := Some "/w";
  dir_description := "locked → gen"
|}.

(** ** File systems for the runs *)

(** A file system in which the regular file [/w/out] stands where the
    directory of the target [/w/out/a] is needed. *)
Definition blockedFs : FileSystem :=
  {| files := {[ "/w/out" := "x" ]}; dirs := ∅; calls := [] |}.


(** ** The render queue *)

(** The unit of work an event of the trace belongs to. *)
Definition unitOf (event : TraceEvent) : nat :=
  match event with Begin u | Rendered u _ | Settle u => u end.

(** The times of the source events and of the sweeps among the turns. *)
Definition eventTimes (actions : list Action) : list Z :=
  omap (fun a => match a with SourceEvent _ _ now => Some now | _ => None end) actions.

Definition sweepTimes (actions : list Action) : list Z :=
  omap (fun a => match a with Sweep now => Some now | _ => None end) actions.

(** No sweep comes more than the timeout after a source event. *)
Definition calm (actions : list Action) : Prop :=
  forall t now, In t (eventTimes actions) -> In now (sweepTimes actions) ->
                (now - t <= RENDER_TIMEOUT_MS)%Z.

(** The transforms whose render by the unit [u] the trace records, in
    the order of the trace. *)
Definition rendersOf (u : nat) (events : list TraceEvent) : list FileTransformEntry :=
  omap (fun e => match e with
                 | Rendered u' t => if Nat.eqb u' u then Some t else None
                 | _ => None
                 end) events.

(** What a unit has rendered, by its status. *)
Definition progress (unit : RenderUnit) : list FileTransformEntry :=
  match unit_status unit with
  | Waiting => []
  | Running done => take done (unit_transforms unit)
  | Settled => unit_transforms unit
  end.

(** What a sweep at time [now] keeps of a map of the queue. *)
Definition kept {V} (now : Z) (sched : Scheduler) (m : gmap string V) : gmap string V :=
  filter (fun kv => stale now (renderTimestamps sched) (fst kv) = false) m.

(** How a unit advances: it begins once the promise it was chained on
    has settled, renders its next transform, or settles when none is
    left. *)
Inductive advance (sched : Scheduler) (u : nat) (unit : RenderUnit)
    : Status -> TraceEvent -> Prop :=
| advance_begin :
    unit_status unit = Waiting ->
    settled sched (unit_previous unit) = true ->
    advance sched u unit (Running 0) (Begin u)
| advance_render done t :
    unit_status unit = Running done ->
    unit_transforms unit !! done = Some t ->
    advance sched u unit (Running (S done)) (Rendered u t)
| advance_settle :
    unit_status unit = Running (List.length (unit_transforms unit)) ->
    advance sched u unit Settled (Settle u).

(** One turn of the event loop other than a sweep, by what it does to
    the units, the queue and the trace: nothing; a source event chains a
    new unit; a unit advances, and forgets its entry of the queue when it
    settles as the latest unit of its source. *)
Inductive turn (sched sched' : Scheduler) : Prop :=
| turn_idle :
    units sched' = units sched ->
    renderQueue sched' = renderQueue sched ->
    renderTimestamps sched' = renderTimestamps sched ->
    trace sched' = trace sched ->
    turn sched sched'
| turn_event key transforms reason now :
    transforms <> [] ->
    units sched'
    = (units sched ++ [ {| unit_key := key; unit_transforms := transforms;
                           unit_reason := reason;
                           unit_previous := renderQueue sched !! key;
                           unit_status := Waiting |} ])%list ->
    renderQueue sched' = <[key := List.length (units sched)]> (renderQueue sched) ->
    renderTimestamps sched' = <[key := now]> (renderTimestamps sched) ->
    trace sched' = trace sched ->
    turn sched sched'
| turn_advance u unit status event :
    units sched !! u = Some unit ->
    advance sched u unit status event ->
    units sched' = <[u := with_status status unit]> (units sched) ->
    trace sched' = (trace sched ++ [event])%list ->
    ((status = Settled /\ renderQueue sched !! unit_key unit = Some u)
     /\ renderQueue sched' = delete (unit_key unit) (renderQueue sched)
     /\ renderTimestamps sched' = delete (unit_key unit) (renderTimestamps sched)
     \/ ~ (status = Settled /\ renderQueue sched !! unit_key unit = Some u)
        /\ renderQueue sched' = renderQueue sched
        /\ renderTimestamps sched' = renderTimestamps sched) ->
    turn sched sched'.

(** A sweep at time [now]. *)
Definition swept (now : Z) (sched sched' : Scheduler) : Prop :=
  units sched' = units sched
  /\ renderQueue sched' = kept now sched (renderQueue sched)
  /\ renderTimestamps sched' = kept now sched (renderTimestamps sched)
  /\ trace sched' = trace sched.

(** The queue and the timestamps have the same keys. *)
Definition sameKeys (sched : Scheduler) : Prop :=
  forall key, is_Some (renderQueue sched !! key)
              <-> is_Some (renderTimestamps sched !! key).

(** The times of the source events among the turns, the first turn
    apart. *)
Definition eventTime (action : Action) : list Z :=
  match action with SourceEvent _ _ now => [now] | _ => [] end.

(** What the queue maintains as long as no sweep evicts an entry: the
    queue of a source points to the latest unit of the source; a source
    without entry has no unit that has not settled; a unit is chained on
    the unit of its source just before it; and a unit that has begun has
    only settled units of its source before it. *)
Record queue_inv (sched : Scheduler) : Prop := {
  inv_latest : forall key p,
    renderQueue sched !! key = Some p ->
    exists u, units sched !! p = Some u /\ unit_key u = key
              /\ forall q v, p < q -> units sched !! q = Some v -> unit_key v <> key;
  inv_idle : forall key,
    renderQueue sched !! key = None ->
    forall q v, units sched !! q = Some v -> unit_key v = key ->
                unit_status v = Settled;
  inv_previous : forall q v,
    units sched !! q = Some v ->
    match unit_previous v with
    | Some p =>
        p < q
        /\ (exists u, units sched !! p = Some u /\ unit_key u = unit_key v)
        /\ forall r w, p < r -> r < q -> units sched !! r = Some w ->
                       unit_key w <> unit_key v
    | None =>
        forall r w, r < q -> units sched !! r = Some w ->
                    unit_key w = unit_key v -> unit_status w = Settled
    end;
  inv_serial : forall p q u v,
    p < q -> units sched !! p = Some u -> units sched !! q = Some v ->
    unit_key u = unit_key v -> unit_status v <> Waiting -> unit_status u = Settled
}.

(** What the trace records of the units. *)
Record trace_inv (sched : Scheduler) : Prop := {
  inv_traced : forall e,
    In e (trace sched) ->
    exists v, units sched !! unitOf e = Some v /\ unit_status v <> Waiting;
  inv_settle_traced : forall p u,
    units sched !! p = Some u -> unit_status u = Settled -> In (Settle p) (trace sched);
  inv_traced_settle : forall p,
    In (Settle p) (trace sched) ->
    exists u, units sched !! p = Some u /\ unit_status u = Settled;
  inv_order : forall l1 l2 q,
    trace sched = (l1 ++ Begin q :: l2)%list ->
    forall p u v, p < q -> units sched !! p = Some u -> units sched !! q = Some v ->
                  unit_key u = unit_key v -> In (Settle p) l1;
  inv_quiet : forall l1 l2 p,
    trace sched = (l1 ++ Settle p :: l2)%list ->
    forall e, In e l2 -> unitOf e <> p
}.

(** The renders the trace records of a unit are what its status says. *)
Record progress_inv (sched : Scheduler) : Prop := {
  inv_known : forall e, In e (trace sched) -> unitOf e < List.length (units sched);
  inv_progress : forall u unit,
    units sched !! u = Some unit -> rendersOf u (trace sched) = progress unit;
  inv_work : forall u unit,
    units sched !! u = Some unit -> unit_transforms unit <> []
}.

(** The timestamps of the queue are among the times [times]. *)
Definition timesWithin (times : list Z) (sched : Scheduler) : Prop :=
  forall key t, renderTimestamps sched !! key = Some t -> In t times.

(** The index of a workspace with the one transform [/w/tpl/a.njk ->
    /w/out/a], and a day of it: two changes of the source, the first
    served to the end before the second begins. *)
Definition oneSourceIndex : list (string * list FileTransformEntry) :=
  [("/w/tpl/a.njk", [transform "/w/tpl/a.njk" "/w/out/a"])].

Definition servedInTurn : list Action :=
  [ SourceEvent "/w/tpl/a.njk" "change" 0;
    SourceEvent "/w/tpl/a.njk" "change" 10;
    Start 0; Render 0; Sweep 20000; Finish 0; Start 1 ].

Definition afterServedInTurn : Scheduler :=
  match run posixEnv servedInTurn (scheduler_init oneSourceIndex) with
  | Some sched => sched
  | None => scheduler_init []
  end.

(** A day on which the watcher falls behind: the source changes, its
    unit begins and is still rendering when, forty seconds later, the
    sweep comes. *)
Definition fallenBehind : Scheduler :=
  match run posixEnv [SourceEvent "/w/tpl/a.njk" "change" 0; Start 0]
          (scheduler_init oneSourceIndex) with
  | Some sched => sched
  | None => scheduler_init []
  end.

(** The two units of [servedInTurn] at the end of the day: the first has
    settled, the second has begun. *)
Definition firstUnit : RenderUnit := {|
  unit_key := "/w/tpl/a.njk";
  unit_transforms := [transform "/w/tpl/a.njk" "/w/out/a"];
  unit_reason := "change";
  unit_previous := None;
  unit_status := Settled
|}.

Definition secondUnit : RenderUnit := {|
  unit_key := "/w/tpl/a.njk";
  unit_transforms := [transform "/w/tpl/a.njk" "/w/out/a"];
  unit_reason := "change";
  unit_previous := Some 0;
  unit_status := Running 0
|}.

(** ** The merge of the variables *)

(** The [vars] a configuration file declares, in the order of the
    document, when the file loads: nothing when it has no [vars] or they
    are not a mapping. *)
Definition declaredVars (file : ConfigFile) : option (list (string * Value)) :=
  match content file with
  | Parsed doc =>
      match rootOf doc with
      | VMap fields =>
          Some (match JsMap.get "vars" fields with
                | Some (VMap vars) => vars
                | _ => []
                end)
      | _ => None
      end
  | _ => None
  end.

(** The value the last field named [k] gives. *)
Fixpoint valueOf (k : string) (fields : list (string * Value)) : option Value :=
  match fields with
  | [] => None
  | (k', v) :: rest =>
      match valueOf k rest with
      | Some w => Some w
      | None => if String.eqb k k' then Some v else None
      end
  end.

(** Shallow overwrite over the declared variables of the files, in
    their order: a key holds the value that the last file with a field of
    that name gives, whole. *)
Definition overwritten (layers : list (list (string * Value))) (k : string)
    : option Value :=
  fold_left
    (fun acc fields => match valueOf k fields with Some v => Some v | None => acc end)
    layers None.

(** A comparator is consistent: turning the arguments round turns the
    sign round, and "does not come after" is transitive. *)
Definition consistent {A} (cmp : A -> A -> comparison) : Prop :=
  (forall a b, cmp b a = CompOpp (cmp a b))
  /\ (forall a b c, cmp a b <> Gt -> cmp b c <> Gt -> cmp a c <> Gt).

(** The comparison of two configuration files: that of their paths. *)
Definition byPath (E : Env) (a b : ConfigFile) : comparison :=
  localeCompare E (fsPath a) (fsPath b).

(** The list is in order: no item comes after an item behind it. *)
Fixpoint inOrder {A} (cmp : A -> A -> comparison) (l : list A) : Prop :=
  match l with
  | [] => True
  | x :: l' => Forall (fun y => cmp x y <> Gt) l' /\ inOrder cmp l'
  end.

(** The items the comparator does not tell apart from [x]. *)
Definition ties {A} (cmp : A -> A -> comparison) (x y : A) : bool :=
  match cmp x y with Eq => true | _ => false end.

(** The order [l'] keeps the items that tie in the order they have in
    [l]. *)
Definition keepsTies {A} (cmp : A -> A -> comparison) (l l' : list A) : Prop :=
  forall x, List.filter (ties cmp x) l' = List.filter (ties cmp x) l.

(** The three files of the specification, as [findFiles] may return
    them, and a fourth whose path differs from that of the third in
    letter case only. *)
Definition varsFile (fsPath : string) (vars : list (string * Value)) : ConfigFile :=
  {| fsPath := fsPath; content := Parsed (VMap [("vars", VMap vars)]) |}.

Definition threeFiles : list ConfigFile :=
  [ varsFile "/w/.vscode/c.njk.yaml" [("shared", VStr "c"); ("only3", VNum (integer 1))];
    varsFile "/w/.vscode/a.njk.yaml" [("shared", VStr "a")];
    varsFile "/w/.vscode/b.njk.yaml" [("shared", VStr "b")];
    varsFile "/w/.vscode/C.njk.yaml" [("shared", VStr "C")] ].

(** ** Letter case *)


(** ** The directories above a target *)

(** The directory of [uri] ([n] is 0), its parent, and so on. *)
Definition above (P : PathModule) (uri : string) (n : nat) : string :=
  Nat.iter n (dirname P) (dirname P uri).
(* ===================================================================== *)
(** * Properties *)
(* ===================================================================== *)

(** ** Maps and the diagnostics monad *)

Lemma get_set {V} (k k' : string) (v : V) (m : JsMap.t V) :
  JsMap.get k' (JsMap.set k v m) = if String.eqb k' k then Some v else JsMap.get k' m.
Proof.
  induction m as [|[k0 v0] m IH]; simpl.
  - reflexivity.
  - destruct (String.eqb k k0) eqn:E0; simpl.
    + apply String.eqb_eq in E0; subst k0.
      destruct (String.eqb k' k); reflexivity.
    + destruct (String.eqb k' k0) eqn:E1.
      * apply String.eqb_eq in E1; subst k0.
        rewrite String.eqb_sym, E0. reflexivity.
      * exact IH.
Qed.

Lemma get_app {V} (k : string) (m1 m2 : JsMap.t V) :
  JsMap.get k (m1 ++ m2)%list
  = match JsMap.get k m1 with Some v => Some v | None => JsMap.get k m2 end.
Proof.
  induction m1 as [|[k0 v0] m1 IH]; simpl; [reflexivity|].
  destruct (String.eqb k k0); [reflexivity|exact IH].
Qed.

(** After [Object.assign(target, source)] a key holds what the last
    field of that name in [source] gives, else what [target] held. *)
Lemma get_assign (k : string) (source : list (string * Value)) (target : Vars) :
  JsMap.get k (assign target source)
  = match JsMap.get k (rev source) with
    | Some v => Some v
    | None => JsMap.get k target
    end.
Proof.
  unfold assign. revert target.
  induction source as [|[k0 v0] source IH]; intros target; simpl.
  - reflexivity.
  - rewrite IH, get_app, get_set. simpl.
    destruct (JsMap.get k (rev source)); [reflexivity|].
    destruct (String.eqb k k0); reflexivity.
Qed.

Lemma keys_set {V} (k : string) (v : V) (m : JsMap.t V) :
  JsMap.keys (JsMap.set k v m)
  = if JsMap.has k m then JsMap.keys m else (JsMap.keys m ++ [k])%list.
Proof.
  unfold JsMap.has, JsMap.keys.
  induction m as [|[k0 v0] m IH]; simpl; [reflexivity|].
  destruct (String.eqb k k0) eqn:E; simpl.
  - apply String.eqb_eq in E. subst. reflexivity.
  - rewrite IH. destruct (JsMap.get k m); reflexivity.
Qed.

Lemma has_In_keys {V} (k : string) (m : JsMap.t V) :
  JsMap.has k m = true <-> In k (JsMap.keys m).
Proof.
  unfold JsMap.has, JsMap.keys.
  induction m as [|[k0 v0] m IH]; simpl.
  - split; [discriminate|tauto].
  - destruct (String.eqb k k0) eqn:E.
    + apply String.eqb_eq in E. subst. tauto.
    + apply String.eqb_neq in E. rewrite IH. split; [tauto|].
      intros [H|H]; [congruence|exact H].
Qed.

Lemma bind_fst {A B} (m : W A) (k : A -> W B) :
  fst (bind m k) = fst (k (fst m)).
Proof. destruct m as [a d]. simpl. destruct (k a). reflexivity. Qed.

Lemma bind_snd {A B} (m : W A) (k : A -> W B) :
  snd (bind m k) = (snd m ++ snd (k (fst m)))%list.
Proof. destruct m as [a d]. simpl. destruct (k a). reflexivity. Qed.

Lemma bind_ret_l {A B} (a : A) (k : A -> W B) : bind (ret a) k = k a.
Proof. unfold bind, ret. destruct (k a). reflexivity. Qed.

Lemma bind_ret_r {A} (m : W A) : bind m ret = m.
Proof. destruct m as [a d]. unfold bind, ret. rewrite app_nil_r. reflexivity. Qed.

Lemma bind_assoc {A B C} (m : W A) (k : A -> W B) (h : B -> W C) :
  bind (bind m k) h = bind m (fun a => bind (k a) h).
Proof.
  destruct m as [a d]. unfold bind.
  destruct (k a) as [b d1]. destruct (h b) as [c d2].
  rewrite app_assoc. reflexivity.
Qed.

Lemma for_each_acc {A S} (body : S -> A -> W S) (items : list A) (acc : W S) :
  fold_left (fun acc item => bind acc (fun s => body s item)) items acc
  = bind acc (fun s => for_each items s body).
Proof.
  revert acc. induction items as [|x items IH]; intros acc; simpl.
  - symmetry. apply bind_ret_r.
  - rewrite IH, bind_assoc. destruct acc as [s d]. unfold bind at 1 3.
    unfold for_each at 2. cbn [fold_left]. rewrite IH, bind_ret_l. reflexivity.
Qed.

Lemma for_each_cons {A S} (body : S -> A -> W S) (x : A) (items : list A) (init : S) :
  for_each (x :: items) init body
  = bind (body init x) (fun s => for_each items s body).
Proof.
  unfold for_each at 1. cbn [fold_left].
  rewrite for_each_acc, bind_ret_l. reflexivity.
Qed.

Lemma for_each_fst {A S} (body : S -> A -> W S) (items : list A) (init : S) :
  fst (for_each items init body)
  = fold_left (fun s item => fst (body s item)) items init.
Proof.
  revert init. induction items as [|x items IH]; intros init.
  - reflexivity.
  - rewrite for_each_cons, bind_fst, IH. reflexivity.
Qed.

(** ** The depth-first search *)

Section DfsProperties.

Context (graph : JsMap.t (list string)).

Lemma get_In {V} (k : string) (v : V) (m : JsMap.t V) :
  JsMap.get k m = Some v -> In (k, v) m.
Proof.
  induction m as [|[k0 v0] m IH]; simpl; [discriminate|].
  destruct (String.eqb k k0) eqn:E.
  - apply String.eqb_eq in E. intros [= ->]. subst. now left.
  - intros H. right. now apply IH.
Qed.

Lemma edge_source_key x y : edge graph x y -> In x (JsMap.keys graph).
Proof.
  unfold edge, neighborsOf. intros H.
  apply has_In_keys. unfold JsMap.has.
  destruct (JsMap.get x graph); [reflexivity|destruct H].
Qed.

Lemma edge_target_node x y : edge graph x y -> y ∈ graph_nodes graph.
Proof.
  unfold edge, neighborsOf, graph_nodes. intros H.
  destruct (JsMap.get x graph) as [ns|] eqn:G; [|destruct H].
  apply get_In in G.
  apply elem_of_list_to_set, list_elem_of_In, in_or_app. right.
  apply in_concat. exists ns. split; [|exact H].
  unfold JsMap.values. apply in_map_iff. exists (x, ns). auto.
Qed.

Lemma key_node x : In x (JsMap.keys graph) -> x ∈ graph_nodes graph.
Proof.
  intros H. unfold graph_nodes.
  apply elem_of_list_to_set, list_elem_of_In, in_or_app. now left.
Qed.

Lemma unvisited_shrinks (U V V' : gset string) :
  V ⊆ V' -> size (U ∖ V') <= size (U ∖ V).
Proof. intros H. apply subseteq_size. set_solver. Qed.

Lemma unvisited_enter (U V : gset string) (x : string) :
  x ∈ U -> x ∉ V -> size (U ∖ ({[x]} ∪ V)) < size (U ∖ V).
Proof.
  intros HU HV. apply subset_size. split; [set_solver|].
  intros H. assert (x ∈ U ∖ ({[x]} ∪ V)) by (apply H; set_solver). set_solver.
Qed.

Lemma eachNeighbor_terminates fuel recurse node :
  (forall n st, n ∈ graph_nodes graph ->
     size (graph_nodes graph ∖ visited st) < fuel ->
     exists b st', recurse n st = Some (b, st') /\ visited st ⊆ visited st') ->
  forall neighbors st,
    (forall n, In n neighbors -> n ∈ graph_nodes graph) ->
    size (graph_nodes graph ∖ visited st) < fuel ->
    exists b st', eachNeighbor recurse node neighbors st = Some (b, st')
                  /\ visited st ⊆ visited st'.
Proof.
  intros Hrec neighbors.
  induction neighbors as [|n rest IH]; intros st Hin Hsize; simpl.
  - eexists _, _. split; [reflexivity|]. simpl. set_solver.
  - destruct (Hrec n st) as (b & st1 & -> & Hsub); [apply Hin; now left|exact Hsize|].
    destruct b.
    + eexists _, _. split; [reflexivity|]. simpl. exact Hsub.
    + destruct (IH st1) as (b' & st2 & -> & Hsub').
      * intros m Hm. apply Hin. now right.
      * pose proof (unvisited_shrinks (graph_nodes graph) _ _ Hsub). lia.
      * eexists _, _. split; [reflexivity|]. set_solver.
Qed.

(** With more fuel than unvisited nodes, [hasCycle] returns. *)
Lemma hasCycle_terminates fuel :
  forall node st,
    node ∈ graph_nodes graph ->
    size (graph_nodes graph ∖ visited st) < fuel ->
    exists b st', hasCycle graph fuel node st = Some (b, st')
                  /\ visited st ⊆ visited st'.
Proof.
  induction fuel as [|fuel IH]; intros node st Hnode Hsize; [lia|].
  simpl.
  destruct (decide (node ∈ recursionStack st)).
  { eexists _, _. split; [reflexivity|]. simpl. set_solver. }
  destruct (decide (node ∈ visited st)).
  { eexists _, _. split; [reflexivity|]. set_solver. }
  destruct (eachNeighbor_terminates fuel (hasCycle graph fuel) node IH
              (neighborsOf graph node) (enter node st))
    as (b & st' & -> & Hsub).
  - intros m Hm. eapply edge_target_node. exact Hm.
  - simpl. pose proof (unvisited_enter (graph_nodes graph) (visited st) node Hnode n0).
    lia.
  - eexists _, _. split; [reflexivity|]. simpl in Hsub. set_solver.
Qed.

Lemma checkAll_terminates fuel :
  forall nodes st,
    (forall n, In n nodes -> n ∈ graph_nodes graph) ->
    size (graph_nodes graph ∖ visited st) < fuel ->
    exists st', checkAll graph fuel nodes st = Some st'.
Proof.
  induction nodes as [|n rest IH]; intros st Hin Hsize; simpl.
  - eauto.
  - destruct (hasCycle_terminates fuel n st) as (b & st1 & -> & Hsub);
      [apply Hin; now left|exact Hsize|].
    apply IH.
    + intros m Hm. apply Hin. now right.
    + pose proof (unvisited_shrinks (graph_nodes graph) _ _ Hsub). lia.
Qed.

Lemma size_of_list_le (l : list string) :
  size (list_to_set l : gset string) <= List.length l.
Proof.
  induction l as [|x l IH].
  - rewrite list_to_set_nil, size_empty. simpl. lia.
  - rewrite list_to_set_cons, size_union_alt, size_singleton. cbn [List.length].
    pose proof (subseteq_size (list_to_set l ∖ {[x]}) (list_to_set l : gset string)
                  ltac:(set_solver)).
    lia.
Qed.

Lemma dfs_fuel_enough : size (graph_nodes graph ∖ visited dfs_init) < dfs_fuel graph.
Proof.
  unfold dfs_fuel, graph_nodes. simpl.
  rewrite difference_empty_L.
  pose proof (size_of_list_le
                (JsMap.keys graph ++ List.concat (JsMap.values graph))) as H.
  rewrite length_app in H. lia.
Qed.

End DfsProperties.

Section DfsCorrectness.

Context (graph : JsMap.t (list string)).

Lemma leads_step x y :
  edge graph x y -> leads_to_cycle graph y -> leads_to_cycle graph x.
Proof.
  intros Hxy (c & Hyc & Hc). exists c. split; [|exact Hc].
  eapply rtc_l; eauto.
Qed.

Lemma leads_of_tc a n :
  tc (edge graph) a n -> leads_to_cycle graph n -> leads_to_cycle graph a.
Proof.
  intros Htc (c & Hnc & Hc). exists c. split; [|exact Hc].
  eapply rtc_trans; [apply tc_rtc; exact Htc|exact Hnc].
Qed.

(** A node from which a cycle can be reached starts an infinite path. *)
Lemma finite_not_leads x : finite_from graph x -> ~ leads_to_cycle graph x.
Proof.
  unfold finite_from. induction 1 as [x _ IH].
  intros (c & Hxc & Hc).
  destruct Hxc as [|x y c Hxy Hyc].
  - assert (exists y, edge graph x y /\ rtc (edge graph) y x) as (y & Hxy & Hyx).
    { unfold on_cycle in Hc. inversion Hc as [? ? Hxx|? y ? Hxy Hyx]; subst.
      - exists x. split; [exact Hxx|apply rtc_refl].
      - exists y. split; [exact Hxy|apply tc_rtc; exact Hyx]. }
    apply (IH y Hxy). exists x. split; [exact Hyx|exact Hc].
  - apply (IH y Hxy). exists c. split; [exact Hyc|exact Hc].
Qed.

Lemma leads_has_edge x : leads_to_cycle graph x -> exists y, edge graph x y.
Proof.
  intros (c & Hxc & Hc). destruct Hxc as [|x y c Hxy _]; [|eauto].
  unfold on_cycle in Hc. inversion Hc; eauto.
Qed.

Lemma dfs_inv_init : dfs_inv graph dfs_init.
Proof. unfold dfs_inv, dfs_init. simpl. set_solver. Qed.

Lemma dfs_inv_mark node st :
  dfs_inv graph st -> node ∈ recursionStack st -> dfs_inv graph (mark node st).
Proof.
  intros (I1 & I3 & I2) Hin. unfold dfs_inv. simpl.
  split; [exact I1|]. split; [set_solver|exact I2].
Qed.

Lemma dfs_inv_enter node st : dfs_inv graph st -> dfs_inv graph (enter node st).
Proof.
  intros (I1 & I3 & I2). unfold dfs_inv. simpl.
  split; [set_solver|]. split; [set_solver|].
  intros x Hx Hnx. apply I2; set_solver.
Qed.

(** The loop over the neighbours of [x], entered with [x] on the stack. *)
Lemma eachNeighbor_spec recurse x :
  (forall n st b st',
     dfs_inv graph st ->
     (forall a, a ∈ recursionStack st ->
                leads_to_cycle graph a \/ tc (edge graph) a n) ->
     recurse n st = Some (b, st') -> hasCycle_post graph n st b st') ->
  forall neighbors st b st',
    dfs_inv graph st ->
    x ∈ recursionStack st ->
    x ∉ cycleNodes st ->
    (forall a, a ∈ recursionStack st ->
               a = x \/ leads_to_cycle graph a \/ tc (edge graph) a x) ->
    (forall y, edge graph x y ->
               In y neighbors \/ (y ∈ visited st /\ y ∉ recursionStack st)) ->
    (forall n, In n neighbors -> edge graph x n) ->
    eachNeighbor recurse x neighbors st = Some (b, st') ->
    visited st ⊆ visited st'
    /\ dfs_inv graph st'
    /\ if b then
         recursionStack st ⊆ recursionStack st'
         /\ cycleNodes st ⊆ cycleNodes st'
         /\ x ∈ cycleNodes st'
         /\ leads_to_cycle graph x
         /\ (forall a, a ∈ recursionStack st' -> a ∉ recursionStack st ->
                       a ∈ cycleNodes st' /\ leads_to_cycle graph a)
         /\ (forall a, a ∈ cycleNodes st' -> a ∉ cycleNodes st ->
                       leads_to_cycle graph a)
       else
         recursionStack st' = recursionStack st ∖ {[x]}
         /\ cycleNodes st' = cycleNodes st.
Proof.
  intros Hrec neighbors.
  induction neighbors as [|n rest IH];
    intros st b st' Hinv Hx Hxc Hstack Hcover Hedges Hrun; simpl in Hrun.
  - injection Hrun as <- <-. simpl.
    destruct Hinv as (I1 & I3 & I2).
    split; [set_solver +|]. split; [|split; reflexivity].
    unfold dfs_inv. simpl. split; [set_solver + I1|].
    split; [set_solver + I3 Hxc|].
    intros y Hy Hny.
    destruct (decide (y = x)) as [->|Hne]; [|apply I2; set_solver + Hy Hny Hne].
    constructor. intros z Hz.
    destruct (Hcover z Hz) as [[]|[Hzv Hzs]]. apply I2; assumption.
  - destruct (recurse n st) as [[[] st1]|] eqn:Hcall; [| |discriminate].
    + injection Hrun as <- <-.
      apply Hrec in Hcall; [|exact Hinv|].
      2:{ intros a Ha. destruct (Hstack a Ha) as [->|[Hl|Htc]].
          - right. apply tc_once, Hedges. now left.
          - now left.
          - right. eapply tc_r; [exact Htc|]. apply Hedges. now left. }
      destruct Hcall as (Hv & Hinv1 & Hnv & Hs & Hc & Hnc & Hnl & Hnew & Hnewc).
      simpl. split; [exact Hv|].
      split; [apply dfs_inv_mark; [exact Hinv1|set_solver + Hx Hs]|].
      split; [exact Hs|]. split; [set_solver + Hc|]. split; [set_solver +|].
      assert (leads_to_cycle graph x) as Hxl.
      { eapply leads_step; [|exact Hnl]. apply Hedges. now left. }
      split; [exact Hxl|]. split.
      * intros a Ha Hna. destruct (Hnew a Ha Hna) as [Hac Hal].
        split; [set_solver + Hac|assumption].
      * intros a Ha Hna.
        destruct (decide (a = x)) as [->|Hne]; [exact Hxl|].
        apply Hnewc; set_solver + Ha Hna Hne.
    + apply Hrec in Hcall; [|exact Hinv|].
      2:{ intros a Ha. destruct (Hstack a Ha) as [->|[Hl|Htc]].
          - right. apply tc_once, Hedges. now left.
          - now left.
          - right. eapply tc_r; [exact Htc|]. apply Hedges. now left. }
      destruct Hcall as (Hv & Hinv1 & Hnv & Hs & Hc & Hns).
      specialize (IH st1 b st' Hinv1).
      rewrite Hs, Hc in IH.
      destruct IH as (Hv' & Hinv' & Hpost); try assumption.
      * intros y Hy. destruct (Hcover y Hy) as [[->|Hin]|[Hyv Hys]].
        -- right. rewrite <- Hs. split; assumption.
        -- now left.
        -- right. split; [set_solver + Hyv Hv|exact Hys].
      * intros m Hm. apply Hedges. now right.
      * split; [set_solver + Hv Hv'|]. split; [exact Hinv'|exact Hpost].
Qed.

Lemma hasCycle_spec fuel :
  forall node st b st',
    dfs_inv graph st ->
    (forall a, a ∈ recursionStack st ->
               leads_to_cycle graph a \/ tc (edge graph) a node) ->
    hasCycle graph fuel node st = Some (b, st') ->
    hasCycle_post graph node st b st'.
Proof.
  induction fuel as [|fuel IH]; intros node st b st' Hinv Hstack Hrun;
    [discriminate|].
  simpl in Hrun.
  destruct (decide (node ∈ recursionStack st)) as [Hin|Hnin].
  { injection Hrun as <- <-.
    assert (leads_to_cycle graph node) as Hl.
    { destruct (Hstack node Hin) as [Hl|Htc]; [exact Hl|].
      exists node. split; [apply rtc_refl|exact Htc]. }
    pose proof Hinv as (I1 & I3 & I2).
    unfold hasCycle_post. simpl.
    split; [set_solver +|]. split; [apply dfs_inv_mark; assumption|].
    split; [set_solver + I1 Hin|]. split; [set_solver +|].
    split; [set_solver +|]. split; [set_solver +|]. split; [exact Hl|]. split.
    - intros a Ha Hna. contradiction.
    - intros a Ha Hna. assert (a = node) as -> by set_solver + Ha Hna. exact Hl. }
  destruct (decide (node ∈ visited st)) as [Hvis|Hnvis].
  { injection Hrun as <- <-. unfold hasCycle_post.
    split; [set_solver +|]. split; [exact Hinv|]. split; [exact Hvis|].
    split; [reflexivity|]. split; [reflexivity|exact Hnin]. }
  pose proof Hinv as (I1 & I3 & I2).
  apply (eachNeighbor_spec (hasCycle graph fuel) node IH) in Hrun.
  - destruct Hrun as (Hv & Hinv' & Hpost). simpl in Hv, Hpost.
    unfold hasCycle_post.
    split; [set_solver + Hv|]. split; [exact Hinv'|]. split; [set_solver + Hv|].
    destruct b.
    + destruct Hpost as (Hs & Hc & Hnc & Hl & Hnew & Hnewc).
      split; [set_solver + Hs|]. split; [exact Hc|]. split; [exact Hnc|].
      split; [exact Hl|]. split; [|exact Hnewc].
      intros a Ha Hna.
      destruct (decide (a = node)) as [->|Hne]; [split; assumption|].
      apply Hnew; set_solver + Ha Hna Hne.
    + destruct Hpost as (Hs & Hc).
      split; [rewrite Hs; set_solver + Hnin|]. split; [exact Hc|].
      rewrite Hs. set_solver +.
  - apply dfs_inv_enter. exact Hinv.
  - simpl. set_solver +.
  - simpl. set_solver + I3 Hnin.
  - simpl. intros a Ha.
    destruct (decide (a = node)) as [->|Hne]; [now left|].
    right. apply Hstack. set_solver + Ha Hne.
  - intros y Hy. now left.
  - intros n Hn. exact Hn.
Qed.

Lemma checkAll_spec fuel :
  forall nodes st st',
    top_inv graph st ->
    checkAll graph fuel nodes st = Some st' ->
    top_inv graph st'
    /\ visited st ⊆ visited st'
    /\ forall n, In n nodes -> n ∈ visited st'.
Proof.
  induction nodes as [|n rest IH]; intros st st' Htop Hrun; simpl in Hrun.
  - injection Hrun as <-. split; [exact Htop|]. split; [set_solver +|]. intros ? [].
  - destruct (hasCycle graph fuel n st) as [[b st1]|] eqn:Hcall; [|discriminate].
    destruct Htop as (Hinv & Hmarked & Hleads).
    apply hasCycle_spec in Hcall; [|exact Hinv|intros a Ha; left; auto].
    destruct Hcall as (Hv & Hinv1 & Hnv & Hpost).
    assert (top_inv graph st1) as Htop1.
    { split; [exact Hinv1|]. destruct b.
      - destruct Hpost as (Hs & Hc & Hnc & Hl & Hnew & Hnewc). split.
        + intros a Ha. destruct (decide (a ∈ recursionStack st)) as [Hold|Hfresh].
          * apply Hc, Hmarked, Hold.
          * apply Hnew; assumption.
        + intros a Ha. destruct (decide (a ∈ cycleNodes st)) as [Hold|Hfresh].
          * apply Hleads, Hold.
          * apply Hnewc; assumption.
      - destruct Hpost as (Hs & Hc & _). rewrite Hs, Hc. split; assumption. }
    destruct (IH st1 st' Htop1 Hrun) as (Htop' & Hv' & Hall).
    split; [exact Htop'|]. split; [set_solver + Hv Hv'|].
    intros m [<-|Hm]; [set_solver + Hnv Hv'|apply Hall, Hm].
Qed.

(** The marked nodes are exactly those from which a cycle can be
    reached: the nodes of the cycles and the nodes on a path into one. *)
Lemma cycleNodes_exact fuel st :
  checkAll graph fuel (JsMap.keys graph) dfs_init = Some st ->
  forall x, x ∈ cycleNodes st <-> leads_to_cycle graph x.
Proof.
  intros Hrun x.
  apply checkAll_spec in Hrun.
  2:{ split; [apply dfs_inv_init|]. simpl. split; intros a Ha; set_solver + Ha. }
  destruct Hrun as ((Hinv & Hmarked & Hleads) & _ & Hall).
  split; [apply Hleads|].
  intros Hl. destruct (leads_has_edge x Hl) as (y & Hxy).
  apply edge_source_key, Hall in Hxy.
  destruct (decide (x ∈ recursionStack st)) as [Hin|Hnin]; [apply Hmarked, Hin|].
  destruct Hinv as (_ & _ & I2).
  exfalso. eapply finite_not_leads; [apply I2; eassumption|exact Hl].
Qed.

End DfsCorrectness.

(** ** The cycle detector *)

Section CycleDetector.

Context (E : Env).

Definition graph_step (graph : JsMap.t (list string)) (transform : FileTransformEntry)
    : JsMap.t (list string) :=
  let sourceKey := normalizeFsPath E (source transform) in
  let targetKey := normalizeFsPath E (target transform) in
  let graph :=
    if JsMap.has sourceKey graph then graph else JsMap.set sourceKey [] graph in
  match JsMap.get sourceKey graph with
  | Some targets => JsMap.set sourceKey (targets ++ [targetKey])%list graph
  | None => graph
  end.

Lemma neighborsOf_step graph t x :
  neighborsOf (graph_step graph t) x
  = if String.eqb x (sourceKey E t)
    then (neighborsOf graph (sourceKey E t) ++ [targetKey E t])%list
    else neighborsOf graph x.
Proof.
  unfold graph_step, neighborsOf, JsMap.has, sourceKey, targetKey.
  set (sk := normalizeFsPath E (source t)).
  set (tk := normalizeFsPath E (target t)).
  destruct (JsMap.get sk graph) as [ns|] eqn:G.
  - rewrite G, get_set. destruct (String.eqb x sk); reflexivity.
  - rewrite get_set, String.eqb_refl, !get_set.
    destruct (String.eqb x sk); reflexivity.
Qed.

Lemma buildGraph_edges_from ts : forall graph x y,
  edge (fold_left graph_step ts graph) x y
  <-> edge graph x y
      \/ exists t, In t ts /\ sourceKey E t = x /\ targetKey E t = y.
Proof.
  unfold edge.
  induction ts as [|t ts IH]; intros graph x y; simpl.
  - split; [auto|]. intros [H|(t & [] & _)]. exact H.
  - rewrite IH, neighborsOf_step.
    destruct (String.eqb x (sourceKey E t)) eqn:Ex.
    + apply String.eqb_eq in Ex. subst x. rewrite in_app_iff. simpl.
      split.
      * intros [[H|[H|[]]]|(t' & Ht' & Hs & Hy)]; eauto 8.
      * intros [H|(t' & [<-|Ht'] & Hs & Hy)]; eauto 8.
    + apply String.eqb_neq in Ex. split.
      * intros [H|(t' & Ht' & Hs & Hy)]; eauto 8.
      * intros [H|(t' & [<-|Ht'] & Hs & Hy)]; eauto 8. congruence.
Qed.

(** The edges of the graph are the (source, target) pairs of the
    transforms. *)
Lemma buildGraph_edges ts x y :
  edge (buildGraph E ts) x y
  <-> exists t, In t ts /\ sourceKey E t = x /\ targetKey E t = y.
Proof.
  unfold buildGraph. change (fold_left _ ts JsMap.empty)
    with (fold_left graph_step ts JsMap.empty).
  rewrite buildGraph_edges_from. unfold edge, neighborsOf. simpl.
  split; [intros [[]|H]; exact H|auto].
Qed.

(** The search for cycles always returns. *)
Lemma cycleNodesOf_total ts : exists cycle, cycleNodesOf E ts = Some cycle.
Proof.
  unfold cycleNodesOf.
  destruct (checkAll_terminates (buildGraph E ts) (dfs_fuel (buildGraph E ts))
              (JsMap.keys (buildGraph E ts)) dfs_init) as (st & ->).
  - intros n. apply key_node.
  - apply dfs_fuel_enough.
  - eauto.
Qed.

Lemma cycleNodesOf_exact ts cycle :
  cycleNodesOf E ts = Some cycle ->
  forall x, x ∈ cycle <-> leads_to_cycle (buildGraph E ts) x.
Proof.
  unfold cycleNodesOf.
  destruct (checkAll _ _ _ _) as [st|] eqn:Hrun; [|discriminate].
  intros [= <-]. eapply cycleNodes_exact. exact Hrun.
Qed.

Lemma for_each_filter {A} (drop : A -> bool) (note : A -> list Diag) (items : list A) :
  forall init,
    fst (for_each items init
           (fun kept item =>
              if drop item then bind (emit (note item)) (fun _ => ret kept)
              else ret (kept ++ [item])%list))
    = (init ++ List.filter (fun item => negb (drop item)) items)%list.
Proof.
  induction items as [|x items IH]; intros init.
  - simpl. rewrite app_nil_r. reflexivity.
  - rewrite for_each_cons, bind_fst. cbn [List.filter].
    destruct (drop x); simpl; rewrite IH.
    + reflexivity.
    + rewrite <- app_assoc. reflexivity.
Qed.

Lemma sublist_List_filter {A} (f : A -> bool) (l : list A) :
  sublist (List.filter f l) l.
Proof.
  induction l as [|x l IH]; simpl; [constructor|].
  destruct (f x); constructor; exact IH.
Qed.

(** [detectAndRemoveCycles] always returns, and keeps, in their order and
    as they are, exactly the transforms whose canonical source and target
    do not lead to a cycle of the transform graph. *)
Lemma detectAndRemoveCycles_exact ts :
  exists kept diags,
    detectAndRemoveCycles E ts = Some (kept, diags)
    /\ sublist kept ts
    /\ forall t, In t kept
                 <-> In t ts
                     /\ ~ leads_to_cycle (buildGraph E ts) (sourceKey E t)
                     /\ ~ leads_to_cycle (buildGraph E ts) (targetKey E t).
Proof.
  unfold detectAndRemoveCycles.
  destruct (cycleNodesOf_total ts) as (cycle & Hc). rewrite Hc.
  pose proof (cycleNodesOf_exact ts cycle Hc) as Hexact.
  set (run := for_each ts [] _).
  assert (fst run = List.filter (fun t => negb (touchesCycle E cycle t)) ts) as Hrun.
  { subst run.
    apply (for_each_filter (touchesCycle E cycle)
             (fun t => [Out ("Nunjucksu: removed transform " ++ description t
                             ++ " (part of cycle)");
                        Warn ("Nunjucksu: cycle detected in transforms involving "
                              ++ basename (path E) (source t))]) ts []). }
  exists (fst run), (snd run). split; [destruct run; reflexivity|].
  rewrite Hrun. split; [apply sublist_List_filter|].
  intros t. rewrite filter_In. unfold touchesCycle.
  rewrite negb_true_iff, orb_false_iff, !bool_decide_eq_false, !Hexact.
  reflexivity.
Qed.

End CycleDetector.

(** ** Configuration reload *)

Lemma set_NoDup_keys {V} (k : string) (v : V) (m : JsMap.t V) :
  NoDup (JsMap.keys m) -> NoDup (JsMap.keys (JsMap.set k v m)).
Proof.
  intros H. rewrite keys_set.
  destruct (JsMap.has k m) eqn:Hk; [exact H|].
  apply NoDup_app. split; [exact H|]. split.
  - intros x Hx [->|[]]%list_elem_of_In. apply list_elem_of_In, has_In_keys in Hx. congruence.
  - apply NoDup_singleton.
Qed.

Lemma assign_NoDup_keys (source : list (string * Value)) (target : Vars) :
  NoDup (JsMap.keys target) -> NoDup (JsMap.keys (assign target source)).
Proof.
  unfold assign. revert target.
  induction source as [|[k v] source IH]; intros target H; simpl; [exact H|].
  apply IH, set_NoDup_keys, H.
Qed.

Lemma get_None_not_key {V} (k : string) (m : JsMap.t V) :
  JsMap.get k m = None <-> ~ In k (JsMap.keys m).
Proof.
  rewrite <- has_In_keys. unfold JsMap.has.
  destruct (JsMap.get k m); split; (congruence || discriminate || auto).
Qed.

(** With distinct keys the order of the fields does not matter to a
    lookup. *)
Lemma get_rev_NoDup {V} (k : string) (m : JsMap.t V) :
  NoDup (JsMap.keys m) -> JsMap.get k (rev m) = JsMap.get k m.
Proof.
  induction m as [|[k0 v0] m IH]; intros H; [reflexivity|].
  unfold JsMap.keys in H. simpl in H. apply NoDup_cons in H as [Hk0 Hm].
  simpl. rewrite get_app, (IH Hm). simpl.
  destruct (String.eqb k k0) eqn:Ek.
  - apply String.eqb_eq in Ek. subst k0.
    assert (JsMap.get k m = None) as ->; [|reflexivity].
    apply get_None_not_key. intros Hin. apply Hk0, list_elem_of_In, Hin.
  - destruct (JsMap.get k m); reflexivity.
Qed.

Lemma extractVars_NoDup (raw : option Value) : NoDup (JsMap.keys (extractVars raw)).
Proof.
  destruct raw as [[| | | | |fields]|]; simpl; try apply NoDup_nil_2.
  apply assign_NoDup_keys. apply NoDup_nil_2.
Qed.

Lemma sort_insert_perm {A} (cmp : A -> A -> comparison) x l :
  Permutation (sort_insert cmp x l) (x :: l).
Proof.
  induction l as [|y l IH]; simpl; [reflexivity|].
  destruct (cmp x y); try reflexivity.
  rewrite IH. apply perm_swap.
Qed.

Lemma sort_perm {A} (cmp : A -> A -> comparison) l : Permutation (sort cmp l) l.
Proof.
  induction l as [|x l IH]; simpl; [reflexivity|].
  rewrite sort_insert_perm, IH. reflexivity.
Qed.

(** What the sort does with a consistent comparator. *)
Lemma sort_insert_inOrder {A} (cmp : A -> A -> comparison) x l :
  consistent cmp -> inOrder cmp l -> inOrder cmp (sort_insert cmp x l).
Proof.
  intros [Hsym Htrans]. induction l as [|y l IH]; intros Hl.
  - simpl. auto.
  - destruct Hl as [Hy Hl]. cbn [sort_insert].
    destruct (cmp x y) eqn:Hxy.
    + cbn [inOrder]. split; [|split; assumption].
      apply Forall_cons. split; [congruence|].
      eapply Forall_impl; [exact Hy|]. intros z Hz. cbv beta.
      apply (Htrans x y z); congruence.
    + cbn [inOrder]. split; [|split; assumption].
      apply Forall_cons. split; [congruence|].
      eapply Forall_impl; [exact Hy|]. intros z Hz. cbv beta.
      apply (Htrans x y z); congruence.
    + cbn [inOrder]. split; [|exact (IH Hl)].
      assert (cmp y x <> Gt) as Hyx by (rewrite Hsym, Hxy; discriminate).
      apply Forall_forall. intros z Hz.
      apply list_elem_of_In in Hz.
      apply (Permutation_in _ (sort_insert_perm cmp x l)) in Hz as [<-|Hz];
        [exact Hyx|].
      apply (proj1 (Forall_forall _ _) Hy), list_elem_of_In, Hz.
Qed.

Lemma sort_inOrder {A} (cmp : A -> A -> comparison) l :
  consistent cmp -> inOrder cmp (sort cmp l).
Proof.
  intros Hcmp. induction l as [|x l IH]; [exact I|].
  cbn [sort fold_right]. apply sort_insert_inOrder; assumption.
Qed.

Lemma sort_insert_ties {A} (cmp : A -> A -> comparison) p x l :
  consistent cmp ->
  List.filter (ties cmp p) (sort_insert cmp x l) = List.filter (ties cmp p) (x :: l).
Proof.
  intros [Hsym Htrans]. induction l as [|y l IH]; [reflexivity|].
  cbn [sort_insert]. destruct (cmp x y) eqn:Hxy; try reflexivity.
  cbn [List.filter] in *. rewrite IH.
  destruct (ties cmp p x) eqn:Hpx; [|reflexivity].
  destruct (ties cmp p y) eqn:Hpy; [|reflexivity].
  exfalso. unfold ties in Hpx, Hpy.
  destruct (cmp p x) eqn:Hx; try discriminate.
  destruct (cmp p y) eqn:Hy; try discriminate.
  apply (Htrans x p y); [rewrite Hsym, Hx; discriminate|congruence|exact Hxy].
Qed.

Lemma sort_keepsTies {A} (cmp : A -> A -> comparison) l :
  consistent cmp -> keepsTies cmp l (sort cmp l).
Proof.
  intros Hcmp p. induction l as [|x l IH]; [reflexivity|].
  cbn [sort fold_right]. rewrite (sort_insert_ties cmp p x _ Hcmp).
  cbn [List.filter]. fold (sort cmp l). rewrite IH. reflexivity.
Qed.

Lemma valueOf_rev (k : string) (fields : list (string * Value)) :
  valueOf k fields = JsMap.get k (rev fields).
Proof.
  induction fields as [|[k' v] fields IH]; [reflexivity|].
  cbn [valueOf rev]. rewrite get_app, IH. simpl.
  destruct (JsMap.get k (rev fields)); [reflexivity|].
  destruct (String.eqb k k'); reflexivity.
Qed.

Lemma get_declared (k : string) (fields : list (string * Value)) :
  JsMap.get k (assign JsMap.empty fields) = valueOf k fields.
Proof.
  rewrite get_assign, valueOf_rev.
  destruct (JsMap.get k (rev fields)); reflexivity.
Qed.

Section ReloadProperties.

Context (E : Env).

Lemma configVars_NoDup file vars :
  configVars E file = Some vars -> NoDup (JsMap.keys vars).
Proof.
  unfold configVars, configLayer, readConfig.
  destruct (content file) as [m|m|doc]; try discriminate.
  destruct (negb (isPlainObject _)); [discriminate|].
  intros [= <-]. rewrite !bind_fst. simpl. apply extractVars_NoDup.
Qed.

Lemma loadConfig_fst acc file :
  fst (loadConfig E acc file)
  = match configLayer E file with
    | Some layer =>
        (assign (fst (fst acc)) (fst (fst layer)),
         (snd (fst acc) ++ snd (fst layer))%list,
         (snd acc ++ snd layer)%list)
    | None => acc
    end.
Proof.
  unfold loadConfig, configLayer. destruct acc as [[mv gft] gdt].
  destruct (readConfig E file) as [loaded|message].
  - rewrite bind_fst. destruct (fst loaded) as [[vars fts] dts]. reflexivity.
  - reflexivity.
Qed.

(** The loop over the configuration files merges the layers of the files
    that load, in order, and nothing else. *)
Lemma gather_layers uris : forall acc,
  fst (for_each uris acc (loadConfig E))
  = let layers := omap (configLayer E) uris in
    (fold_left assign (map (fun layer => fst (fst layer)) layers) (fst (fst acc)),
     (snd (fst acc) ++ List.concat (map (fun layer => snd (fst layer)) layers))%list,
     (snd acc ++ List.concat (map (fun layer => snd layer) layers))%list).
Proof.
  induction uris as [|file uris IH]; intros [[mv gft] gdt].
  - simpl. rewrite !app_nil_r. reflexivity.
  - rewrite for_each_cons, bind_fst, IH, loadConfig_fst. cbn [omap list_omap].
    destruct (configLayer E file) as [[[vars fts] dts]|]; simpl.
    + rewrite <- !app_assoc. reflexivity.
    + reflexivity.
Qed.

Lemma get_merged (layers : list Vars) : forall (k : string) (base : Vars),
  (forall vars, In vars layers -> NoDup (JsMap.keys vars)) ->
  JsMap.get k (fold_left assign layers base)
  = match shallowOverwrite layers k with
    | Some v => Some v
    | None => JsMap.get k base
    end.
Proof.
  unfold shallowOverwrite.
  induction layers as [|vars layers IH] using rev_ind; intros k base Hnd.
  - reflexivity.
  - rewrite !fold_left_app. simpl.
    rewrite get_assign, get_rev_NoDup by (apply Hnd, in_or_app; right; now left).
    destruct (JsMap.get k vars); [reflexivity|].
    apply IH. intros vars' Hin. apply Hnd, in_or_app. now left.
Qed.

Lemma performTemplateReload_keeps st :
  let st' := fst (performTemplateReload E st) in
  variables st' = variables st
  /\ configFileTransforms st' = configFileTransforms st
  /\ directoryTransforms st' = directoryTransforms st.
Proof.
  unfold performTemplateReload. rewrite bind_fst. cbv zeta.
  match goal with |- context [if ?c then _ else _] => destruct c end;
    [rewrite bind_fst|]; simpl; auto.
Qed.

Lemma loadConfig_throw acc file message :
  readConfig E file = Throw message ->
  loadConfig E acc file
  = (acc, [Out ("Nunjucksu: failed to load " ++ fsPath file ++ ": " ++ message);
           Warn ("Nunjucksu: unable to read " ++ basename (path E) (fsPath file)
                 ++ ". Check the output channel for details.")]).
Proof.
  intros H. unfold loadConfig. destruct acc as [[mv gft] gdt]. rewrite H. reflexivity.
Qed.

(** A file whose read throws leaves its line on the output channel and a
    warning. *)
Lemma failing_config_reported uris : forall acc file message,
  In file uris -> readConfig E file = Throw message ->
  let diags := snd (for_each uris acc (loadConfig E)) in
  In (Out ("Nunjucksu: failed to load " ++ fsPath file ++ ": " ++ message)) diags
  /\ In (Warn ("Nunjucksu: unable to read " ++ basename (path E) (fsPath file)
               ++ ". Check the output channel for details.")) diags.
Proof.
  induction uris as [|u uris IH]; intros acc file message Hin Hthrow; [destruct Hin|].
  cbv zeta. rewrite for_each_cons, bind_snd.
  simpl in Hin. destruct Hin as [->|Hin].
  - rewrite (loadConfig_throw acc file message Hthrow). simpl.
    split; [now left|right; now left].
  - destruct (IH (fst (loadConfig E acc u)) file message Hin Hthrow) as [H1 H2].
    split; apply in_or_app; right; assumption.
Qed.

(** The reload always completes; its state holds the merge of the
    configuration files, the explicit transforms that survive cycle
    detection, and the directory transforms. *)
Lemma performReload_result configUris st :
  let g := fst (gatherConfigs E configUris) in
  exists kept d w,
    detectAndRemoveCycles E (snd (fst g)) = Some (kept, d)
    /\ performReload E configUris st = Some w
    /\ variables (fst w) = fst (fst g)
    /\ configFileTransforms (fst w) = kept
    /\ directoryTransforms (fst w) = snd g
    /\ forall x, In x (snd (gatherConfigs E configUris)) -> In x (snd w).
Proof.
  cbv zeta. unfold performReload.
  set (gathered := bind _ (fun _ => gatherConfigs E configUris)).
  assert (fst gathered = fst (gatherConfigs E configUris)) as Hg
    by (subst gathered; apply bind_fst).
  assert (forall x, In x (snd (gatherConfigs E configUris)) -> In x (snd gathered)) as Hd.
  { intros x Hx. subst gathered. rewrite bind_snd. apply in_or_app. now right. }
  rewrite Hg.
  destruct (fst (gatherConfigs E configUris)) as [[mv gft] gdt] eqn:Hgc. simpl.
  destruct (detectAndRemoveCycles_exact E gft) as (kept & d & Hdet & _).
  rewrite Hdet. eexists kept, d, _. split; [reflexivity|]. split; [reflexivity|].
  rewrite !bind_fst. simpl.
  match goal with |- context [performTemplateReload E ?s] =>
    destruct (performTemplateReload_keeps s) as (Hv & Hc & Hdt) end.
  rewrite Hv, Hc, Hdt. simpl. repeat split; try reflexivity.
  intros x Hx. rewrite bind_snd. apply in_or_app. left. apply Hd, Hx.
Qed.

Lemma layers_vars uris :
  map (fun layer : Vars * list FileTransformEntry * list DirectoryTransform =>
         fst (fst layer)) (omap (configLayer E) uris)
  = omap (configVars E) uris.
Proof.
  induction uris as [|u uris IH]; [reflexivity|].
  cbn [omap list_omap]. unfold configVars at 1.
  destruct (configLayer E u); simpl; rewrite <- IH; reflexivity.
Qed.

Lemma configVars_declared file :
  configVars E file = option_map (assign JsMap.empty) (declaredVars file).
Proof.
  unfold configVars, configLayer, readConfig, declaredVars.
  destruct (content file) as [m|m|doc]; try reflexivity.
  fold (rootOf doc).
  destruct (rootOf doc) as [| | | | |fields]; try reflexivity.
  cbn [isPlainObject negb prop option_map]. rewrite !bind_fst. cbn [fst ret].
  unfold extractVars.
  destruct (JsMap.get "vars" fields) as [[| | | | |vars]|]; reflexivity.
Qed.

Lemma overwritten_layers (k : string) files : forall acc,
  fold_left
    (fun acc vars => match JsMap.get k vars with Some v => Some v | None => acc end)
    (omap (configVars E) files) acc
  = fold_left
      (fun acc fields => match valueOf k fields with Some v => Some v | None => acc end)
      (omap declaredVars files) acc.
Proof.
  induction files as [|file files IH]; intros acc; [reflexivity|].
  cbn [omap list_omap]. rewrite configVars_declared.
  destruct (declaredVars file) as [fields|]; cbn [option_map fold_left]; [|apply IH].
  rewrite get_declared. apply IH.
Qed.

(** C3.  Whatever the configuration files, and in whatever order
    [findFiles] returns them, the reload completes, and with a consistent
    comparator of paths the merged variables are the shallow overwrite of
    the [vars] the files declare, taken in the order of their paths: the
    files are taken so that none comes after a file behind it, files
    whose paths the comparator does not tell apart stay in the order
    [findFiles] gave them, and a key holds the value that the last file
    with a field of that name gives, whole, nested mapping or not. *)
Theorem merged_variables_shallow_overwrite (configUris : list ConfigFile)
    (st : Controller) :
  consistent (localeCompare E) ->
  exists st' diags order,
    performReload E configUris st = Some (st', diags)
    /\ Permutation order configUris
    /\ inOrder (byPath E) order
    /\ keepsTies (byPath E) configUris order
    /\ forall k,
         JsMap.get k (variables st') = overwritten (omap declaredVars order) k.
Proof.
  intros [Hsym Htrans].
  assert (consistent (byPath E)) as Hcmp.
  { split; unfold byPath; [intros a b; apply Hsym|intros a b c; apply Htrans]. }
  destruct (performReload_result configUris st)
    as (kept & d & [st' diags] & _ & Hrun & Hvars & _).
  exists st', diags, (sortConfigs E configUris).
  split; [exact Hrun|]. split; [apply sort_perm|].
  split; [exact (sort_inOrder (byPath E) configUris Hcmp)|].
  split; [exact (sort_keepsTies (byPath E) configUris Hcmp)|].
  intros k. simpl in Hvars. rewrite Hvars.
  unfold gatherConfigs. rewrite gather_layers. cbv zeta. cbn [fst snd].
  rewrite layers_vars, get_merged.
  - unfold overwritten. rewrite <- overwritten_layers. fold (shallowOverwrite
      (omap (configVars E) (sortConfigs E configUris)) k).
    destruct (shallowOverwrite _ k); reflexivity.
  - intros vars Hin. apply list_elem_of_In, list_elem_of_omap in Hin as (file & _ & Hfile).
    eapply configVars_NoDup. exact Hfile.
Qed.

Lemma configLayer_None file :
  configLayer E file = None
  <-> match content file with
      | ReadFails _ | ParseFails _ => True
      | Parsed doc => doc <> VNull /\ isPlainObject doc = false
      end.
Proof.
  unfold configLayer, readConfig.
  destruct (content file) as [m|m|doc]; [tauto|tauto|].
  destruct doc; simpl; split; intros H;
    try discriminate; try (destruct H; congruence); try (split; congruence).
Qed.

(** C9.  The reload completes whatever the files hold.  A file whose
    read or parse throws, or whose root is not a mapping, contributes
    nothing and is reported on the output channel and by a warning; the
    variables, the file transforms (before cycle detection) and the
    directory transforms are the merge, in order, of all the other
    files. *)
Theorem failing_config_is_skipped (configUris : list ConfigFile) (st : Controller) :
  exists st' diags,
    performReload E configUris st = Some (st', diags)
    /\ (let layers := omap (configLayer E) (sortConfigs E configUris) in
        variables st'
        = fold_left assign (map (fun layer => fst (fst layer)) layers) JsMap.empty
        /\ option_map fst
             (detectAndRemoveCycles E
                (List.concat (map (fun layer => snd (fst layer)) layers)))
           = Some (configFileTransforms st')
        /\ directoryTransforms st' = List.concat (map (fun layer => snd layer) layers))
    /\ (forall file,
          configLayer E file = None
          <-> match content file with
              | ReadFails _ | ParseFails _ => True
              | Parsed doc => doc <> VNull /\ isPlainObject doc = false
              end)
    /\ (forall file message,
          In file configUris -> readConfig E file = Throw message ->
          In (Out ("Nunjucksu: failed to load " ++ fsPath file ++ ": " ++ message))
            diags
          /\ In (Warn ("Nunjucksu: unable to read "
                       ++ basename (path E) (fsPath file)
                       ++ ". Check the output channel for details.")) diags).
Proof.
  destruct (performReload_result configUris st)
    as (kept & d & [st' diags] & Hdet & Hrun & Hvars & Hkept & Hdirs & Hdiags).
  exists st', diags. split; [exact Hrun|].
  unfold gatherConfigs in Hdet, Hvars, Hdirs, Hdiags.
  rewrite gather_layers in Hdet, Hvars, Hdirs. cbv zeta in *. simpl in *.
  split; [|split; [apply configLayer_None|]].
  - split; [exact Hvars|]. split; [|exact Hdirs].
    rewrite Hdet, Hkept. reflexivity.
  - intros file message Hin Hthrow.
    assert (In file (sortConfigs E configUris)) as Hin'.
    { eapply Permutation_in; [symmetry; apply sort_perm|exact Hin]. }
    destruct (failing_config_reported (sortConfigs E configUris)
                (JsMap.empty, [], []) file message Hin' Hthrow) as [H1 H2].
    split; apply Hdiags; assumption.
Qed.

End ReloadProperties.

(** ** The combined transform list *)

Lemma has_set {V} (k k' : string) (v : V) (m : JsMap.t V) :
  JsMap.has k' (JsMap.set k v m) = String.eqb k' k || JsMap.has k' m.
Proof.
  unfold JsMap.has. rewrite get_set. destruct (String.eqb k' k); reflexivity.
Qed.

Lemma In_values_set {V} (k : string) (x v : V) (m : JsMap.t V) :
  In v (JsMap.values (JsMap.set k x m)) -> v = x \/ In v (JsMap.values m).
Proof.
  unfold JsMap.values.
  induction m as [|[k0 v0] m IH]; simpl.
  - intros [H|[]]. now left.
  - destruct (String.eqb k k0); simpl.
    + intros [H|H]; auto.
    + intros [H|H]; auto. destruct (IH H); auto.
Qed.

Lemma filter_none {A} (f : A -> bool) (l : list A) :
  (forall x, In x l -> f x = false) -> List.filter f l = [].
Proof.
  induction l as [|x l IH]; intros H; simpl; [reflexivity|].
  rewrite (H x) by now left. apply IH. intros y Hy. apply H. now right.
Qed.

Section TransformList.

Context (E : Env).

Lemma bySource_has_from entries : forall m k,
  JsMap.has k
    (fold_left (fun m entry => JsMap.set (normalizeFsPath E (source entry)) entry m)
       entries m) = true
  <-> JsMap.has k m = true \/ In k (map (sourceKey E) entries).
Proof.
  induction entries as [|e entries IH]; intros m k; simpl.
  - tauto.
  - rewrite IH, has_set, orb_true_iff, String.eqb_eq. unfold sourceKey.
    split; [intros [[->|H]|H]|intros [H|[<-|H]]]; auto.
Qed.

Lemma bySource_has entries k :
  JsMap.has k (bySource E entries) = true <-> In k (map (sourceKey E) entries).
Proof.
  unfold bySource. rewrite bySource_has_from. unfold JsMap.has. simpl.
  split; [intros [H|H]; [discriminate|exact H]|auto].
Qed.

Lemma derived_values (config : JsMap.t FileTransformEntry) entries : forall m v,
  In v (JsMap.values
          (fold_left
             (fun m entry =>
                let key := normalizeFsPath E (source entry) in
                if negb (JsMap.has key config) then JsMap.set key entry m else m)
             entries m)) ->
  In v (JsMap.values m)
  \/ (In v entries /\ JsMap.has (sourceKey E v) config = false).
Proof.
  induction entries as [|e entries IH]; intros m v; simpl; [auto|].
  intros H. apply IH in H as [H|[H1 H2]]; [|auto].
  destruct (JsMap.has (normalizeFsPath E (source e)) config) eqn:Hc; simpl in H; [auto|].
  apply In_values_set in H as [->|H]; auto.
Qed.

(** The combined list is the explicit transforms, in their order,
    followed by derived entries whose canonical source no explicit
    transform names. *)
Lemma rebuildTransformsList_shape st :
  exists derived,
    transforms (rebuildTransformsList E st)
    = (configFileTransforms st ++ derived)%list
    /\ forall d, In d derived ->
         In d (templateTransforms st)
         /\ ~ In (sourceKey E d) (map (sourceKey E) (configFileTransforms st)).
Proof.
  unfold rebuildTransformsList. simpl. eexists. split; [reflexivity|].
  intros d Hd. apply derived_values in Hd as [[]|[Hin Hno]].
  split; [exact Hin|]. rewrite <- bySource_has. congruence.
Qed.

Lemma rebuildTransformsList_explicitWins st :
  explicitWins E (rebuildTransformsList E st).
Proof.
  intros k Hk.
  destruct (rebuildTransformsList_shape st) as (derived & -> & Hderived).
  change (configFileTransforms (rebuildTransformsList E st))
    with (configFileTransforms st) in *.
  unfold withSource. rewrite List.filter_app.
  assert (List.filter (fun t => String.eqb (sourceKey E t) k) derived = []) as ->.
  { apply filter_none. intros d Hd. apply String.eqb_neq. intros <-.
    apply (Hderived d Hd), Hk. }
  apply app_nil_r.
Qed.

Lemma explicitWins_ext st1 st2 :
  transforms st2 = transforms st1 ->
  configFileTransforms st2 = configFileTransforms st1 ->
  explicitWins E st1 -> explicitWins E st2.
Proof. unfold explicitWins. intros -> ->. auto. Qed.

Lemma rebuild_explicitWins st :
  explicitWins E (rebuildSourceWatchers E (rebuildTransformsList E st)).
Proof.
  eapply explicitWins_ext; [| |apply (rebuildTransformsList_explicitWins st)];
    reflexivity.
Qed.

Lemma performTemplateReload_explicitWins st :
  explicitWins E (fst (performTemplateReload E st)).
Proof.
  unfold performTemplateReload. rewrite bind_fst. cbv zeta.
  match goal with |- context [if ?c then _ else _] => destruct c end.
  - rewrite bind_fst. simpl.
    eapply explicitWins_ext; [| |apply rebuild_explicitWins]; reflexivity.
  - simpl. apply rebuild_explicitWins.
Qed.

Lemma handleTemplateChange_explicitWins uri st :
  explicitWins E st -> explicitWins E (fst (handleTemplateChange E uri st)).
Proof.
  unfold handleTemplateChange. generalize (directoryTransforms st) as dts.
  intros dts Hst.
  induction dts as [|dt dts IH]; cbn [handleTemplateChange_loop]; [exact Hst|].
  match goal with |- context [if ?c then _ else _] => destruct c end; [|exact IH].
  rewrite bind_fst.
  destruct (fst (createDirectoryFileTransform E dt uri _)) as [e|]; [|exact IH].
  simpl. apply rebuild_explicitWins.
Qed.

Lemma handleTemplateDelete_explicitWins uri st :
  explicitWins E st -> explicitWins E (handleTemplateDelete E uri st).
Proof.
  intros Hst. unfold handleTemplateDelete.
  destruct (negb (_ =? _)%nat).
  - apply rebuild_explicitWins.
  - eapply explicitWins_ext; [| |exact Hst]; reflexivity.
Qed.

Lemma withSource_key k entries e :
  In e (withSource E k entries) -> In k (map (sourceKey E) entries).
Proof.
  unfold withSource. intros [Hin Hk]%filter_In.
  apply String.eqb_eq in Hk. subst k. apply in_map, Hin.
Qed.

(** C4, as amended.  For every canonical source that an explicit
    transform names, the combined list holds exactly the explicit
    transforms of that source -- one entry when one explicit transform
    names it -- and no derived entry, whatever the directory expansion
    produced: after a rebuild of the list, after a full rescan, after a
    whole reload, and across the incremental template events. *)
Theorem explicit_transforms_suppress_derived :
  (forall st, explicitWins E (rebuildTransformsList E st))
  /\ (forall st k e,
        withSource E k (configFileTransforms st) = [e] ->
        withSource E k (transforms (rebuildTransformsList E st)) = [e])
  /\ (forall st, explicitWins E (fst (performTemplateReload E st)))
  /\ (forall configUris st w,
        performReload E configUris st = Some w -> explicitWins E (fst w))
  /\ (forall uri st,
        explicitWins E st -> explicitWins E (fst (handleTemplateChange E uri st)))
  /\ (forall uri st,
        explicitWins E st -> explicitWins E (handleTemplateDelete E uri st)).
Proof.
  split; [apply rebuildTransformsList_explicitWins|].
  split.
  { intros st k e He.
    rewrite (rebuildTransformsList_explicitWins st k); [exact He|].
    apply (withSource_key k _ e). change (configFileTransforms _)
      with (configFileTransforms st). rewrite He. now left. }
  split; [apply performTemplateReload_explicitWins|].
  split.
  { intros configUris st w Hrun. unfold performReload in Hrun.
    destruct (fst (bind _ (fun _ => gatherConfigs E configUris))) as [[mv gft] gdt].
    destruct (detectAndRemoveCycles E gft) as [removal|]; [|discriminate].
    injection Hrun as <-. rewrite !bind_fst.
    apply performTemplateReload_explicitWins. }
  split; [apply handleTemplateChange_explicitWins|apply handleTemplateDelete_explicitWins].
Qed.

End TransformList.

(** ** Transform resolution *)

Section Resolution.

Context (E : Env).

Lemma resolvePath_nonempty value workspaceFolder configDir :
  Js.truthy (resolvePath E value workspaceFolder configDir) = true.
Proof.
  unfold Js.truthy, resolvePath. apply negb_true_iff, String.eqb_neq.
  destruct (isAbsolute _ _); apply normalize_nonempty.
Qed.

Lemma trim_empty_of_empty name :
  negb (Js.truthy name) || String.eqb (trim (text E) name) "" = String.eqb (trim (text E) name) "".
Proof.
  unfold Js.truthy. rewrite negb_involutive.
  destruct (String.eqb name "") eqn:Hn; [|reflexivity].
  apply String.eqb_eq in Hn. subst. rewrite trim_empty. reflexivity.
Qed.

(** C7, as amended.  [createFileTransformEntry] returns no entry exactly
    when the resolved source does not exist, the canonical source equals
    the canonical target, or the derived lookup name is empty after
    trimming; it emits a diagnostic exactly when it returns no entry.
    The canonical comparison folds letter case, as [toLowerCase] does, on
    win32 and only there.  On win32 a transform whose resolved source and
    target are equal once lower-cased is dropped.  On every other
    platform a transform whose source exists, whose lookup name is not
    blank and whose resolved source and target are different strings is
    kept, also when they differ in letter case only and whatever the file
    system does with case. *)
Theorem createFileTransformEntry_drops_exactly (spec : TransformSpec)
    (workspaceFolder : option string) (configDir : string) :
  let sourcePath := resolvePath E (spec_source spec) workspaceFolder configDir in
  let targetPath := resolvePath E (spec_target spec) workspaceFolder configDir in
  let name :=
    deriveTemplateName E sourcePath (buildSearchPaths E sourcePath workspaceFolder) in
  let result := createFileTransformEntry E spec workspaceFolder configDir in
  (fst result = None
   <-> existsSync E sourcePath = false
       \/ normalizeFsPath E sourcePath = normalizeFsPath E targetPath
       \/ trim (text E) name = "")
  /\ (fst result = None <-> snd result <> [])
  /\ (win32 E = true ->
      toLowerCase (text E) (resolve (path E) [sourcePath])
      = toLowerCase (text E) (resolve (path E) [targetPath]) ->
      fst result = None)
  /\ (win32 E = false ->
      (fst result = None
       <-> existsSync E sourcePath = false
           \/ resolve (path E) [sourcePath] = resolve (path E) [targetPath]
           \/ trim (text E) name = "")).
Proof.
  cbv zeta.
  assert (fst (createFileTransformEntry E spec workspaceFolder configDir) = None
          <-> existsSync E (resolvePath E (spec_source spec) workspaceFolder configDir)
              = false
              \/ normalizeFsPath E
                   (resolvePath E (spec_source spec) workspaceFolder configDir)
                 = normalizeFsPath E
                     (resolvePath E (spec_target spec) workspaceFolder configDir)
              \/ trim (text E)
                   (deriveTemplateName E
                      (resolvePath E (spec_source spec) workspaceFolder configDir)
                      (buildSearchPaths E
                         (resolvePath E (spec_source spec) workspaceFolder configDir)
                         workspaceFolder)) = "") as Hdrops.
  { unfold createFileTransformEntry.
    rewrite !resolvePath_nonempty. cbn [negb orb].
    rewrite trim_empty_of_empty.
    destruct (existsSync E _) eqn:Hex; cbn [negb].
    - destruct (String.eqb (normalizeFsPath E _) (normalizeFsPath E _)) eqn:Heq.
      + apply String.eqb_eq in Heq. simpl. tauto.
      + apply String.eqb_neq in Heq.
        destruct (String.eqb (trim (text E) _) "") eqn:Hname.
        * apply String.eqb_eq in Hname. simpl. tauto.
        * apply String.eqb_neq in Hname. simpl.
          split; [discriminate|]. intros [H|[H|H]]; [discriminate|tauto|tauto].
    - simpl. tauto. }
  split; [exact Hdrops|]. split; [|split].
  - unfold createFileTransformEntry.
    rewrite !resolvePath_nonempty. cbn [negb orb].
    rewrite trim_empty_of_empty.
    destruct (existsSync E _); cbn [negb];
      [destruct (String.eqb (normalizeFsPath E _) (normalizeFsPath E _));
       [|destruct (String.eqb (trim (text E) _) "")]|];
      simpl; split; congruence.
  - intros Hwin Hsame. apply Hdrops. right. left.
    unfold normalizeFsPath. rewrite Hwin. exact Hsame.
  - intros Hwin. rewrite Hdrops. unfold normalizeFsPath. rewrite Hwin. reflexivity.
Qed.

(** The lookup name comes from the first search path that passes the
    test of the controller, and is the base name when none does. *)
Lemma deriveTemplateName_first_passing sourcePath searchPaths :
  deriveTemplateName E sourcePath searchPaths
  = match List.find (passes (path E) sourcePath) searchPaths with
    | Some base =>
        Js.join "/" (Js.split (sep (path E)) (relative (path E) base sourcePath))
    | None => basename (path E) sourcePath
    end.
Proof.
  induction searchPaths as [|base searchPaths IH]; [reflexivity|].
  cbn [deriveTemplateName List.find]. unfold passes at 1.
  destruct (negb _ && negb _); [reflexivity|exact IH].
Qed.

End Resolution.

(** ** The writer *)

Section Writer.

Context (E : Env).

(** The directories [createDirectory] makes sure of. *)
Definition chainOf (uri : string) : list string :=
  ancestors E (String.length (dirname (path E) uri)) (dirname (path E) uri).

Lemma blocked_false (fs : gmap string string) (chain : list string) :
  existsb (fun a => bool_decide (is_Some (fs !! a))) chain = false
  <-> forall a, In a chain -> fs !! a = None.
Proof.
  induction chain as [|c chain IH]; simpl.
  - split; [intros _ a []|reflexivity].
  - rewrite orb_false_iff, IH, bool_decide_eq_false, <- eq_None_not_Some.
    split; [intros [H1 H2] a [<-|Ha]; auto|auto].
Qed.

(** When the target already holds the bytes to write and no regular file
    is in the way of its directory, [writeTarget] makes the directory,
    reads the target and stops there. *)
Lemma writeTarget_skip uri contents fs :
  files fs !! uri = Some (utf8 contents) ->
  (forall a, In a (chainOf uri) -> files fs !! a = None) ->
  writeTarget E uri contents fs
  = (Ok tt,
     {| files := files fs;
        dirs := list_to_set (chainOf uri) ∪ dirs fs;
        calls := (calls fs ++ [CreateDirectory (dirname (path E) uri);
                               ReadFile uri])%list |}).
Proof.
  intros Hsame Hfree. unfold writeTarget, createDirectory.
  cbn [journal files dirs calls].
  apply blocked_false in Hfree. fold (chainOf uri). rewrite Hfree.
  unfold readFile. cbn [journal files dirs calls]. rewrite Hsame.
  rewrite String.eqb_refl. unfold journal. cbn [files dirs calls].
  rewrite <- app_assoc. reflexivity.
Qed.

(** After a [writeTarget] that did not throw, the target holds the bytes,
    the directories above it exist and none of them is a regular file. *)
Lemma writeTarget_ok uri contents fs :
  fst (writeTarget E uri contents fs) = Ok tt ->
  let fs' := snd (writeTarget E uri contents fs) in
  files fs' !! uri = Some (utf8 contents)
  /\ (forall a, In a (chainOf uri) -> files fs' !! a = None)
  /\ list_to_set (chainOf uri) ∪ dirs fs' = dirs fs'.
Proof.
  cbv zeta. unfold writeTarget, createDirectory. cbn [journal files dirs calls].
  fold (chainOf uri).
  destruct (existsb _ (chainOf uri)) eqn:Hfree; [discriminate|].
  pose proof (proj1 (blocked_false _ _) Hfree) as Hnone. clear Hfree.
  rename Hnone into Hfree.
  unfold readFile. cbn [journal files dirs calls].
  destruct (files fs !! uri) as [current|] eqn:Hcur.
  - destruct (String.eqb current (utf8 contents)) eqn:Heq.
    + apply String.eqb_eq in Heq. subst current. intros _. simpl.
      split; [exact Hcur|]. split; [exact Hfree|]. set_solver +.
    + unfold writeFile. cbn [journal files dirs calls].
      destruct (bool_decide (uri ∈ _)) eqn:Hdir; [discriminate|].
      apply bool_decide_eq_false in Hdir. intros _. simpl.
      split; [apply lookup_insert_eq|]. split; [|set_solver +].
      intros a Ha. rewrite lookup_insert_ne; [apply Hfree, Ha|].
      intros <-. apply Hdir, elem_of_union_l, elem_of_list_to_set, list_elem_of_In, Ha.
  - unfold writeFile. cbn [journal files dirs calls].
    destruct (bool_decide (uri ∈ _)) eqn:Hdir; [discriminate|].
    apply bool_decide_eq_false in Hdir. intros _. simpl.
    split; [apply lookup_insert_eq|]. split; [|set_solver +].
    intros a Ha. rewrite lookup_insert_ne; [apply Hfree, Ha|].
    intros <-. apply Hdir, elem_of_union_l, elem_of_list_to_set, list_elem_of_In, Ha.
Qed.

Lemma renderTransform_fs transform reason variables fs :
  fst (renderTransform E transform reason variables fs)
  = match renderTemplate E transform variables fs with
    | Ok output => snd (writeTarget E (target transform) output fs)
    | Throw _ => fs
    end.
Proof.
  unfold renderTransform. destruct (renderTemplate E transform variables fs); [|reflexivity].
  destruct (writeTarget E (target transform) a fs) as [[[]|message] fs'].
  - rewrite bind_fst. reflexivity.
  - rewrite bind_fst. reflexivity.
Qed.

(** C6.  When a render of a transform went through (the template
    rendered and the target was written or found identical) and the
    template renders to the same text again -- the variables and the
    sources are unchanged -- the second render writes nothing: it makes
    sure of the directory, reads the target, finds the bytes equal and
    stops.  The files and the directories are as the first render left
    them. *)
Theorem second_render_writes_nothing (transform : FileTransformEntry)
    (reason : string) (variables : Vars) (fs : FileSystem) (output : string) :
  renderTemplate E transform variables fs = Ok output ->
  fst (writeTarget E (target transform) output fs) = Ok tt ->
  let fs1 := fst (renderTransform E transform reason variables fs) in
  renderTemplate E transform variables fs1 = Ok output ->
  let fs2 := fst (renderTransform E transform reason variables fs1) in
  calls fs2
  = (calls fs1 ++ [CreateDirectory (dirname (path E) (target transform));
                   ReadFile (target transform)])%list
  /\ files fs2 = files fs1
  /\ dirs fs2 = dirs fs1.
Proof.
  intros Hrender Hwrite. cbv zeta.
  rewrite (renderTransform_fs transform reason variables fs), Hrender.
  intros Hagain. rewrite renderTransform_fs, Hagain.
  destruct (writeTarget_ok (target transform) output fs Hwrite)
    as (Hbytes & Hfree & Hdirs).
  rewrite (writeTarget_skip _ _ _ Hbytes Hfree). cbn [snd calls files dirs].
  split; [reflexivity|]. split; [reflexivity|exact Hdirs].
Qed.

Lemma ancestors_head fuel dir : In dir (ancestors E fuel dir).
Proof.
  destruct fuel; simpl; [now left|].
  destruct (String.eqb _ dir); now left.
Qed.

(** The four ways [writeTarget] can go: the directory cannot be made;
    the bytes are those of the target already; the target is written; the
    write throws. *)
Lemma writeTarget_cases uri contents fs :
  let directory := dirname (path E) uri in
  let made := (list_to_set (chainOf uri) ∪ dirs fs : gset string) in
  (exists message,
     writeTarget E uri contents fs
     = (Throw message,
        {| files := files fs; dirs := dirs fs;
           calls := (calls fs ++ [CreateDirectory directory])%list |}))
  \/ (files fs !! uri = Some (utf8 contents)
      /\ writeTarget E uri contents fs
         = (Ok tt,
            {| files := files fs; dirs := made;
               calls := (calls fs ++ [CreateDirectory directory;
                                      ReadFile uri])%list |}))
  \/ writeTarget E uri contents fs
     = (Ok tt,
        {| files := <[uri := utf8 contents]> (files fs); dirs := made;
           calls := (calls fs ++ [CreateDirectory directory; ReadFile uri;
                                  WriteFile uri (utf8 contents)])%list |})
  \/ (exists message,
        writeTarget E uri contents fs
        = (Throw message,
           {| files := files fs; dirs := made;
              calls := (calls fs ++ [CreateDirectory directory; ReadFile uri;
                                     WriteFile uri (utf8 contents)])%list |})).
Proof.
  cbv zeta. unfold writeTarget, createDirectory, journal.
  cbn [files dirs calls]. fold (chainOf uri).
  destruct (existsb _ (chainOf uri)); [left; eauto|]. right.
  unfold readFile, journal. cbn [files dirs calls].
  destruct (files fs !! uri) as [current|] eqn:Hcur.
  - destruct (String.eqb current (utf8 contents)) eqn:Heq.
    + apply String.eqb_eq in Heq. subst current. left. split; [reflexivity|].
      rewrite <- app_assoc. reflexivity.
    + right. unfold writeFile, journal. cbn [files dirs calls].
      rewrite <- !app_assoc. cbn [app].
      destruct (bool_decide _); [right; eauto|left; reflexivity].
  - right. unfold writeFile, journal. cbn [files dirs calls].
    rewrite <- !app_assoc. cbn [app].
    destruct (bool_decide _); [right; eauto|left; reflexivity].
Qed.

(** The directories [createDirectory] makes sure of are the directory
    of the target and those above it, one after the other, up to a
    directory that is its own parent or as far as the walk goes. *)
Lemma ancestors_above fuel : forall dir,
  exists k,
    k <= fuel
    /\ ancestors E fuel dir
       = map (fun i => Nat.iter i (dirname (path E)) dir) (seq 0 (S k))
    /\ (dirname (path E) (Nat.iter k (dirname (path E)) dir)
        = Nat.iter k (dirname (path E)) dir
        \/ k = fuel).
Proof.
  induction fuel as [|fuel IH]; intros dir.
  - exists 0. split; [lia|]. split; [reflexivity|now right].
  - cbn [ancestors].
    destruct (String.eqb (dirname (path E) dir) dir) eqn:Hroot.
    + apply String.eqb_eq in Hroot. exists 0. split; [lia|].
      split; [reflexivity|left; exact Hroot].
    + destruct (IH (dirname (path E) dir)) as (k & Hk & Heq & Hend).
      exists (S k). split; [lia|]. split.
      * rewrite Heq. change (seq 0 (S (S k))) with (0 :: seq 1 (S k)).
        rewrite <- (seq_shift (S k) 0), (map_cons _ 0), map_map.
        f_equal. apply map_ext. intros i.
        symmetry. apply Nat.iter_succ_r.
      * rewrite !Nat.iter_succ_r. destruct Hend as [Hend|Hend]; [left; exact Hend|].
        right. lia.
Qed.

Lemma chainOf_above uri :
  exists k,
    (forall d, In d (chainOf uri) <-> exists i, i <= k /\ d = above (path E) uri i)
    /\ (dirname (path E) (above (path E) uri k) = above (path E) uri k
        \/ k = String.length (dirname (path E) uri)).
Proof.
  unfold chainOf, above.
  destruct (ancestors_above (String.length (dirname (path E) uri))
              (dirname (path E) uri)) as (k & _ & -> & Hend).
  exists k. split; [|exact Hend].
  intros d. rewrite in_map_iff. split.
  - intros (i & <- & Hi). apply in_seq in Hi. exists i. split; [lia|reflexivity].
  - intros (i & Hi & ->). exists i. split; [reflexivity|]. apply in_seq. lia.
Qed.

(** When no regular file is in the way, the directories are made,
    whatever becomes of the write. *)
Lemma writeTarget_made uri contents fs :
  (forall a, In a (chainOf uri) -> files fs !! a = None) ->
  dirs (snd (writeTarget E uri contents fs))
  = list_to_set (chainOf uri) ∪ dirs fs.
Proof.
  intros Hfree. unfold writeTarget, createDirectory. cbn [journal files dirs calls].
  apply blocked_false in Hfree. fold (chainOf uri). rewrite Hfree.
  unfold readFile. cbn [journal files dirs calls].
  destruct (files fs !! uri) as [current|];
    [destruct (String.eqb current (utf8 contents)); [reflexivity|]|];
    unfold writeFile; cbn [journal files dirs calls];
    destruct (bool_decide _); reflexivity.
Qed.

(** C10.  [writeTarget] calls [createDirectory] on the parent directory
    of the target first, then at most [readFile] and [writeFile] on the
    target itself, in this order.  When no regular file stands at the
    parent directory or above it, the parent directory and the
    directories above it -- up to a directory that is its own parent, or
    as far as the walk up goes, one step for each character of the
    parent directory -- exist afterwards, whether the target is written
    or not; and a render whose bytes equal those of the target stops
    after the read and leaves the files as they were.  No regular file
    other than the target changes, and no directory appears other than
    the parent directory and those above it. *)
Theorem writeTarget_makes_directory_first (uri contents : string)
    (fs : FileSystem) :
  let directory := dirname (path E) uri in
  let fs' := snd (writeTarget E uri contents fs) in
  (exists rest,
     calls fs' = (calls fs ++ CreateDirectory directory :: rest)%list
     /\ (rest = [] \/ rest = [ReadFile uri]
         \/ rest = [ReadFile uri; WriteFile uri (utf8 contents)]))
  /\ ((forall n, files fs !! above (path E) uri n = None) ->
      directory ∈ dirs fs'
      /\ (exists k,
            (forall i, i <= k -> above (path E) uri i ∈ dirs fs')
            /\ (dirname (path E) (above (path E) uri k) = above (path E) uri k
                \/ k = String.length directory))
      /\ (files fs !! uri = Some (utf8 contents) ->
          calls fs' = (calls fs ++ [CreateDirectory directory; ReadFile uri])%list
          /\ files fs' = files fs))
  /\ (forall p, p <> uri -> files fs' !! p = files fs !! p)
  /\ (forall d, d ∈ dirs fs' ->
        d ∈ dirs fs \/ exists n, d = above (path E) uri n).
Proof.
  cbv zeta. destruct (chainOf_above uri) as (k & Hchain & Hend).
  split; [|split; [|split]].
  - destruct (writeTarget_cases uri contents fs)
      as [(m & ->)|[(_ & ->)|[->|(m & ->)]]]; cbn [snd calls]; eauto 6.
  - intros Hclear.
    assert (forall a, In a (chainOf uri) -> files fs !! a = None) as Hfree.
    { intros a Ha. apply Hchain in Ha as (i & _ & ->). apply Hclear. }
    assert (forall i, i <= k ->
              above (path E) uri i ∈ dirs (snd (writeTarget E uri contents fs)))
      as Hmade.
    { intros i Hi. rewrite (writeTarget_made uri contents fs Hfree).
      apply elem_of_union_l, elem_of_list_to_set, list_elem_of_In, Hchain. eauto. }
    split; [exact (Hmade 0 ltac:(lia))|]. split; [exists k; auto|].
    intros Hsame. rewrite (writeTarget_skip uri contents fs Hsame Hfree).
    cbn [snd calls files]. auto.
  - intros p Hp.
    destruct (writeTarget_cases uri contents fs)
      as [(m & ->)|[(_ & ->)|[->|(m & ->)]]]; cbn [snd files]; try reflexivity.
    apply lookup_insert_ne. congruence.
  - intros d Hd.
    assert (d ∈ dirs fs \/ In d (chainOf uri)) as [H|H].
    { revert Hd.
      destruct (writeTarget_cases uri contents fs)
        as [(m & ->)|[(_ & ->)|[->|(m & ->)]]]; cbn [snd dirs];
        rewrite ?elem_of_union, ?elem_of_list_to_set, ?list_elem_of_In; tauto. }
    + now left.
    + right. apply Hchain in H as (i & _ & ->). eauto.
Qed.

End Writer.

(* ===================================================================== *)
(** * Concrete runs *)
(* ===================================================================== *)

Lemma tc_last_step {A} (R : relation A) x y : tc R x y -> exists z, R z y.
Proof. induction 1; eauto. Qed.

Lemma tc_first_step {A} (R : relation A) x y : tc R x y -> exists z, R x z.
Proof. destruct 1; eauto. Qed.

(** C1 (defect of the code).  On the transform set of the repository's
    own unit test -- the cycle B -> C -> D -> B, the transform A -> B into
    it and the transform A -> E -- the transform A -> E touches no node of
    any cycle (neither A nor E lies on one), yet [detectAndRemoveCycles]
    removes it with all the others: the active set is empty. *)
Theorem cycle_removal_drops_transform_outside_cycles :
  In (transform "/A" "/E") complexGraph
  /\ ~ on_cycle (buildGraph posixEnv complexGraph)
        (sourceKey posixEnv (transform "/A" "/E"))
  /\ ~ on_cycle (buildGraph posixEnv complexGraph)
        (targetKey posixEnv (transform "/A" "/E"))
  /\ option_map fst (detectAndRemoveCycles posixEnv complexGraph) = Some [].
Proof.
  split; [simpl; tauto|].
  split; [|split; [|vm_compute; reflexivity]].
  - intros H. apply tc_last_step in H as (z & Hz).
    unfold edge, neighborsOf in Hz.
    let g := eval vm_compute in (buildGraph posixEnv complexGraph) in
    change (buildGraph posixEnv complexGraph) with g in Hz.
    let k := eval vm_compute in (sourceKey posixEnv (transform "/A" "/E")) in
    change (sourceKey posixEnv (transform "/A" "/E")) with k in Hz.
    cbn [JsMap.get] in Hz.
    repeat match type of Hz with
           | context [String.eqb z ?k] => destruct (String.eqb z k)
           end;
      simpl in Hz; intuition discriminate.
  - intros H. apply tc_first_step in H as (z & Hz).
    vm_compute in Hz. exact Hz.
Qed.

(** C3, the case of the specification: [{nested: {a: 1, b: 2}}] in a
    first file and [{nested: {b: 9, c: 3}}] in a later one merge to
    [nested = {b: 9, c: 3}]; the key [a] of the earlier mapping is gone. *)
Example nested_mapping_is_replaced :
  let first := {| fsPath := "/w/.vscode/a.njk.yaml";
                  content := Parsed (VMap [("vars",
                    VMap [("nested", VMap [("a", VNum (integer 1)); ("b", VNum (integer 2))])])]) |} in
  let later := {| fsPath := "/w/.vscode/B.njk.yaml";
                  content := Parsed (VMap [("vars",
                    VMap [("nested", VMap [("b", VNum (integer 9)); ("c", VNum (integer 3))])])]) |} in
  option_map (fun w => variables (fst w))
    (performReload workspaceEnv [later; first] controller_init)
  = Some [("nested", VMap [("b", VNum (integer 9)); ("c", VNum (integer 3))])].
Proof. vm_compute. reflexivity. Qed.

(** The comparison of the concrete runs is consistent. *)
Lemma ascii_compare_refl (a : ascii) : Ascii.compare a a = Eq.
Proof. unfold Ascii.compare. apply N.compare_refl. Qed.

Lemma ascii_compare_Lt_trans (a b c : ascii) :
  Ascii.compare a b = Lt -> Ascii.compare b c = Lt -> Ascii.compare a c = Lt.
Proof.
  unfold Ascii.compare. rewrite !N.compare_lt_iff. apply N.lt_trans.
Qed.

Lemma string_compare_trans (a : string) : forall b c,
  String.compare a b <> Gt -> String.compare b c <> Gt -> String.compare a c <> Gt.
Proof.
  induction a as [|x a IH]; intros [|y b] [|z c]; cbn [String.compare];
    try congruence.
  destruct (Ascii.compare x y) eqn:Hxy; [| |congruence];
    destruct (Ascii.compare y z) eqn:Hyz; try congruence.
  - apply Ascii.compare_eq_iff in Hxy, Hyz. subst.
    rewrite ascii_compare_refl. apply IH.
  - apply Ascii.compare_eq_iff in Hxy. subst. rewrite Hyz. congruence.
  - apply Ascii.compare_eq_iff in Hyz. subst. rewrite Hxy. congruence.
  - rewrite (ascii_compare_Lt_trans _ _ _ Hxy Hyz). congruence.
Qed.

Lemma asciiCompare_consistent : consistent asciiCompare.
Proof.
  split.
  - intros a b. unfold asciiCompare. apply String.compare_antisym.
  - intros a b c. unfold asciiCompare. apply string_compare_trans.
Qed.

(** C3, a run: the four files of [threeFiles], as [findFiles] returns
    them, are merged in the order of their paths. *)
Lemma merged_variables_shallow_overwrite_run :
  exists st' diags order,
    performReload workspaceEnv threeFiles controller_init = Some (st', diags)
    /\ Permutation order threeFiles
    /\ inOrder (byPath workspaceEnv) order
    /\ keepsTies (byPath workspaceEnv) threeFiles order
    /\ forall k, JsMap.get k (variables st') = overwritten (omap declaredVars order) k.
Proof.
  apply (merged_variables_shallow_overwrite workspaceEnv threeFiles controller_init).
  exact asciiCompare_consistent.
Defined.

(** C3, the run in values: [a], [b], then [c] and [C], whose paths the
    comparison does not tell apart, in the order [findFiles] gave them;
    [shared] holds the value of [C], the last, and [only3] that of [c],
    the only file to declare it. *)
Example tied_paths_keep_the_order_found :
  option_map (fun w => variables (fst w))
    (performReload workspaceEnv threeFiles controller_init)
  = Some [("shared", VStr "C"); ("only3", VNum (integer 1))].
Proof. vm_compute. reflexivity. Qed.

(** C4, counterexample.  One configuration file names the source
    [tpl/a.njk] in two explicit transforms and covers it by a directory
    transform as well.  After the reload the combined list holds two
    transforms for that source, not one: both explicit ones. *)
Lemma explicit_source_named_twice :
  exists st diags,
    performReload workspaceEnv [sharedSourceConfig] controller_init = Some (st, diags)
    /\ map (collectTemplatesFromDirectory workspaceEnv) (directoryTransforms st)
       = [Ok [("/w/tpl/a.njk", "a.njk")]]
    /\ map (fun t => (source t, target t))
         (withSource workspaceEnv "/w/tpl/a.njk" (transforms st))
       = [("/w/tpl/a.njk", "/w/out/x"); ("/w/tpl/a.njk", "/w/out/y")].
Proof.
  destruct (performReload workspaceEnv [sharedSourceConfig] controller_init)
    as [[st diags]|] eqn:Hrun; [|vm_compute in Hrun; discriminate].
  exists st, diags. split; [reflexivity|].
  vm_compute in Hrun. injection Hrun as <- <-.
  split; vm_compute; reflexivity.
Qed.

(** C4, a run of the amended claim: with the explicit transform
    [tpl/a.njk -> out/x] configured and the derived entry
    [tpl/a.njk -> gen/a] discovered for the same source, the rebuilt list
    holds the explicit transform alone. *)
Lemma explicit_transforms_suppress_derived_run :
  withSource workspaceEnv "/w/tpl/a.njk"
    (transforms
       (rebuildTransformsList workspaceEnv
          {| transforms := [];
             configFileTransforms := [transform "/w/tpl/a.njk" "/w/out/x"];
             directoryTransforms := [];
             templateTransforms := [transform "/w/tpl/a.njk" "/w/gen/a"];
             variables := [];
             transformsBySource := [];
             sourceWatchers := [];
             lastTemplateCount := 0 |}))
  = [transform "/w/tpl/a.njk" "/w/out/x"].
Proof.
  apply (proj1 (proj2 (explicit_transforms_suppress_derived workspaceEnv))).
  vm_compute. reflexivity.
Defined.

(** C7, counterexample.  On a platform that is not win32, over a file
    system that ignores letter case, a transform whose target is the
    source in another spelling is not excluded: an entry is created. *)
Lemma case_variant_is_kept_off_win32 :
  let spec := {| spec_source := "/w/tpl/page.njk";
                 spec_target := "/w/tpl/PAGE.NJK";
                 spec_recursive := None |} in
  win32 caseInsensitiveEnv = false
  /\ toLowerCase (text caseInsensitiveEnv) (spec_source spec)
     = toLowerCase (text caseInsensitiveEnv) (spec_target spec)
  /\ existsSync caseInsensitiveEnv (spec_target spec) = true
  /\ fst (createFileTransformEntry caseInsensitiveEnv spec (Some "/w") "/w/.vscode")
     = Some {| source := "/w/tpl/page.njk";
               target := "/w/tpl/PAGE.NJK";
               searchPaths := ["/w/tpl"; "/w"];
               templateName := "page.njk";
               description := "/w/tpl/page.njk → /w/tpl/PAGE.NJK" |}.
Proof. vm_compute. repeat split. Qed.

(** C8 (defect of the code).  [deriveTemplateName] takes the first
    search path from which the relative path to the source neither
    begins with the two characters [..] nor is absolute: a test on the
    first characters, not on the first segment.  A template whose file
    name begins with two dots, [/w/tpl/..x.njk] in the workspace [/w], is
    a proper descendant of its own directory [/w/tpl], the first search
    path [buildSearchPaths] gives, at the relative path [..x.njk], which
    has no [..] segment; the name is to be [..x.njk].  The controller
    passes [/w/tpl] over and names the template from the workspace
    folder: [tpl/..x.njk].  This is the name the transform entry holds. *)
Theorem template_name_passes_over_directory_of_dotted_file :
  let sourcePath := "/w/tpl/..x.njk" in
  let searchPaths := buildSearchPaths workspaceEnv sourcePath (Some "/w") in
  searchPaths = ["/w/tpl"; "/w"]
  /\ relative (path workspaceEnv) "/w/tpl" sourcePath = "..x.njk"
  /\ properDescendant (path workspaceEnv) "/w/tpl" sourcePath = true
  /\ passes (path workspaceEnv) sourcePath "/w/tpl" = false
  /\ specTemplateName (path workspaceEnv) sourcePath searchPaths = "..x.njk"
  /\ deriveTemplateName workspaceEnv sourcePath searchPaths = "tpl/..x.njk"
  /\ fst (createFileTransformEntry workspaceEnv
            {| spec_source := "tpl/..x.njk";
               spec_target := "out/x";
               spec_recursive := None |} (Some "/w") "/w/.vscode")
     = Some {| source := "/w/tpl/..x.njk";
               target := "/w/out/x";
               searchPaths := ["/w/tpl"; "/w"];
               templateName := "tpl/..x.njk";
               description := "tpl/..x.njk → out/x" |}.
Proof. vm_compute. repeat split. Qed.

(** C6, a run: the first render of [/w/tpl/a.njk] into an empty file
    system makes [/w/out], misses the target and writes it; the second
    makes sure of the directory, reads the target and writes nothing. *)
Lemma second_render_writes_nothing_run :
  let t := transform "/w/tpl/a.njk" "/w/out/a" in
  let fs1 := fst (renderTransform posixEnv t "change" [] emptyFs) in
  let fs2 := fst (renderTransform posixEnv t "change" [] fs1) in
  calls fs2
  = (calls fs1 ++ [CreateDirectory (dirname (path posixEnv) (target t));
                   ReadFile (target t)])%list
  /\ files fs2 = files fs1
  /\ dirs fs2 = dirs fs1.
Proof.
  apply (second_render_writes_nothing posixEnv (transform "/w/tpl/a.njk" "/w/out/a")
           "change" [] emptyFs "rendered a.njk");
    vm_compute; reflexivity.
Defined.

Example first_render_writes :
  calls (fst (renderTransform posixEnv (transform "/w/tpl/a.njk" "/w/out/a")
                "change" [] emptyFs))
  = [CreateDirectory "/w/out"; ReadFile "/w/out/a";
     WriteFile "/w/out/a" "rendered a.njk"].
Proof. vm_compute. reflexivity. Qed.

(* ===================================================================== *)
(** * Further properties of the controller *)
(* ===================================================================== *)

(** ** Cycle detection *)

Lemma for_each_filter_snd {A} (drop : A -> bool) (note : A -> list Diag)
    (items : list A) : forall init,
  snd (for_each items init
         (fun kept item =>
            if drop item then bind (emit (note item)) (fun _ => ret kept)
            else ret (kept ++ [item])%list))
  = flat_map note (List.filter drop items).
Proof.
  induction items as [|x items IH]; intros init.
  - reflexivity.
  - rewrite for_each_cons, bind_snd. cbn [List.filter].
    destruct (drop x); simpl; rewrite IH; try rewrite app_nil_r; reflexivity.
Qed.

Lemma filter_length_split {A} (f : A -> bool) (l : list A) :
  List.length (List.filter f l)
  + List.length (List.filter (fun x => negb (f x)) l) = List.length l.
Proof.
  induction l as [|x l IH]; simpl; [reflexivity|].
  destruct (f x); simpl; lia.
Qed.

Lemma flat_map_pairs_length {A B} (f : A -> list B) (l : list A) :
  (forall x, List.length (f x) = 2) ->
  List.length (flat_map f l) = 2 * List.length l.
Proof.
  intros H. induction l as [|x l IH]; simpl; [reflexivity|].
  rewrite length_app, H, IH. lia.
Qed.

Section CycleRemoval.

Context (E : Env).

(** The result of [detectAndRemoveCycles] in terms of the set of marked
    nodes. *)
Lemma detectAndRemoveCycles_unfold ts :
  exists cycle,
    cycleNodesOf E ts = Some cycle
    /\ detectAndRemoveCycles E ts
       = Some (List.filter (fun t => negb (touchesCycle E cycle t)) ts,
               flat_map (removalReport E) (List.filter (touchesCycle E cycle) ts)).
Proof.
  destruct (cycleNodesOf_total E ts) as (cycle & Hc). exists cycle.
  split; [exact Hc|]. unfold detectAndRemoveCycles. rewrite Hc. f_equal.
  apply injective_projections.
  - apply (for_each_filter (touchesCycle E cycle) (removalReport E) ts []).
  - apply (for_each_filter_snd (touchesCycle E cycle) (removalReport E) ts []).
Qed.

(** X1.  [detectAndRemoveCycles] returns for every set of explicit
    transforms.  It keeps, in their order and unchanged, exactly the
    transforms whose canonical source and canonical target do not lead
    to a directed cycle of the source-to-target graph (a node leads to a
    cycle when it lies on one or on a path into one); in particular a
    transform with an end on a cycle is never kept. *)
Theorem cycle_removal_keeps_what_leads_to_no_cycle (ts : list FileTransformEntry) :
  exists kept diags,
    detectAndRemoveCycles E ts = Some (kept, diags)
    /\ sublist kept ts
    /\ (forall t, In t kept
                  <-> In t ts
                      /\ ~ leads_to_cycle (buildGraph E ts) (sourceKey E t)
                      /\ ~ leads_to_cycle (buildGraph E ts) (targetKey E t))
    /\ (forall t, on_cycle (buildGraph E ts) (sourceKey E t)
                  \/ on_cycle (buildGraph E ts) (targetKey E t) ->
                  ~ In t kept).
Proof.
  destruct (detectAndRemoveCycles_exact E ts) as (kept & diags & Hrun & Hsub & Hiff).
  exists kept, diags. split; [exact Hrun|]. split; [exact Hsub|]. split; [exact Hiff|].
  intros t Hcycle Hin. apply Hiff in Hin as (_ & Hs & Ht).
  destruct Hcycle as [Hc|Hc]; [apply Hs|apply Ht]; eexists; (split; [apply rtc_refl|exact Hc]).
Qed.

(** X2.  Every transform that [detectAndRemoveCycles] removes is
    reported by one line on the output channel and one warning, and
    nothing else is reported: the diagnostics are twice as many as the
    removed transforms. *)
Theorem cycle_removal_reports_each_removed (ts : list FileTransformEntry) :
  exists kept diags,
    detectAndRemoveCycles E ts = Some (kept, diags)
    /\ List.length diags = 2 * (List.length ts - List.length kept)
    /\ (forall t, In t ts -> ~ In t kept ->
          In (Out ("Nunjucksu: removed transform " ++ description t
                   ++ " (part of cycle)")) diags
          /\ In (Warn ("Nunjucksu: cycle detected in transforms involving "
                       ++ basename (path E) (source t))) diags)
    /\ (forall d, In d diags ->
          exists t, In t ts /\ ~ In t kept /\ In d (removalReport E t)).
Proof.
  destruct (detectAndRemoveCycles_unfold ts) as (cycle & _ & Hrun).
  eexists _, _. split; [exact Hrun|]. split; [|split].
  - rewrite flat_map_pairs_length by reflexivity.
    pose proof (filter_length_split (touchesCycle E cycle) ts). lia.
  - intros t Hin Hout.
    assert (In t (List.filter (touchesCycle E cycle) ts)) as Hdropped.
    { apply filter_In. split; [exact Hin|].
      destruct (touchesCycle E cycle t) eqn:Ht; [reflexivity|].
      exfalso. apply Hout, filter_In. rewrite Ht. auto. }
    split; apply in_flat_map; exists t; (split; [exact Hdropped|]);
      unfold removalReport; simpl; auto.
  - intros d Hd. apply in_flat_map in Hd as (t & Ht & Hd).
    apply filter_In in Ht as [Hin Htouch]. exists t.
    split; [exact Hin|]. split; [|exact Hd].
    intros Hkept. apply filter_In in Hkept as [_ Hk]. rewrite Htouch in Hk. discriminate.
Qed.

(** X3.  A set of transforms whose graph has no directed cycle passes
    [detectAndRemoveCycles] unchanged and without a diagnostic. *)
Theorem acyclic_transforms_pass_unchanged (ts : list FileTransformEntry) :
  (forall x, ~ on_cycle (buildGraph E ts) x) ->
  detectAndRemoveCycles E ts = Some (ts, []).
Proof.
  intros Hacyclic.
  destruct (detectAndRemoveCycles_unfold ts) as (cycle & Hc & ->).
  assert (forall t, touchesCycle E cycle t = false) as Hnone.
  { intros t. unfold touchesCycle.
    apply orb_false_iff. split; apply bool_decide_eq_false;
      rewrite (cycleNodesOf_exact E ts cycle Hc);
      intros (c & _ & Hcyc); exact (Hacyclic c Hcyc). }
  f_equal. f_equal.
  - clear Hacyclic Hc. induction ts as [|t l IH]; simpl; [reflexivity|].
    rewrite Hnone. simpl. f_equal. exact IH.
  - rewrite filter_none; [reflexivity|]. intros t _. apply Hnone.
Qed.

End CycleRemoval.

Lemma linearChain_acyclic x : ~ on_cycle (buildGraph posixEnv linearChain) x.
Proof.
  assert (forall y, finite_from (buildGraph posixEnv linearChain) y) as Hfin.
  { assert (finite_from (buildGraph posixEnv linearChain) "/C") as HC.
    { constructor. intros y Hy. vm_compute in Hy. destruct Hy. }
    assert (finite_from (buildGraph posixEnv linearChain) "/B") as HB.
    { constructor. intros y Hy. vm_compute in Hy. destruct Hy as [<-|[]]. exact HC. }
    intros y. constructor. intros z Hz. unfold edge, neighborsOf in Hz.
    let g := eval vm_compute in (buildGraph posixEnv linearChain) in
    change (buildGraph posixEnv linearChain) with g in Hz.
    cbn [JsMap.get] in Hz.
    repeat match type of Hz with
           | context [String.eqb y ?k] => destruct (String.eqb y k)
           end;
      simpl in Hz; first [destruct Hz as [<-|[]]; assumption | destruct Hz]. }
  intros Hc. apply (finite_not_leads _ x (Hfin x)).
  exists x. split; [apply rtc_refl|exact Hc].
Qed.

(** X3, a run: the linear chain A -> B -> C of the repository's unit
    test has no cycle and comes back whole. *)
Lemma acyclic_transforms_pass_unchanged_run :
  detectAndRemoveCycles posixEnv linearChain = Some (linearChain, []).
Proof.
  apply acyclic_transforms_pass_unchanged. exact linearChain_acyclic.
Defined.

(** ** The directory walk *)

(** Induction over a directory tree. *)
Lemma FsNode_induction (Q : FsNode -> Prop) :
  Q FsFile -> Q FsOther -> Q (FsDir None) ->
  (forall entries,
     (forall name child, In (name, child) entries -> Q child) ->
     Q (FsDir (Some entries))) ->
  forall node, Q node.
Proof.
  intros HF HO HN HD. fix IH 1. intros [| |[entries|]]; [exact HF|exact HO| |exact HN].
  apply HD. induction entries as [|[n c] entries IHe]; intros name child Hin.
  - destruct Hin.
  - destruct Hin as [Heq|Hin].
    + injection Heq as _ <-. apply IH.
    + exact (IHe name child Hin).
Qed.

Lemma fileAt_cons name child entries dirs file :
  fileAt (FsDir (Some ((name, child) :: entries))) dirs file
  <-> (dirs = [] /\ child = FsFile /\ file = name)
      \/ (exists dirs', dirs = name :: dirs' /\ fileAt child dirs' file)
      \/ fileAt (FsDir (Some entries)) dirs file.
Proof.
  split.
  - intros H. inversion H as [es f Hin|es d c ds f Hin Hbelow]; subst.
    + destruct Hin as [[= <- <-]|Hin]; [left; auto|].
      right. right. constructor. exact Hin.
    + destruct Hin as [[= <- <-]|Hin]; [right; left; eauto|].
      right. right. econstructor; eassumption.
  - intros [(-> & -> & ->)|[(dirs' & -> & H)|H]].
    + constructor. now left.
    + econstructor; [now left|exact H].
    + inversion H; subst; [constructor|econstructor]; try (right; eassumption); eassumption.
Qed.

Lemma fileAt_nil dirs file : ~ fileAt (FsDir (Some [])) dirs file.
Proof. intros H. inversion H; subst; contradiction. Qed.

Section Walk.

Context (E : Env).

(** What the head entry of a listing contributes to the walk. *)
Definition headFound (rootPath : string) (pre : list string) (recursive : bool)
    (name : string) (child : FsNode) (uri rel : string) : Prop :=
  (child = FsFile /\ isTemplate E name = true
   /\ rel = relativeOf (path E) (pre ++ [name])
   /\ uri = join (path E)
              [currentPathOf (path E) rootPath (relativeOf (path E) pre); name])
  \/ (exists dirs file,
        fileAt child dirs file /\ isTemplate E file = true /\ recursive = true
        /\ rel = relativeOf (path E) ((pre ++ [name]) ++ dirs ++ [file])
        /\ uri = join (path E)
                   [currentPathOf (path E) rootPath
                      (relativeOf (path E) ((pre ++ [name]) ++ dirs)); file]).

Lemma foundBelow_cons rootPath pre recursive name child entries fh fr :
  (forall uri rel, In (uri, rel) fh
                   <-> headFound rootPath pre recursive name child uri rel) ->
  foundBelow E rootPath pre recursive (FsDir (Some entries)) fr ->
  foundBelow E rootPath pre recursive (FsDir (Some ((name, child) :: entries)))
    (fh ++ fr).
Proof.
  intros Hh Hr uri rel. rewrite in_app_iff, Hh, (Hr uri rel). split.
  - intros [[(-> & Ht & -> & ->)|(dirs & file & Hf & Ht & Hrec & -> & ->)]
           |(dirs & file & Hf & Ht & Hrec & -> & ->)].
    + exists [], name. rewrite app_nil_r. repeat split; auto.
      apply fileAt_cons. left. auto.
    + exists (name :: dirs), file. rewrite <- !app_assoc. repeat split; auto.
      apply fileAt_cons. right. left. eauto.
    + exists dirs, file. repeat split; auto. apply fileAt_cons. auto.
  - intros (dirs & file & Hf & Ht & Hrec & -> & ->).
    apply fileAt_cons in Hf as [(-> & -> & ->)|[(dirs' & -> & Hf)|Hf]].
    + left. left. rewrite app_nil_r. auto.
    + left. right. exists dirs', file. rewrite <- !app_assoc.
      destruct Hrec as [Hrec|Hrec]; [|discriminate]. repeat split; auto.
    + right. exists dirs, file. auto.
Qed.

Lemma foundBelow_nil rootPath pre recursive :
  foundBelow E rootPath pre recursive (FsDir (Some [])) [].
Proof.
  intros uri rel. split; [intros []|].
  intros (dirs & file & Hf & _). destruct (fileAt_nil _ _ Hf).
Qed.

Lemma relativeOf_snoc names name :
  relativeOf (path E) (names ++ [name])
  = childRelative (path E) (relativeOf (path E) names) name.
Proof. unfold relativeOf. rewrite fold_left_app. reflexivity. Qed.

Lemma eachEntry_spec rootPath pre recursive entries :
  (forall name child, In (name, child) entries ->
     forall bucket out,
       walkDirectoryForTemplates E rootPath (relativeOf (path E) (pre ++ [name]))
         recursive child bucket = Ok out ->
       exists found, out = (bucket ++ found)%list
                     /\ foundBelow E rootPath (pre ++ [name]) recursive child found) ->
  forall bucket out,
    eachEntry E
      (fun childRelative child bucket =>
         walkDirectoryForTemplates E rootPath childRelative recursive child bucket)
      recursive (currentPathOf (path E) rootPath (relativeOf (path E) pre))
      (relativeOf (path E) pre) entries bucket = Ok out ->
    exists found, out = (bucket ++ found)%list
                  /\ foundBelow E rootPath pre recursive (FsDir (Some entries)) found.
Proof.
  induction entries as [|[name child] entries IH]; intros Hchildren bucket out Hrun.
  - simpl in Hrun. injection Hrun as <-. exists []. rewrite app_nil_r.
    split; [reflexivity|apply foundBelow_nil].
  - cbn [eachEntry] in Hrun.
    fold (childRelative (path E) (relativeOf (path E) pre) name) in Hrun.
    rewrite <- relativeOf_snoc in Hrun.
    assert (forall n c, In (n, c) entries ->
              forall bucket out,
                walkDirectoryForTemplates E rootPath (relativeOf (path E) (pre ++ [n]))
                  recursive c bucket = Ok out ->
                exists found, out = (bucket ++ found)%list
                              /\ foundBelow E rootPath (pre ++ [n]) recursive c found)
      as Hrest by (intros n c Hin; apply Hchildren; now right).
    specialize (IH Hrest).
    destruct child as [| |listing].
    + (* a regular file *)
      fold (isTemplate E name) in Hrun.
      destruct (isTemplate E name) eqn:Ht.
      * apply IH in Hrun as (fr & -> & Hfr).
        exists ((join (path E)
                   [currentPathOf (path E) rootPath (relativeOf (path E) pre); name],
                 relativeOf (path E) (pre ++ [name])) :: fr).
        split; [rewrite <- app_assoc; reflexivity|].
        apply (foundBelow_cons rootPath pre recursive name FsFile entries [_] fr);
          [|exact Hfr].
        intros uri rel. split.
        -- intros [[= <- <-]|[]]. left. auto.
        -- intros [(_ & _ & -> & ->)|(dirs & file & Hf & _)]; [now left|inversion Hf].
      * apply IH in Hrun as (fr & -> & Hfr). exists fr. split; [reflexivity|].
        apply (foundBelow_cons rootPath pre recursive name FsFile entries [] fr);
          [|exact Hfr].
        intros uri rel. split; [intros []|].
        intros [(_ & Ht' & _)|(dirs & file & Hf & _)]; [congruence|inversion Hf].
    + (* neither a file nor a directory *)
      apply IH in Hrun as (fr & -> & Hfr). exists fr. split; [reflexivity|].
      apply (foundBelow_cons rootPath pre recursive name FsOther entries [] fr);
        [|exact Hfr].
      intros uri rel. split; [intros []|].
      intros [(Hc & _)|(dirs & file & Hf & _)]; [discriminate|inversion Hf].
    + (* a directory *)
      destruct recursive eqn:Hrec.
      * destruct (walkDirectoryForTemplates E rootPath _ true (FsDir listing) bucket)
          as [bucket'|message] eqn:Hwalk; [|discriminate].
        apply (Hchildren name (FsDir listing) (or_introl eq_refl)) in Hwalk
          as (fc & -> & Hfc).
        apply IH in Hrun as (fr & -> & Hfr).
        exists (fc ++ fr)%list. split; [rewrite app_assoc; reflexivity|].
        apply (foundBelow_cons rootPath pre true name (FsDir listing) entries fc fr);
          [|exact Hfr].
        intros uri rel. rewrite (Hfc uri rel). split.
        -- intros (dirs & file & Hf & Ht & _ & -> & ->). right.
           exists dirs, file. auto.
        -- intros [(Hc & _)|(dirs & file & Hf & Ht & _ & -> & ->)]; [discriminate|].
           exists dirs, file. auto.
      * apply IH in Hrun as (fr & -> & Hfr). exists fr. split; [reflexivity|].
        apply (foundBelow_cons rootPath pre false name (FsDir listing) entries [] fr);
          [|exact Hfr].
        intros uri rel. split; [intros []|].
        intros [(Hc & _)|(dirs & file & _ & _ & Hr & _)]; discriminate.
Qed.

Lemma walk_spec rootPath recursive node :
  forall pre bucket out,
    walkDirectoryForTemplates E rootPath (relativeOf (path E) pre) recursive node bucket
    = Ok out ->
    exists found, out = (bucket ++ found)%list
                  /\ foundBelow E rootPath pre recursive node found.
Proof.
  induction node as [| | |entries IH] using FsNode_induction;
    intros pre bucket out Hrun; try discriminate.
  cbn [walkDirectoryForTemplates] in Hrun.
  apply (eachEntry_spec rootPath pre recursive entries); [|exact Hrun].
  intros name child Hin bucket' out' Hwalk. exact (IH name child Hin _ _ _ Hwalk).
Qed.

Lemma eachEntry_ok_children recurse recursive currentPath relativePath entries :
  forall bucket out,
    eachEntry E recurse recursive currentPath relativePath entries bucket = Ok out ->
    recursive = true ->
    forall name child, In (name, child) entries -> isDirectory child ->
      exists rel b o, recurse rel child b = Ok o.
Proof.
  induction entries as [|[n c] entries IH]; intros bucket out Hrun Hrec name child Hin Hdir.
  - destruct Hin.
  - cbn [eachEntry] in Hrun. subst recursive.
    destruct c as [| |listing].
    + destruct (Js.endsWith _ _); (destruct Hin as [[= <- <-]|Hin];
        [destruct Hdir; discriminate|exact (IH _ _ Hrun eq_refl name child Hin Hdir)]).
    + destruct Hin as [[= <- <-]|Hin];
        [destruct Hdir; discriminate|exact (IH _ _ Hrun eq_refl name child Hin Hdir)].
    + destruct (recurse _ (FsDir listing) bucket) as [b'|m] eqn:Hcall; [|discriminate].
      destruct Hin as [[= <- <-]|Hin]; [eauto|].
      exact (IH _ _ Hrun eq_refl name child Hin Hdir).
Qed.

Lemma eachEntry_ok recurse recursive currentPath relativePath entries :
  (recursive = true ->
   forall name child, In (name, child) entries -> isDirectory child ->
     forall rel b, exists o, recurse rel child b = Ok o) ->
  forall bucket,
    exists out,
      eachEntry E recurse recursive currentPath relativePath entries bucket = Ok out.
Proof.
  induction entries as [|[n c] entries IH]; intros Hok bucket; cbn [eachEntry].
  - eauto.
  - assert (recursive = true ->
            forall name child, In (name, child) entries -> isDirectory child ->
              forall rel b, exists o, recurse rel child b = Ok o) as Hrest
      by (intros Hrec name child Hin; apply (Hok Hrec name child); now right).
    specialize (IH Hrest).
    destruct c as [| |listing].
    + destruct (Js.endsWith _ _); apply IH.
    + apply IH.
    + destruct recursive; [|apply IH].
      destruct (Hok eq_refl n (FsDir listing) (or_introl eq_refl)
                  (ex_intro _ listing eq_refl)
                  (if Js.truthy relativePath
                   then join (path E) [relativePath; n] else n) bucket)
        as (o & ->).
      apply IH.
Qed.

(** The walk returns exactly when every directory it enters can be
    read. *)
Lemma walk_ok_iff rootPath recursive node :
  forall relativePath bucket,
    (exists out,
       walkDirectoryForTemplates E rootPath relativePath recursive node bucket = Ok out)
    <-> readable recursive node.
Proof.
  induction node as [| | |entries IH] using FsNode_induction;
    intros relativePath bucket.
  - split; [intros (out & H); discriminate|intros H; inversion H].
  - split; [intros (out & H); discriminate|intros H; inversion H].
  - split; [intros (out & H); discriminate|intros H; inversion H].
  - cbn [walkDirectoryForTemplates]. split.
    + intros (out & Hrun). constructor. intros Hrec name child Hin Hdir.
      destruct (eachEntry_ok_children _ _ _ _ _ _ _ Hrun Hrec name child Hin Hdir)
        as (rel & b & o & Hcall).
      apply (IH name child Hin rel b). eauto.
    + intros Hread. inversion Hread as [es Hsub]; subst.
      apply eachEntry_ok. intros Hrec name child Hin Hdir rel b.
      apply (IH name child Hin rel b). exact (Hsub Hrec name child Hin Hdir).
Qed.

(** X4.  When the scan of a directory transform returns, the templates
    it collected are exactly the regular files under [sourceDir] whose
    lower-cased name ends with the lower-cased extension, [toLowerCase]
    being that of the engine -- those of the whole readable subtree when the transform is recursive, only the
    direct children when it is not.  Each comes with the path the walk
    builds for it by joining the names on the way down, relative to
    [sourceDir] and below it.  Symbolic links and other entries that are
    neither files nor directories are passed over. *)
Theorem directory_scan_collects_exactly_the_templates
    (directoryTransform : DirectoryTransform) (found : list (string * string)) :
  collectTemplatesFromDirectory E directoryTransform = Ok found ->
  forall uri rel,
    In (uri, rel) found
    <-> exists dirs name,
          fileAt (nodeAt E (sourceDir directoryTransform)) dirs name
          /\ isTemplate E name = true
          /\ (recursive directoryTransform = true \/ dirs = [])
          /\ rel = relativeOf (path E) (dirs ++ [name])
          /\ uri = join (path E)
                     [currentPathOf (path E) (sourceDir directoryTransform)
                        (relativeOf (path E) dirs); name].
Proof.
  unfold collectTemplatesFromDirectory. intros Hrun.
  apply (walk_spec _ _ _ [] [] found) in Hrun as (f & -> & Hf).
  exact Hf.
Qed.

(** X5.  The scan of a directory transform returns exactly when
    [sourceDir] is a readable directory and, for a recursive transform,
    so is every directory below it; otherwise it throws and collects
    nothing.  A transform that is not recursive never reads a
    sub-directory. *)
Theorem directory_scan_returns_iff_readable (directoryTransform : DirectoryTransform) :
  (exists found, collectTemplatesFromDirectory E directoryTransform = Ok found)
  <-> readable (recursive directoryTransform)
        (nodeAt E (sourceDir directoryTransform)).
Proof. unfold collectTemplatesFromDirectory. apply walk_ok_iff. Qed.

End Walk.

(** X4, a run: the recursive scan of [/w/tpl] returns, and the template
    [b.njk] of its sub-directory [sub] is among what it collected, under
    the relative path [sub/b.njk]. *)
Lemma directory_scan_collects_exactly_the_templates_run :
  exists dirs name,
    fileAt tplTree dirs name
    /\ isTemplate workspaceEnv name = true
    /\ (true = true \/ dirs = [])
    /\ "sub/b.njk" = relativeOf (path workspaceEnv) (dirs ++ [name])
    /\ "/w/tpl/sub/b.njk"
       = join (path workspaceEnv)
           [currentPathOf (path workspaceEnv) "/w/tpl"
              (relativeOf (path workspaceEnv) dirs); name].
Proof.
  apply (proj1 (directory_scan_collects_exactly_the_templates workspaceEnv
                  {| sourceDir := "/w/tpl"; targetDir := "/w/gen"; recursive := true;
                     workspaceFolder := Some "/w"; dir_description := "tpl" |}
                  [("/w/tpl/a.njk", "a.njk"); ("/w/tpl/sub/b.njk", "sub/b.njk")]
                  ltac:(vm_compute; reflexivity)
                  "/w/tpl/sub/b.njk" "sub/b.njk")).
  right. left. reflexivity.
Defined.

(** ** Template extension *)





Lemma truthy_true s : Js.truthy s = true <-> s <> "".
Proof.
  unfold Js.truthy. rewrite negb_true_iff. split.
  - intros H ->. discriminate.
  - intros H. apply String.eqb_neq. exact H.
Qed.

Section Extension.

Context (E : Env).


(** X7.  With the template extension set to the empty string, every
    name counts as a template and [stripNjkExtension] answers the empty
    string for it: [value.slice(0, -0)] is [value.slice(0, 0)]. *)
Theorem empty_extension_strips_everything (value : string) :
  templateExtension E = "" ->
  isTemplate E value = true /\ stripNjkExtension E value = "".
Proof.
  intros Hext. unfold isTemplate, stripNjkExtension, Js.endsWith. rewrite Hext.
  rewrite toLowerCase_empty. cbn [String.length Nat.leb].
  rewrite Nat.sub_0_r.
  assert (forall s n, substring n 0 s = "") as Hnone.
  { induction s as [|c s IH]; intros [|n]; simpl; auto. }
  rewrite Hnone. split; reflexivity.
Qed.

End Extension.


(** X7, a run: with no extension configured, the file [notes.txt] is a
    template whose output name is empty. *)
Lemma empty_extension_strips_everything_run :
  isTemplate noExtensionEnv "notes.txt" = true
  /\ stripNjkExtension noExtensionEnv "notes.txt" = "".
Proof.
  exact (empty_extension_strips_everything noExtensionEnv "notes.txt" eq_refl).
Defined.

(** ** Search paths *)

Lemma existsb_eqb_In (n : string) (l : list string) :
  existsb (String.eqb n) l = true <-> In n l.
Proof.
  rewrite existsb_exists. split.
  - intros (x & Hx & Heq). apply String.eqb_eq in Heq. subst x. exact Hx.
  - intros Hin. exists n. split; [exact Hin|apply String.eqb_refl].
Qed.

Lemma unseen_app (seen l1 l2 : list string) :
  unseen seen (l1 ++ l2) = (unseen seen l1 ++ unseen seen l2)%list.
Proof. apply List.filter_app. Qed.

Lemma unseen_unseen (seen seen' l : list string) :
  unseen seen (unseen seen' l) = unseen (seen' ++ seen) l.
Proof.
  unfold unseen. induction l as [|x l IH]; simpl; [reflexivity|].
  rewrite existsb_app.
  destruct (existsb (String.eqb x) seen') eqn:H1; simpl.
  - exact IH.
  - destruct (existsb (String.eqb x) seen); simpl; rewrite IH; reflexivity.
Qed.

Lemma unseen_comm (seen seen' l : list string) :
  unseen (seen ++ seen') l = unseen (seen' ++ seen) l.
Proof.
  unfold unseen. apply List.filter_ext. intros x.
  rewrite !existsb_app, orb_comm. reflexivity.
Qed.

Lemma unseen_absorb (seen : list string) (n : string) (l : list string) :
  In n seen -> unseen seen (unseen [n] l) = unseen seen l.
Proof.
  intros Hin. rewrite unseen_unseen. unfold unseen. apply List.filter_ext.
  intros x. simpl. destruct (String.eqb x n) eqn:Hx; [|reflexivity].
  apply String.eqb_eq in Hx. subst x.
  apply existsb_eqb_In in Hin. rewrite Hin. reflexivity.
Qed.

Section SearchPaths.

Context (E : Env).

Lemma uniquePaths_fold paths : uniquePaths E paths = fold_left (addPath E) paths [].
Proof. reflexivity. Qed.

(** The loop of [uniquePaths] from any set of paths seen so far. *)
Lemma addPath_fold paths : forall seen,
  fold_left (addPath E) paths seen
  = (seen ++ unseen seen (fold_left (addPath E) paths []))%list.
Proof.
  induction paths as [|entry paths IH]; intros seen.
  - simpl. rewrite app_nil_r. reflexivity.
  - cbn [fold_left]. unfold addPath at 2 4.
    destruct (Js.truthy entry); [|apply IH].
    cbv zeta. cbn [existsb app].
    destruct (existsb (String.eqb (normalize (path E) entry)) seen) eqn:Hseen.
    + rewrite (IH seen), (IH [normalize (path E) entry]).
      rewrite unseen_app. unfold unseen at 2. cbn [List.filter]. rewrite Hseen.
      cbn [negb app]. f_equal. symmetry. apply unseen_absorb.
      apply existsb_eqb_In, Hseen.
    + rewrite (IH (seen ++ [normalize (path E) entry])%list),
        (IH [normalize (path E) entry]).
      rewrite unseen_app. unfold unseen at 2. cbn [List.filter]. rewrite Hseen.
      cbn [negb app]. rewrite <- app_assoc. cbn [app]. f_equal. f_equal.
      rewrite unseen_unseen. apply unseen_comm.
Qed.

Lemma addPath_fold_NoDup paths : forall seen,
  NoDup seen -> NoDup (fold_left (addPath E) paths seen).
Proof.
  induction paths as [|entry paths IH]; intros seen Hseen; [exact Hseen|].
  cbn [fold_left]. apply IH. unfold addPath.
  destruct (Js.truthy entry); [|exact Hseen]. cbv zeta.
  destruct (existsb _ seen) eqn:Hin; [exact Hseen|].
  apply NoDup_app. split; [exact Hseen|]. split; [|apply NoDup_singleton].
  intros x Hx Hx'. apply list_elem_of_singleton in Hx'. subst x.
  apply list_elem_of_In, existsb_eqb_In in Hx. congruence.
Qed.

Lemma addPath_fold_In paths : forall seen n,
  In n (fold_left (addPath E) paths seen)
  <-> In n seen
      \/ exists entry, In entry paths /\ entry <> "" /\ n = normalize (path E) entry.
Proof.
  induction paths as [|entry paths IH]; intros seen n.
  - simpl. split; [auto|intros [H|(e & [] & _)]; exact H].
  - cbn [fold_left]. rewrite IH. unfold addPath.
    destruct (Js.truthy entry) eqn:Htruthy.
    + apply truthy_true in Htruthy. cbv zeta.
      destruct (existsb _ seen) eqn:Hin.
      * apply existsb_eqb_In in Hin. split.
        -- intros [H|(e & He & Hne & ->)]; [auto|].
           right. exists e. split; [now right|auto].
        -- intros [H|(e & [<-|He] & Hne & ->)]; [auto|auto|].
           right. exists e. auto.
      * rewrite in_app_iff. simpl. split.
        -- intros [[H|[<-|[]]]|(e & He & Hne & ->)]; [auto| |].
           ++ right. exists entry. split; [now left|auto].
           ++ right. exists e. split; [now right|auto].
        -- intros [H|(e & [<-|He] & Hne & ->)]; [auto|auto|].
           right. exists e. auto.
    + assert (entry = "") as ->.
      { unfold Js.truthy in Htruthy. apply negb_false_iff, String.eqb_eq in Htruthy.
        exact Htruthy. }
      split.
      * intros [H|(e & He & Hne & ->)]; [auto|].
        right. exists e. split; [now right|auto].
      * intros [H|(e & [<-|He] & Hne & ->)]; [auto|contradiction|].
        right. exists e. auto.
Qed.

Lemma uniquePaths_spec (paths : list string) :
  NoDup (uniquePaths E paths)
  /\ (forall n, In n (uniquePaths E paths)
                <-> exists entry, In entry paths /\ entry <> ""
                                  /\ n = normalize (path E) entry)
  /\ ~ In "" (uniquePaths E paths).
Proof.
  rewrite uniquePaths_fold.
  assert (forall n, In n (fold_left (addPath E) paths [])
                    <-> exists entry, In entry paths /\ entry <> ""
                                      /\ n = normalize (path E) entry) as Hin.
  { intros n. rewrite addPath_fold_In. simpl. tauto. }
  split; [apply addPath_fold_NoDup, NoDup_nil_2|]. split; [exact Hin|].
  intros Hempty. apply Hin in Hempty as (entry & _ & _ & Heq).
  symmetry in Heq. exact (normalize_nonempty (path E) entry Heq).
Qed.

Lemma uniquePaths_keeps_first_occurrence_aux (entry : string) (paths : list string) :
  entry <> "" ->
  uniquePaths E (entry :: paths)
  = normalize (path E) entry
    :: List.filter (fun n => negb (String.eqb n (normalize (path E) entry)))
         (uniquePaths E paths).
Proof.
  intros Hentry. rewrite !uniquePaths_fold. cbn [fold_left].
  unfold addPath at 2. rewrite (proj2 (truthy_true entry) Hentry).
  cbv zeta. cbn [existsb app]. rewrite addPath_fold. cbn [app]. f_equal.
  unfold unseen. apply List.filter_ext. intros n. simpl.
  rewrite orb_false_r. reflexivity.
Qed.

(** X8.  [uniquePaths] returns the normalized forms of the non-empty
    paths it is given, each once: no path occurs twice in the result, and
    the empty string never occurs in it. *)
Theorem uniquePaths_holds_each_normalized_path_once (paths : list string) :
  NoDup (uniquePaths E paths)
  /\ (forall n, In n (uniquePaths E paths)
                <-> exists entry, In entry paths /\ entry <> ""
                                  /\ n = normalize (path E) entry)
  /\ ~ In "" (uniquePaths E paths).
Proof. exact (uniquePaths_spec paths). Qed.

(** X9.  [uniquePaths] keeps the order of first occurrence: a non-empty
    path at the head of the list comes first in the result, normalized,
    and the rest of the result is what the rest of the list gives, less
    that path. *)
Theorem uniquePaths_keeps_first_occurrence (entry : string) (paths : list string) :
  entry <> "" ->
  uniquePaths E (entry :: paths)
  = normalize (path E) entry
    :: List.filter (fun n => negb (String.eqb n (normalize (path E) entry)))
         (uniquePaths E paths).
Proof. exact (uniquePaths_keeps_first_occurrence_aux entry paths). Qed.

(** X10.  The search paths of a source begin with the directory of the
    source, normalized, which does not come again; no search path occurs
    twice and none is empty; and the workspace folder is among them. *)
Theorem buildSearchPaths_begins_with_source_directory (sourcePath : string)
    (workspaceFolder : option string) :
  dirname (path E) sourcePath <> "" ->
  exists rest,
    buildSearchPaths E sourcePath workspaceFolder
    = normalize (path E) (dirname (path E) sourcePath) :: rest
    /\ ~ In (normalize (path E) (dirname (path E) sourcePath)) rest
    /\ NoDup rest
    /\ ~ In "" rest
    /\ (forall w, workspaceFolder = Some w -> w <> "" ->
          In (normalize (path E) w) (buildSearchPaths E sourcePath workspaceFolder)).
Proof.
  intros Hdir. unfold buildSearchPaths.
  set (start := match workspaceFolder with
                | Some w => ([dirname (path E) sourcePath] ++ [w])%list
                | None => [dirname (path E) sourcePath]
                end).
  assert (forall extra acc,
            exists tail,
              fold_left
                (fun paths additionalPath =>
                   (paths ++ [match workspaceFolder with
                              | Some w => resolve (path E) [w; additionalPath]
                              | None => resolve (path E) [additionalPath]
                              end])%list) extra acc
              = (acc ++ tail)%list) as Hgrow.
  { induction extra as [|a extra IH]; intros acc; cbn [fold_left].
    - exists []. rewrite app_nil_r. reflexivity.
    - destruct (IH (acc ++ [match workspaceFolder with
                            | Some w => resolve (path E) [w; a]
                            | None => resolve (path E) [a]
                            end])%list) as (tail & ->).
      rewrite <- app_assoc. eauto. }
  destruct (Hgrow (additionalSearchPaths E) start) as (tail & ->).
  assert (exists more, (start ++ tail)%list = dirname (path E) sourcePath :: more
                       /\ forall w, workspaceFolder = Some w -> In w more)
    as (more & -> & Hw).
  { subst start. destruct workspaceFolder as [w|]; cbn [app].
    - eexists. split; [reflexivity|]. intros w' [= <-]. now left.
    - eexists. split; [reflexivity|]. intros w' [=]. }
  rewrite (uniquePaths_keeps_first_occurrence_aux _ _ Hdir).
  eexists. split; [reflexivity|].
  destruct (uniquePaths_spec more) as (Hnodup & Hin & Hempty).
  split; [|split; [|split; [|]]].
  - intros H. apply filter_In in H as [_ H].
    rewrite String.eqb_refl in H. discriminate.
  - apply NoDup_ListNoDup, List.NoDup_filter, NoDup_ListNoDup, Hnodup.
  - intros H. apply filter_In in H as [H _]. exact (Hempty H).
  - intros w Heq Hne.
    destruct (String.eqb (normalize (path E) w)
                (normalize (path E) (dirname (path E) sourcePath))) eqn:Hsame.
    + apply String.eqb_eq in Hsame. rewrite Hsame. now left.
    + right. apply filter_In. rewrite Hsame. split; [|reflexivity].
      apply Hin. exists w. auto.
Qed.

End SearchPaths.

(** X9, a run: of [/w/tpl], [/w], [/w/tpl] and the empty path, the
    first stays first and does not come again. *)
Lemma uniquePaths_keeps_first_occurrence_run :
  uniquePaths posixEnv ["/w/tpl"; "/w"; "/w/tpl"; ""]
  = normalize (path posixEnv) "/w/tpl"
    :: List.filter (fun n => negb (String.eqb n (normalize (path posixEnv) "/w/tpl")))
         (uniquePaths posixEnv ["/w"; "/w/tpl"; ""]).
Proof.
  exact (uniquePaths_keeps_first_occurrence posixEnv "/w/tpl" ["/w"; "/w/tpl"; ""]
           ltac:(discriminate)).
Defined.

(** X10, a run: the search paths of [/w/tpl/a.njk] in the workspace
    [/w] begin with [/w/tpl]. *)
Lemma buildSearchPaths_begins_with_source_directory_run :
  exists rest,
    buildSearchPaths workspaceEnv "/w/tpl/a.njk" (Some "/w")
    = normalize (path workspaceEnv) (dirname (path workspaceEnv) "/w/tpl/a.njk") :: rest
    /\ ~ In (normalize (path workspaceEnv) (dirname (path workspaceEnv) "/w/tpl/a.njk"))
           rest
    /\ NoDup rest
    /\ ~ In "" rest
    /\ (forall w, Some "/w" = Some w -> w <> "" ->
          In (normalize (path workspaceEnv) w)
            (buildSearchPaths workspaceEnv "/w/tpl/a.njk" (Some "/w"))).
Proof.
  exact (buildSearchPaths_begins_with_source_directory workspaceEnv "/w/tpl/a.njk"
           (Some "/w") ltac:(vm_compute; discriminate)).
Defined.

(** ** Reading a configuration *)

Lemma bind_ext {A B} (m : W A) (k k' : A -> W B) :
  (forall a, k a = k' a) -> bind m k = bind m k'.
Proof. intros Hext. destruct m as [a d]. unfold bind. rewrite Hext. reflexivity. Qed.

Lemma for_each_ext {A S} (body body' : S -> A -> W S) (items : list A) :
  (forall s x, body s x = body' s x) ->
  forall init, for_each items init body = for_each items init body'.
Proof.
  intros Hext. induction items as [|x items IH]; intros init.
  - reflexivity.
  - rewrite !for_each_cons, Hext. apply bind_ext. exact IH.
Qed.

(** A loop that turns each item into a result or a report. *)
Lemma for_each_omap {A B} (f : A -> option B) (note : A -> list Diag)
    (items : list A) : forall init,
  for_each items init
    (fun acc x =>
       match f x with
       | Some b => ret (acc ++ [b])%list
       | None => bind (emit (note x)) (fun _ => ret acc)
       end)
  = ((init ++ omap f items)%list,
     flat_map (fun x => match f x with Some _ => [] | None => note x end) items).
Proof.
  induction items as [|x items IH]; intros init.
  - unfold for_each, ret. simpl. rewrite app_nil_r. reflexivity.
  - rewrite for_each_cons. cbn [omap list_omap flat_map].
    destruct (f x) as [b|].
    + rewrite bind_ret_l, IH, <- app_assoc. reflexivity.
    + rewrite bind_assoc. unfold emit, bind at 1. rewrite bind_ret_l, IH.
      reflexivity.
Qed.


Lemma normalizeTransform_ends entry spec :
  normalizeTransform entry = Some spec ->
  spec_source spec <> "" /\ spec_target spec <> "".
Proof.
  unfold normalizeTransform. destruct (isPlainObject entry); [|discriminate].
  cbn [negb].
  destruct (coercePath (prop "source" entry)) as [s|]; [|discriminate].
  destruct (coercePath (prop "target" entry)) as [t|]; [|discriminate].
  destruct (Js.truthy s) eqn:Hs; [|discriminate].
  destruct (Js.truthy t) eqn:Ht; [|discriminate].
  intros [= <-]. split; apply truthy_true; assumption.
Qed.

Lemma mappingEntrySpec_target kv spec :
  mappingEntrySpec kv = Some spec -> spec_target spec <> "".
Proof.
  unfold mappingEntrySpec, spec_of_target_object.
  destruct (coercePath (Some kv.2)) as [d|].
  - destruct (Js.truthy d) eqn:Hd; [|discriminate].
    intros [= <-]. apply truthy_true, Hd.
  - destruct (isPlainObject kv.2); [|discriminate].
    destruct (coercePath (prop "target" kv.2)) as [t|]; [|discriminate].
    destruct (Js.truthy t) eqn:Ht; [|discriminate].
    intros [= <-]. apply truthy_true, Ht.
Qed.

(** The loop over the keys of a [transforms] mapping. *)
Lemma mapping_loop (record : list (string * Value)) (configPath : string) :
  for_each record []
    (fun specs kv =>
       let sourceKey := fst kv in
       let targetSpec := snd kv in
       match coercePath (Some targetSpec) with
       | Some directTarget =>
           if Js.truthy directTarget then
             ret (specs ++ [ {| spec_source := sourceKey;
                                spec_target := directTarget;
                                spec_recursive := None |} ])%list
           else
             bind (emit
               [Out ("Nunjucksu: transform '" ++ sourceKey ++ "' in "
                     ++ configPath ++ " is invalid and was ignored.")])
               (fun _ => ret specs)
       | None =>
           match spec_of_target_object sourceKey targetSpec with
           | Some spec => ret (specs ++ [spec])%list
           | None =>
               bind (emit
                 [Out ("Nunjucksu: transform '" ++ sourceKey ++ "' in "
                       ++ configPath ++ " is invalid and was ignored.")])
                 (fun _ => ret specs)
           end
       end)
  = (omap mappingEntrySpec record,
     flat_map (fun kv => match mappingEntrySpec kv with
                         | Some _ => []
                         | None =>
                             [Out ("Nunjucksu: transform '" ++ fst kv ++ "' in "
                                   ++ configPath ++ " is invalid and was ignored.")]
                         end) record).
Proof.
  etransitivity;
    [|exact (for_each_omap mappingEntrySpec
               (fun kv => [Out ("Nunjucksu: transform '" ++ fst kv ++ "' in "
                                ++ configPath ++ " is invalid and was ignored.")])
               record [])].
  apply for_each_ext. intros specs kv. cbv zeta. unfold mappingEntrySpec.
  destruct (coercePath (Some kv.2)) as [d|]; [destruct (Js.truthy d)|]; reflexivity.
Qed.

Lemma extractTransformSpecs_mapping (record : list (string * Value))
    (configPath : string) :
  extractTransformSpecs (Some (VMap record)) configPath
  = let keyByKey :=
      (omap mappingEntrySpec record,
       flat_map (fun kv => match mappingEntrySpec kv with
                           | Some _ => []
                           | None =>
                               [Out ("Nunjucksu: transform '" ++ fst kv ++ "' in "
                                     ++ configPath ++ " is invalid and was ignored.")]
                           end) record) in
    match coercePath (JsMap.get "source" record),
          coercePath (JsMap.get "target" record) with
    | Some s, Some t =>
        if Js.truthy s && Js.truthy t
        then ([ {| spec_source := s; spec_target := t;
                   spec_recursive := boolean_of (JsMap.get "recursive" record) |} ], [])
        else keyByKey
    | _, _ => keyByKey
    end.
Proof.
  cbv zeta. rewrite <- (mapping_loop record configPath). reflexivity.
Qed.

Lemma transforms_array_entries_are_kept_or_reported_aux (items : list Value)
    (configPath : string) :
  Forall (fun spec => spec_source spec <> "" /\ spec_target spec <> "")
    (fst (extractTransformSpecs (Some (VSeq items)) configPath)).
Proof.
  unfold extractTransformSpecs. cbn [truthy_value negb].
  rewrite (for_each_omap normalizeTransform
             (fun _ => [Out ("Nunjucksu: skipped invalid transform entry in "
                             ++ configPath ++ ".")]) items []).
  cbn [fst app]. apply Forall_forall. intros spec Hin.
  apply list_elem_of_omap in Hin as (entry & _ & Hspec).
  exact (normalizeTransform_ends entry spec Hspec).
Qed.



(** X13.  Whatever the [transforms] section holds, no spec read from it
    has an empty target. *)
Theorem no_spec_has_an_empty_target (raw : option Value) (configPath : string) :
  Forall (fun spec => spec_target spec <> "")
    (fst (extractTransformSpecs raw configPath)).
Proof.
  destruct raw as [[| | | |items|record]|];
    try (unfold extractTransformSpecs; cbn [truthy_value negb];
         repeat match goal with
                | |- context [if ?c then _ else _] => destruct c
                end; cbn [fst ret]; rewrite ?bind_fst; apply Forall_nil_2).
  - eapply Forall_impl;
      [apply (transforms_array_entries_are_kept_or_reported_aux items configPath)|].
    intros spec [_ H]. exact H.
  - rewrite extractTransformSpecs_mapping. cbv zeta.
    assert (Forall (fun spec => spec_target spec <> "")
              (omap mappingEntrySpec record)) as Heach.
    { apply Forall_forall. intros spec Hin.
      apply list_elem_of_omap in Hin as (kv & _ & Hspec).
      exact (mappingEntrySpec_target kv spec Hspec). }
    destruct (coercePath (JsMap.get "source" record)) as [s|]; [|exact Heach].
    destruct (coercePath (JsMap.get "target" record)) as [t|]; [|exact Heach].
    destruct (Js.truthy s && Js.truthy t) eqn:Hst; [|exact Heach].
    apply andb_true_iff in Hst as [_ Ht]. cbn [fst ret].
    apply Forall_cons_2; [apply truthy_true, Ht|apply Forall_nil_2].
Qed.

Section Classification.

Context (E : Env).

Lemma createDirectoryTransform_Some spec workspaceFolder configDir :
  createDirectoryTransform E spec workspaceFolder configDir
  = Some {| sourceDir :=
              normalize (path E)
                (resolvePath E (spec_source spec) workspaceFolder configDir);
            targetDir :=
              normalize (path E)
                (resolvePath E (spec_target spec) workspaceFolder configDir);
            recursive :=
              match spec_recursive spec with Some b => b | None => false end;
            workspaceFolder := workspaceFolder;
            dir_description :=
              spec_source spec ++ " → " ++ spec_target spec
              ++ (if match spec_recursive spec with Some b => b | None => false end
                  then " (recursive)" else "") |}.
Proof.
  unfold createDirectoryTransform. rewrite !resolvePath_nonempty. reflexivity.
Qed.

(** X14.  [createDirectoryTransform] never rejects a spec: a resolved
    path is a normalized path, which is never empty, so the test for an
    empty source or target directory cannot succeed.  The directory
    transform is recursive only when the spec says [recursive: true]. *)
Theorem createDirectoryTransform_never_rejects (spec : TransformSpec)
    (workspaceFolder : option string) (configDir : string) :
  exists d,
    createDirectoryTransform E spec workspaceFolder configDir = Some d
    /\ sourceDir d <> "" /\ targetDir d <> ""
    /\ (recursive d = true <-> spec_recursive spec = Some true).
Proof.
  rewrite createDirectoryTransform_Some. eexists. split; [reflexivity|].
  cbn [sourceDir targetDir recursive].
  split; [apply normalize_nonempty|]. split; [apply normalize_nonempty|].
  destruct (spec_recursive spec) as [[]|]; split; congruence.
Qed.

(** The loop of [readConfig] over the specs. *)
Lemma readConfig_loop workspaceFolder configDir (specs : list TransformSpec) :
  forall acc,
    fst (for_each specs acc
           (fun acc spec =>
              let fileTransforms := fst acc in
              let directoryTransforms := snd acc in
              match spec_recursive spec with
              | Some _ =>
                  match createDirectoryTransform E spec workspaceFolder configDir with
                  | Some directoryEntry =>
                      ret (fileTransforms,
                           (directoryTransforms ++ [directoryEntry])%list)
                  | None => ret acc
                  end
              | None =>
                  bind (createFileTransformEntry E spec workspaceFolder configDir)
                    (fun entry =>
                       match entry with
                       | Some e =>
                           ret ((fileTransforms ++ [e])%list, directoryTransforms)
                       | None => ret acc
                       end)
              end))
    = ((fst acc
        ++ omap (fun spec => fst (createFileTransformEntry E spec workspaceFolder
                                    configDir))
             (List.filter (fun spec => negb (isDirectorySpec spec)) specs))%list,
       (snd acc
        ++ omap (fun spec => createDirectoryTransform E spec workspaceFolder configDir)
             (List.filter isDirectorySpec specs))%list).
Proof.
  induction specs as [|spec specs IH]; intros [files dirs'].
  - simpl. rewrite !app_nil_r. reflexivity.
  - rewrite for_each_cons, bind_fst, IH. cbv zeta. cbn [List.filter fst snd].
    destruct (spec_recursive spec) as [b|] eqn:Hrec.
    + assert (isDirectorySpec spec = true) as ->
        by (unfold isDirectorySpec; rewrite Hrec; reflexivity).
      cbn [negb omap list_omap].
      destruct (createDirectoryTransform E spec workspaceFolder configDir);
        cbn [fst snd ret]; rewrite <- ?app_assoc; reflexivity.
    + assert (isDirectorySpec spec = false) as ->
        by (unfold isDirectorySpec; rewrite Hrec; reflexivity).
      cbn [negb omap list_omap]. rewrite bind_fst.
      destruct (fst (createFileTransformEntry E spec workspaceFolder configDir));
        cbn [fst snd ret]; rewrite <- ?app_assoc; reflexivity.
Qed.

(** X15.  [readConfig] sorts the specs of a configuration file by
    whether they say [recursive]: a spec with [recursive: true] or
    [recursive: false] becomes a directory transform and never a file
    transform, every such spec does, and the specs without [recursive]
    become file transforms unless [createFileTransformEntry] drops them.
    Both lists keep the order of the specs. *)
Theorem readConfig_sorts_specs_by_recursive (file : ConfigFile)
    (loaded : W (Vars * list FileTransformEntry * list DirectoryTransform)) :
  readConfig E file = Ok loaded ->
  let workspaceFolder := workspaceFolderOf E (fsPath file) in
  let configDir := dirname (path E) (fsPath file) in
  snd (fst loaded)
  = omap (fun spec => createDirectoryTransform E spec workspaceFolder configDir)
      (List.filter isDirectorySpec (declaredSpecs file))
  /\ List.length (snd (fst loaded))
     = List.length (List.filter isDirectorySpec (declaredSpecs file))
  /\ snd (fst (fst loaded))
     = omap (fun spec => fst (createFileTransformEntry E spec workspaceFolder configDir))
         (List.filter (fun spec => negb (isDirectorySpec spec)) (declaredSpecs file)).
Proof.
  unfold readConfig, declaredSpecs.
  destruct (content file) as [m|m|doc]; try discriminate.
  fold (rootOf doc).
  destruct (isPlainObject (rootOf doc)); [|discriminate].
  cbn [negb]. intros [= <-]. cbv zeta.
  rewrite !bind_fst. cbn [fst snd ret].
  rewrite readConfig_loop. cbn [fst snd app].
  split; [reflexivity|]. split; [|reflexivity].
  induction (List.filter isDirectorySpec _) as [|spec specs IH]; [reflexivity|].
  cbn [omap list_omap]. rewrite createDirectoryTransform_Some.
  cbn [List.length]. f_equal. exact IH.
Qed.

End Classification.

(** X15, a run: of the three entries of [mixedConfig] the one with
    [recursive: false] becomes the one directory transform, and the one
    without target is no spec at all. *)
Lemma readConfig_sorts_specs_by_recursive_run :
  let loaded :=
    ((([] : Vars), [ {| source := "/w/tpl/a.njk"; target := "/w/out/a";
               searchPaths := ["/w/tpl"; "/w"];
               templateName := "a.njk";
               description := "tpl/a.njk → out/a" |} ],
      [ {| sourceDir := "/w/tpl"; targetDir := "/w/gen"; recursive := false;
           workspaceFolder := Some "/w"; dir_description := "tpl → gen" |} ]),
     [Out "Nunjucksu: skipped invalid transform entry in /w/.vscode/site.njk.yaml."]) in
  snd (fst loaded)
  = omap (fun spec => createDirectoryTransform workspaceEnv spec
                        (workspaceFolderOf workspaceEnv (fsPath mixedConfig))
                        (dirname (path workspaceEnv) (fsPath mixedConfig)))
      (List.filter isDirectorySpec (declaredSpecs mixedConfig))
  /\ List.length (snd (fst loaded))
     = List.length (List.filter isDirectorySpec (declaredSpecs mixedConfig))
  /\ snd (fst (fst loaded))
     = omap (fun spec => fst (createFileTransformEntry workspaceEnv spec
                                (workspaceFolderOf workspaceEnv (fsPath mixedConfig))
                                (dirname (path workspaceEnv) (fsPath mixedConfig))))
         (List.filter (fun spec => negb (isDirectorySpec spec))
            (declaredSpecs mixedConfig)).
Proof.
  exact (readConfig_sorts_specs_by_recursive workspaceEnv mixedConfig _
           ltac:(vm_compute; reflexivity)).
Defined.

(** ** The index of the source watchers *)

Lemma In_set {V} (k k' : string) (v v' : V) (m : JsMap.t V) :
  In (k', v') (JsMap.set k v m) -> (k' = k /\ v' = v) \/ In (k', v') m.
Proof.
  induction m as [|[k0 v0] m IH]; simpl.
  - intros [[= <- <-]|[]]. auto.
  - destruct (String.eqb k k0); simpl.
    + intros [[= <- <-]|H]; auto.
    + intros [H|H]; [auto|]. destruct (IH H); auto.
Qed.

Lemma In_NoDup_get {V} (k : string) (v : V) (m : JsMap.t V) :
  NoDup (JsMap.keys m) -> In (k, v) m -> JsMap.get k m = Some v.
Proof.
  induction m as [|[k0 v0] m IH]; intros Hnodup Hin; [destruct Hin|].
  unfold JsMap.keys in Hnodup. simpl in Hnodup.
  apply NoDup_cons in Hnodup as [Hk0 Hm]. simpl.
  destruct Hin as [[= -> ->]|Hin].
  - rewrite String.eqb_refl. reflexivity.
  - destruct (String.eqb k k0) eqn:Hk; [|exact (IH Hm Hin)].
    apply String.eqb_eq in Hk. subst k0. exfalso. apply Hk0.
    apply list_elem_of_In. change k with (fst (k, v)). apply in_map, Hin.
Qed.

Section Watchers.

Context (E : Env).

Lemma rebuildSourceWatchers_index st :
  transformsBySource (rebuildSourceWatchers E st)
  = fold_left (indexStep E) (transforms st) JsMap.empty.
Proof. reflexivity. Qed.

Lemma rebuildSourceWatchers_watchers st :
  sourceWatchers (rebuildSourceWatchers E st)
  = omap watchedSource (JsMap.values (transformsBySource (rebuildSourceWatchers E st))).
Proof. reflexivity. Qed.

Lemma index_get key ts : forall m,
  JsMap.get key (fold_left (indexStep E) ts m)
  = match JsMap.get key m with
    | Some existing => Some (existing ++ withSource E key ts)%list
    | None => match withSource E key ts with [] => None | l => Some l end
    end.
Proof.
  induction ts as [|t ts IH]; intros m; cbn [fold_left].
  - simpl. destruct (JsMap.get key m); [rewrite app_nil_r|]; reflexivity.
  - rewrite IH. unfold indexStep at 1. cbv zeta. unfold withSource.
    cbn [List.filter]. fold (sourceKey E t).
    destruct (String.eqb (sourceKey E t) key) eqn:Hkey.
    + apply String.eqb_eq in Hkey. subst key.
      destruct (JsMap.get (sourceKey E t) m) as [existing|] eqn:Hget;
        rewrite get_set, String.eqb_refl.
      * rewrite <- app_assoc. reflexivity.
      * reflexivity.
    + assert (String.eqb key (sourceKey E t) = false) as Hkey'
        by (rewrite String.eqb_sym; exact Hkey).
      destruct (JsMap.get (sourceKey E t) m) as [existing|];
        rewrite get_set, Hkey'; reflexivity.
Qed.

Lemma index_NoDup ts : forall m,
  NoDup (JsMap.keys m) -> NoDup (JsMap.keys (fold_left (indexStep E) ts m)).
Proof.
  induction ts as [|t ts IH]; intros m Hm; [exact Hm|].
  cbn [fold_left]. apply IH. unfold indexStep. cbv zeta.
  destruct (JsMap.get _ m); apply set_NoDup_keys, Hm.
Qed.

Lemma index_grouped ts : forall m,
  grouped E m -> grouped E (fold_left (indexStep E) ts m).
Proof.
  induction ts as [|t ts IH]; intros m Hm; [exact Hm|].
  cbn [fold_left]. apply IH. unfold indexStep. cbv zeta.
  fold (sourceKey E t).
  destruct (JsMap.get (sourceKey E t) m) as [existing|] eqn:Hget;
    intros k l Hin; apply In_set in Hin as [[-> ->]|Hin]; try exact (Hm k l Hin).
  - split; [intros Heq; apply app_eq_nil in Heq as [_ Heq]; discriminate|].
    intros t' Hin. apply in_app_iff in Hin as [Hin|[<-|[]]]; [|reflexivity].
    apply get_In in Hget. exact (proj2 (Hm _ _ Hget) t' Hin).
  - split; [discriminate|]. intros t' [<-|[]]. reflexivity.
Qed.

Lemma watchers_of_grouped (m : JsMap.t (list FileTransformEntry)) :
  grouped E m ->
  map (normalizeFsPath E) (omap watchedSource (JsMap.values m)) = JsMap.keys m.
Proof.
  induction m as [|[k l] m IH]; intros Hm; [reflexivity|].
  unfold JsMap.values, JsMap.keys. cbn [map omap list_omap fst snd].
  destruct (Hm k l (or_introl eq_refl)) as [Hne Hkey].
  destruct l as [|e l]; [contradiction|]. cbn [watchedSource map].
  f_equal.
  - exact (Hkey e (or_introl eq_refl)).
  - apply IH. intros k' l' Hin. apply Hm. now right.
Qed.

(** X16.  After [rebuildSourceWatchers], the index [transformsBySource]
    holds under each canonical source exactly the transforms of the
    combined list with that source, in the order of the list, and holds
    nothing under a path that is the source of no transform.  This is
    the list [handleSourceEvent] renders on an event for the source. *)
Theorem index_groups_transforms_by_source (st : Controller) (key : string) :
  JsMap.get key (transformsBySource (rebuildSourceWatchers E st))
  = match withSource E key (transforms st) with
    | [] => None
    | entries => Some entries
    end.
Proof. rewrite rebuildSourceWatchers_index, index_get. reflexivity. Qed.

(** X17.  [rebuildSourceWatchers] makes one watcher for each canonical
    source of the combined list and no other: the watched paths are
    sources of transforms of the list, their canonical forms are the
    keys of the index, pairwise different, and the canonical source of
    every transform is among them. *)
Theorem one_watcher_for_each_source (st : Controller) :
  let st' := rebuildSourceWatchers E st in
  map (normalizeFsPath E) (sourceWatchers st') = JsMap.keys (transformsBySource st')
  /\ NoDup (map (normalizeFsPath E) (sourceWatchers st'))
  /\ (forall t, In t (transforms st) ->
        In (sourceKey E t) (map (normalizeFsPath E) (sourceWatchers st')))
  /\ (forall w, In w (sourceWatchers st') ->
        exists t, In t (transforms st) /\ source t = w)
  /\ transforms st' = transforms st.
Proof.
  cbv zeta.
  assert (grouped E (transformsBySource (rebuildSourceWatchers E st))) as Hgrouped.
  { rewrite rebuildSourceWatchers_index. apply index_grouped. intros k l []. }
  assert (NoDup (JsMap.keys (transformsBySource (rebuildSourceWatchers E st))))
    as Hnodup.
  { rewrite rebuildSourceWatchers_index. apply index_NoDup, NoDup_nil_2. }
  rewrite rebuildSourceWatchers_watchers, (watchers_of_grouped _ Hgrouped).
  split; [reflexivity|]. split; [exact Hnodup|]. split; [|split; [|reflexivity]].
  - intros t Hin. apply has_In_keys. unfold JsMap.has.
    rewrite rebuildSourceWatchers_index, index_get. cbn [JsMap.get JsMap.empty].
    destruct (withSource E (sourceKey E t) (transforms st)) eqn:Hnone; [|reflexivity].
    assert (In t (withSource E (sourceKey E t) (transforms st))) as Hin'
      by (apply filter_In; split; [exact Hin|apply String.eqb_refl]).
    rewrite Hnone in Hin'. destruct Hin'.
  - intros w Hw. apply list_elem_of_In, list_elem_of_omap in Hw.
    destruct Hw as (l & Hl & Hwatched).
    apply list_elem_of_In, in_map_iff in Hl as ([k l'] & Heq & Hin).
    cbn [snd] in Heq. subst l'.
    destruct l as [|e l]; [discriminate|]. injection Hwatched as <-.
    exists e. split; [|reflexivity].
    pose proof (In_NoDup_get k (e :: l) _ Hnodup Hin) as Hget.
    rewrite rebuildSourceWatchers_index, index_get in Hget.
    cbn [JsMap.get JsMap.empty] in Hget.
    destruct (withSource E k (transforms st)) eqn:Hsrc; [discriminate|].
    injection Hget as Hget.
    assert (In e (withSource E k (transforms st))) as He
      by (rewrite Hsrc, Hget; now left).
    apply filter_In in He as [He _]. exact He.
Qed.

End Watchers.

(** ** Template events *)

Lemma filter_all {A} (f : A -> bool) (l : list A) :
  (forall x, In x l -> f x = true) -> List.filter f l = l.
Proof.
  induction l as [|x l IH]; intros H; simpl; [reflexivity|].
  rewrite (H x) by now left. f_equal. apply IH. intros y Hy. apply H. now right.
Qed.

Lemma filter_length_lt {A} (f : A -> bool) (l : list A) (x : A) :
  In x l -> f x = false -> List.length (List.filter f l) < List.length l.
Proof.
  induction l as [|y l IH]; intros Hin Hx; [destruct Hin|].
  simpl. pose proof (List.filter_length_le f l) as Hle.
  destruct Hin as [->|Hin].
  - rewrite Hx. lia.
  - specialize (IH Hin Hx). destruct (f y); simpl; lia.
Qed.

Lemma with_templateTransforms_same st :
  with_templateTransforms (templateTransforms st) st = st.
Proof. destruct st. reflexivity. Qed.

Section TemplateEvents.

Context (E : Env).

(** X18.  When a template file is deleted and a derived transform has
    it as source, [handleTemplateDelete] forgets the derived transforms
    of that source and no other: afterwards the combined list and the
    index hold under that source what the explicit transforms give,
    nothing when no explicit transform names it, so that later events on
    the path render nothing derived.  When no derived transform has the
    file as source, the delete changes nothing at all. *)
Theorem template_delete_forgets_the_derived_transform (uri : string)
    (st : Controller) :
  let key := normalizeFsPath E uri in
  let st' := handleTemplateDelete E uri st in
  if existsb (fun t => String.eqb (sourceKey E t) key) (templateTransforms st)
  then withSource E key (templateTransforms st') = []
       /\ withSource E key (transforms st')
          = withSource E key (configFileTransforms st)
       /\ JsMap.get key (transformsBySource st')
          = match withSource E key (configFileTransforms st) with
            | [] => None
            | entries => Some entries
            end
       /\ (forall t, In t (templateTransforms st) -> sourceKey E t <> key ->
             In t (templateTransforms st'))
  else st' = st.
Proof.
  cbv zeta. unfold handleTemplateDelete. cbv zeta.
  set (key := normalizeFsPath E uri).
  set (remaining :=
         List.filter (fun t => negb (String.eqb (normalizeFsPath E (source t)) key))
           (templateTransforms st)).
  destruct (existsb _ (templateTransforms st)) eqn:Hsome.
  - apply existsb_exists in Hsome as (t & Hin & Hkey).
    assert (List.length remaining < List.length (templateTransforms st)) as Hlt.
    { apply (filter_length_lt _ _ t Hin). unfold sourceKey in Hkey.
      rewrite Hkey. reflexivity. }
    assert ((List.length remaining =? List.length (templateTransforms st))%nat = false)
      as -> by (apply Nat.eqb_neq; lia).
    cbn [negb].
    assert (withSource E key remaining = []) as Hgone.
    { apply filter_none. intros x Hx. apply filter_In in Hx as [_ Hx].
      apply negb_true_iff in Hx. exact Hx. }
    assert (withSource E key
              (transforms (rebuildTransformsList E (with_templateTransforms remaining st)))
            = withSource E key (configFileTransforms st)) as Hlist.
    { destruct (rebuildTransformsList_shape E (with_templateTransforms remaining st))
        as (derived & -> & Hderived).
      cbn [with_templateTransforms configFileTransforms templateTransforms] in *.
      unfold withSource. rewrite List.filter_app.
      rewrite (filter_none _ derived); [apply app_nil_r|].
      intros d Hd. destruct (Hderived d Hd) as [Hrem _].
      apply filter_In in Hrem as [_ Hrem].
      apply negb_true_iff in Hrem. exact Hrem. }
    split; [exact Hgone|]. split; [exact Hlist|]. split.
    + rewrite rebuildSourceWatchers_index, index_get. cbn [JsMap.get JsMap.empty].
      rewrite Hlist. reflexivity.
    + intros x Hx Hne. apply filter_In. split; [exact Hx|].
      apply negb_true_iff, String.eqb_neq. exact Hne.
  - assert (remaining = templateTransforms st) as ->.
    { apply filter_all. intros x Hx. apply negb_true_iff.
      destruct (String.eqb (normalizeFsPath E (source x)) key) eqn:Hx'; [|reflexivity].
      rewrite <- Hsome. symmetry. apply existsb_exists. exists x. auto. }
    rewrite Nat.eqb_refl. cbn [negb]. apply with_templateTransforms_same.
Qed.

(** X19.  A change or creation of a file that lies under the source
    directory of no directory transform (the relative path from each of
    them begins with [..] or is absolute) changes nothing and reports
    nothing. *)
Theorem template_change_outside_every_directory_is_ignored (uri : string)
    (st : Controller) :
  (forall dirTransform, In dirTransform (directoryTransforms st) ->
     Js.startsWith (relative (path E) (sourceDir dirTransform) uri) ".." = true
     \/ isAbsolute (path E) (relative (path E) (sourceDir dirTransform) uri) = true) ->
  handleTemplateChange E uri st = (st, []).
Proof.
  unfold handleTemplateChange. generalize (directoryTransforms st) as dts.
  induction dts as [|dt dts IH]; intros Hout; cbn [handleTemplateChange_loop];
    [reflexivity|].
  assert (negb (Js.startsWith (relative (path E) (sourceDir dt) uri) "..")
          && negb (isAbsolute (path E) (relative (path E) (sourceDir dt) uri)) = false)
    as ->.
  { destruct (Hout dt (or_introl eq_refl)) as [->| ->];
      [reflexivity|apply andb_false_r]. }
  apply IH. intros d Hd. apply Hout. now right.
Qed.

End TemplateEvents.

(** X19, a run: [/w/other/x.njk] is not under [/w/tpl]. *)
Lemma template_change_outside_every_directory_is_ignored_run :
  handleTemplateChange workspaceEnv "/w/other/x.njk" watchingTpl = (watchingTpl, []).
Proof.
  apply template_change_outside_every_directory_is_ignored.
  intros dirTransform [<-|[]]. left. vm_compute. reflexivity.
Defined.

(** ** Derived transforms *)

Section Derived.

Context (E : Env).



End Derived.


(** ** The full rescan *)

Lemma set_fresh {V} (k : string) (v : V) (m : JsMap.t V) :
  JsMap.get k m = None -> JsMap.set k v m = (m ++ [(k, v)])%list.
Proof.
  induction m as [|[k0 v0] m IH]; simpl; [reflexivity|].
  destruct (String.eqb k k0); [discriminate|].
  intros H. rewrite (IH H). reflexivity.
Qed.

Lemma NoDup_map_filter {A B} (f : A -> B) (p : A -> bool) (l : list A) :
  NoDup (map f l) -> NoDup (map f (List.filter p l)).
Proof.
  induction l as [|x l IH]; simpl; intros H; [exact H|].
  apply NoDup_cons in H as [Hx Hl].
  destruct (p x); simpl; [|exact (IH Hl)].
  apply NoDup_cons. split; [|exact (IH Hl)].
  intros Hin. apply Hx. apply list_elem_of_In in Hin. apply list_elem_of_In.
  apply in_map_iff in Hin as (y & Hy & Hin). apply filter_In in Hin as [Hin _].
  apply in_map_iff. eauto.
Qed.

Lemma for_each_snd_In {A S} (body : S -> A -> W S) (d : Diag) (x : A)
    (items : list A) :
  (forall s, In d (snd (body s x))) ->
  In x items -> forall init, In d (snd (for_each items init body)).
Proof.
  intros Hd. induction items as [|y items IH]; intros Hin init; [destruct Hin|].
  rewrite for_each_cons, bind_snd. apply in_app_iff.
  destruct Hin as [->|Hin]; [left; apply Hd|right; apply IH, Hin].
Qed.

Section Rescan.

Context (E : Env).

Lemma keyed_values dts m :
  keyed E dts m -> map (sourceKey E) (JsMap.values m) = JsMap.keys m.
Proof.
  intros [_ Hm]. induction m as [|[k e] m IH]; [reflexivity|].
  unfold JsMap.values, JsMap.keys. cbn [map fst snd]. f_equal.
  - exact (proj1 (Hm k e (or_introl eq_refl))).
  - apply IH. intros k' e' Hin. apply Hm. now right.
Qed.

Lemma keyed_set dts m e dt :
  keyed E dts m -> In dt dts -> derivedFrom E dt e ->
  keyed E dts (JsMap.set (normalizeFsPath E (source e)) e m).
Proof.
  intros [Hnodup Hm] Hdt He. split; [apply set_NoDup_keys, Hnodup|].
  intros k e' Hin. apply In_set in Hin as [[-> ->]|Hin]; [|exact (Hm k e' Hin)].
  split; [reflexivity|eauto].
Qed.

Lemma scan_keyed dts dt m :
  In dt dts -> keyed E dts m -> keyed E dts (fst (scanDirectoryTransform E dt m)).
Proof.
  intros Hdt Hm. unfold scanDirectoryTransform.
  destruct (collectTemplatesFromDirectory E dt) as [templates|message] eqn:Hscan;
    [|rewrite bind_fst; exact Hm].
  rewrite for_each_fst.
  assert (forall template, In template templates ->
            exists found, collectTemplatesFromDirectory E dt = Ok found
                          /\ In template found) as Hfound by eauto.
  clear Hscan. revert m Hm.
  induction templates as [|[uri rel] templates IH]; intros m Hm; [exact Hm|].
  cbn [fold_left]. apply IH; [intros t Ht; apply Hfound; now right|].
  rewrite bind_fst. cbn [fst snd].
  destruct (fst (createDirectoryFileTransform E dt uri rel)) as [e|] eqn:He;
    [|exact Hm].
  cbn [fst ret]. apply (keyed_set dts m e dt Hm Hdt).
  destruct (Hfound (uri, rel) (or_introl eq_refl)) as (found & Hscan & Hin).
  exists found, uri, rel. auto.
Qed.

Lemma scan_all_keyed all dts :
  (forall dt, In dt dts -> In dt all) ->
  forall m, keyed E all m ->
    keyed E all
      (fold_left (fun s item => fst (scanDirectoryTransform E item s)) dts m).
Proof.
  induction dts as [|dt dts IH]; intros Hsub m Hm; [exact Hm|].
  cbn [fold_left]. apply IH; [intros d Hd; apply Hsub; now right|].
  apply scan_keyed; [apply Hsub; now left|exact Hm].
Qed.

Lemma scannedMap_keyed st : keyed E (directoryTransforms st) (scannedMap E st).
Proof.
  unfold scannedMap. rewrite for_each_fst.
  apply scan_all_keyed; [auto|].
  split; [apply NoDup_nil_2|intros k e []].
Qed.

Lemma discovered_perm st :
  Permutation (discovered E st)
    (List.filter
       (fun entry =>
          negb (JsMap.has (normalizeFsPath E (source entry))
                  (bySource E (configFileTransforms st))))
       (JsMap.values (scannedMap E st))).
Proof. apply sort_perm. Qed.

Lemma discovered_spec st :
  NoDup (map (sourceKey E) (discovered E st))
  /\ forall t, In t (discovered E st) ->
       ~ In (sourceKey E t) (map (sourceKey E) (configFileTransforms st))
       /\ exists dt, In dt (directoryTransforms st) /\ derivedFrom E dt t.
Proof.
  pose proof (scannedMap_keyed st) as Hkeyed. split.
  - apply NoDup_ListNoDup. eapply Permutation_NoDup;
      [symmetry; apply Permutation_map, discovered_perm|].
    apply NoDup_ListNoDup, NoDup_map_filter. rewrite (keyed_values _ _ Hkeyed). apply Hkeyed.
  - intros t Ht.
    apply (Permutation_in _ (discovered_perm st)), filter_In in Ht as [Hin Hfree].
    split.
    + rewrite <- bySource_has. unfold sourceKey.
      apply negb_true_iff in Hfree. congruence.
    + apply in_map_iff in Hin as ([k e] & Heq & Hin). cbn [snd] in Heq. subst e.
      exact (proj2 (proj2 Hkeyed k t Hin)).
Qed.

(** The state after the rescan. *)
Lemma performTemplateReload_state st :
  fst (performTemplateReload E st)
  = with_lastTemplateCount (Z.of_nat (List.length (discovered E st)))
      (rebuildSourceWatchers E
         (rebuildTransformsList E (with_templateTransforms (discovered E st) st))).
Proof.
  unfold performTemplateReload. rewrite bind_fst. cbv zeta.
  fold (scannedMap E st). fold (discovered E st).
  destruct (negb (_ =? _)%Z) eqn:Hcount.
  - rewrite bind_fst. reflexivity.
  - apply negb_false_iff, Z.eqb_eq in Hcount. cbn [fst ret].
    unfold with_lastTemplateCount. rewrite <- Hcount. reflexivity.
Qed.

(** The derived entries of the combined list, when no two template
    transforms have the same canonical source and none has that of an
    explicit transform. *)
Lemma derived_all (config : JsMap.t FileTransformEntry) entries : forall m,
  NoDup (JsMap.keys m ++ map (sourceKey E) entries) ->
  (forall t, In t entries -> JsMap.has (sourceKey E t) config = false) ->
  fold_left
    (fun m entry =>
       let key := normalizeFsPath E (source entry) in
       if negb (JsMap.has key config) then JsMap.set key entry m else m)
    entries m
  = (m ++ map (fun t => (sourceKey E t, t)) entries)%list.
Proof.
  induction entries as [|t entries IH]; intros m Hnodup Hfree.
  - simpl. rewrite app_nil_r. reflexivity.
  - cbn [fold_left map]. cbv zeta. fold (sourceKey E t).
    rewrite (Hfree t (or_introl eq_refl)). cbn [negb].
    assert (JsMap.get (sourceKey E t) m = None) as Hnew.
    { apply get_None_not_key. intros Hin.
      apply NoDup_app in Hnodup as (_ & Hdisj & _).
      apply (Hdisj (sourceKey E t)); [apply list_elem_of_In, Hin|].
      apply list_elem_of_In. now left. }
    rewrite (set_fresh _ _ _ Hnew), IH.
    + rewrite <- app_assoc. reflexivity.
    + unfold JsMap.keys in *. rewrite map_app. cbn [map fst].
      rewrite <- app_assoc. exact Hnodup.
    + intros x Hx. apply Hfree. now right.
Qed.

Lemma rescan_transforms st :
  transforms (fst (performTemplateReload E st))
  = (configFileTransforms st ++ discovered E st)%list.
Proof.
  rewrite performTemplateReload_state.
  cbn [with_lastTemplateCount rebuildSourceWatchers rebuildTransformsList
       with_templateTransforms transforms configFileTransforms templateTransforms].
  f_equal. destruct (discovered_spec st) as [Hnodup Hfree].
  rewrite derived_all.
  - unfold JsMap.values. cbn [app JsMap.empty]. rewrite map_map. cbn [snd].
    apply map_id.
  - exact Hnodup.
  - intros t Ht. destruct (Hfree t Ht) as [Hno _].
    destruct (JsMap.has (sourceKey E t) (bySource E (configFileTransforms st)))
      eqn:Hhas; [|reflexivity].
    apply bySource_has in Hhas. contradiction.
Qed.

(** X21.  After a full rescan of the directory transforms, the combined
    list is the explicit transforms, in their order, followed by the
    derived ones: each is derived from a template that the scan of one of
    the directory transforms found, no two have the same canonical
    source, none has the canonical source of an explicit transform, and
    [lastTemplateCount] is their number. *)
Theorem rescan_lists_explicit_then_distinct_derived (st : Controller) :
  let st' := fst (performTemplateReload E st) in
  transforms st' = (configFileTransforms st ++ templateTransforms st')%list
  /\ NoDup (map (sourceKey E) (templateTransforms st'))
  /\ (forall t, In t (templateTransforms st') ->
        ~ In (sourceKey E t) (map (sourceKey E) (configFileTransforms st))
        /\ exists directoryTransform,
             In directoryTransform (directoryTransforms st)
             /\ derivedFrom E directoryTransform t)
  /\ lastTemplateCount st' = Z.of_nat (List.length (templateTransforms st')).
Proof.
  cbv zeta. rewrite rescan_transforms, performTemplateReload_state.
  cbn [with_lastTemplateCount rebuildSourceWatchers rebuildTransformsList
       with_templateTransforms templateTransforms lastTemplateCount].
  destruct (discovered_spec st) as [Hnodup Hfree].
  split; [reflexivity|]. split; [exact Hnodup|]. split; [exact Hfree|reflexivity].
Qed.

Lemma scan_unscannable dt m :
  scannable E dt = false -> fst (scanDirectoryTransform E dt m) = m.
Proof.
  unfold scannable, scanDirectoryTransform.
  destruct (collectTemplatesFromDirectory E dt); [discriminate|].
  intros _. rewrite bind_fst. reflexivity.
Qed.

Lemma scannedMap_skips dts : forall m,
  fst (for_each dts m (fun m dt => scanDirectoryTransform E dt m))
  = fst (for_each (List.filter (scannable E) dts) m
           (fun m dt => scanDirectoryTransform E dt m)).
Proof.
  induction dts as [|dt dts IH]; intros m; [reflexivity|].
  cbn [List.filter]. rewrite for_each_cons, bind_fst, IH.
  destruct (scannable E dt) eqn:Hscan.
  - rewrite for_each_cons, bind_fst. reflexivity.
  - rewrite (scan_unscannable dt m Hscan). reflexivity.
Qed.

(** X22.  A directory transform whose directory cannot be scanned is
    reported, by a line on the output channel with the error and by a
    warning, and is otherwise passed over: the rescan finds the derived
    transforms, the combined list, the index and the watchers it would
    find if the directory transform were not configured.  It stays
    configured, so that the next rescan tries it again. *)
Theorem unreadable_directory_is_reported_and_passed_over (st : Controller) :
  let st1 := fst (performTemplateReload E st) in
  let st2 :=
    fst (performTemplateReload E
           (with_directoryTransforms
              (List.filter (scannable E) (directoryTransforms st)) st)) in
  templateTransforms st1 = templateTransforms st2
  /\ transforms st1 = transforms st2
  /\ transformsBySource st1 = transformsBySource st2
  /\ sourceWatchers st1 = sourceWatchers st2
  /\ directoryTransforms st1 = directoryTransforms st
  /\ forall directoryTransform message,
       In directoryTransform (directoryTransforms st) ->
       collectTemplatesFromDirectory E directoryTransform = Throw message ->
       In (Out ("Nunjucksu: failed to scan " ++ sourceDir directoryTransform
                ++ ": " ++ message))
          (snd (performTemplateReload E st))
       /\ In (Warn ("Nunjucksu: cannot access directory "
                    ++ basename (path E) (sourceDir directoryTransform)
                    ++ ". Check permissions."))
             (snd (performTemplateReload E st)).
Proof.
  cbv zeta. rewrite !performTemplateReload_state.
  assert (discovered E (with_directoryTransforms
                          (List.filter (scannable E) (directoryTransforms st)) st)
          = discovered E st) as Hsame.
  { unfold discovered, scannedMap.
    cbn [with_directoryTransforms directoryTransforms configFileTransforms].
    rewrite <- scannedMap_skips. reflexivity. }
  rewrite Hsame.
  repeat (split; [reflexivity|]).
  intros dt message Hin Hscan.
  unfold performTemplateReload. rewrite bind_snd.
  split; apply in_app_iff; left;
    (apply (for_each_snd_In _ _ dt); [|exact Hin]);
    intros m; unfold scanDirectoryTransform; rewrite Hscan, bind_snd;
    apply in_app_iff; left; cbn [emit snd In]; auto.
Qed.

End Rescan.

(** X22, a run: the directory [/w/locked] cannot be read, and the
    rescan says so. *)
Lemma unreadable_directory_is_reported_and_passed_over_run :
  In (Out ("Nunjucksu: failed to scan " ++ "/w/locked" ++ ": " ++ "NoPermissions"))
     (snd (performTemplateReload workspaceEnv
             (with_directoryTransforms [lockedDirectory; tplDirectory] watchingTpl)))
  /\ In (Warn ("Nunjucksu: cannot access directory "
               ++ basename (path workspaceEnv) "/w/locked" ++ ". Check permissions."))
        (snd (performTemplateReload workspaceEnv
                (with_directoryTransforms [lockedDirectory; tplDirectory] watchingTpl))).
Proof.
  exact (proj2 (proj2 (proj2 (proj2 (proj2
           (unreadable_directory_is_reported_and_passed_over workspaceEnv
              (with_directoryTransforms [lockedDirectory; tplDirectory] watchingTpl))))))
           lockedDirectory "NoPermissions" (or_introl eq_refl) eq_refl).
Defined.

(** ** Writing and rendering *)

Section Rendering.

Context (E : Env).

(** X23.  [writeTarget] goes through exactly when no regular file
    stands where the directory of the target, or a directory above it,
    is needed, and the target either holds the bytes already or is not a
    directory, neither before nor among the directories just made. *)
Theorem writeTarget_succeeds_iff (uri contents : string) (fs : FileSystem) :
  fst (writeTarget E uri contents fs) = Ok tt
  <-> (forall a, In a (chainOf E uri) -> files fs !! a = None)
      /\ (files fs !! uri = Some (utf8 contents)
          \/ uri ∉ (list_to_set (chainOf E uri) ∪ dirs fs : gset string)).
Proof.
  unfold writeTarget, createDirectory. cbn [journal files dirs calls].
  fold (chainOf E uri). rewrite <- blocked_false.
  destruct (existsb _ (chainOf E uri)) eqn:Hblocked.
  - cbn [fst]. split; [discriminate|intros [[=] _]].
  - unfold readFile. cbn [journal files dirs calls].
    destruct (files fs !! uri) as [current|] eqn:Hcur.
    + destruct (String.eqb current (utf8 contents)) eqn:Heq.
      * apply String.eqb_eq in Heq. subst current. cbn [fst].
        split; [auto|reflexivity].
      * apply String.eqb_neq in Heq.
        unfold writeFile. cbn [journal files dirs calls].
        destruct (bool_decide (uri ∈ _)) eqn:Hdir; cbn [fst].
        -- apply bool_decide_eq_true in Hdir.
           split; [discriminate|]. intros [_ [[= H]|H]]; congruence.
        -- apply bool_decide_eq_false in Hdir. split; [auto|reflexivity].
    + unfold writeFile. cbn [journal files dirs calls].
      destruct (bool_decide (uri ∈ _)) eqn:Hdir; cbn [fst].
      * apply bool_decide_eq_true in Hdir.
        split; [discriminate|]. intros [_ [H|H]]; [discriminate|contradiction].
      * apply bool_decide_eq_false in Hdir. split; [auto|reflexivity].
Qed.



(** X24.  [writeTarget] writes all or nothing: when it goes through,
    reading the target gives back the bytes of the contents; when it
    throws, every regular file holds what it held before. *)
Theorem writeTarget_writes_all_or_nothing (uri contents : string)
    (fs : FileSystem) :
  let fs' := snd (writeTarget E uri contents fs) in
  match fst (writeTarget E uri contents fs) with
  | Ok _ => fst (readFile uri fs') = Ok (utf8 contents)
  | Throw _ => files fs' = files fs
  end.
Proof.
  cbv zeta.
  destruct (fst (writeTarget E uri contents fs)) as [[]|message] eqn:Hresult.
  - destruct (writeTarget_ok E uri contents fs Hresult) as (Hbytes & _).
    cbv zeta in Hbytes. unfold readFile. cbn [journal files].
    rewrite Hbytes. reflexivity.
  - destruct (writeTarget_cases E uri contents fs)
      as [(m & Heq)|[(_ & Heq)|[Heq|(m & Heq)]]]; rewrite Heq in *;
      cbn [fst snd files] in *; try reflexivity; discriminate.
Qed.





End Rendering.

(** X24, a run: the regular file [/w/out] is in the way of the
    directory of [/w/out/a]; the write throws and no file changes. *)
Lemma writeTarget_writes_all_or_nothing_run :
  files (snd (writeTarget posixEnv "/w/out/a" "text" blockedFs)) = files blockedFs.
Proof.
  exact (writeTarget_writes_all_or_nothing posixEnv "/w/out/a" "text" blockedFs).
Defined.

(* ===================================================================== *)
(** * The render queue *)
(* ===================================================================== *)

Lemma snoc_split {A} (l l1 l2 : list A) (e x : A) :
  (l ++ [e])%list = (l1 ++ x :: l2)%list ->
  (l2 = [] /\ l = l1 /\ e = x)
  \/ exists l2', l2 = (l2' ++ [e])%list /\ l = (l1 ++ x :: l2')%list.
Proof.
  destruct l2 as [|y l2 _] using rev_ind.
  - intros H. apply app_inj_tail in H as [-> ->]. auto.
  - intros H. right. exists l2.
    rewrite app_comm_cons, app_assoc in H. apply app_inj_tail in H as [-> ->]. auto.
Qed.

Lemma rendersOf_snoc u events e :
  rendersOf u (events ++ [e])
  = (rendersOf u events
     ++ match e with
        | Rendered u' t => if Nat.eqb u' u then [t] else []
        | _ => []
        end)%list.
Proof.
  unfold rendersOf. rewrite omap_app. f_equal. cbn [omap list_omap].
  destruct e as [| u' t |]; try reflexivity. destruct (Nat.eqb u' u); reflexivity.
Qed.

Lemma rendersOf_other u events :
  (forall e, In e events -> unitOf e <> u) -> rendersOf u events = [].
Proof.
  induction events as [|e events IH]; intros H; [reflexivity|].
  unfold rendersOf. cbn [omap list_omap]. fold (rendersOf u events).
  rewrite IH by (intros e' He'; apply H; now right).
  pose proof (H e (or_introl eq_refl)) as He.
  destruct e as [| u' t |]; try reflexivity.
  cbn [unitOf] in He. destruct (Nat.eqb_spec u' u); [contradiction|reflexivity].
Qed.

Lemma kept_all {V} now sched (m : gmap string V) :
  (forall key, stale now (renderTimestamps sched) key = false) -> kept now sched m = m.
Proof. intros H. apply map_filter_id. intros key x _. apply H. Qed.

(** What an updated list of units holds. *)
Lemma lookup_update (l : list RenderUnit) u unit status q v' :
  l !! u = Some unit ->
  <[u := with_status status unit]> l !! q = Some v' ->
  exists v, l !! q = Some v
            /\ unit_key v' = unit_key v
            /\ unit_previous v' = unit_previous v
            /\ unit_transforms v' = unit_transforms v
            /\ ((q = u /\ v = unit /\ unit_status v' = status) \/ (q <> u /\ v' = v)).
Proof.
  intros Hu Hq. apply list_lookup_insert_Some in Hq as [(<- & <- & _)|(Hne & Hq)].
  - exists unit. split; [exact Hu|]. repeat (split; [reflexivity|]). left. auto.
  - exists v'. split; [exact Hq|]. repeat (split; [reflexivity|]). right. auto.
Qed.

Lemma update_lookup (l : list RenderUnit) u unit status q v :
  l !! u = Some unit -> l !! q = Some v ->
  exists v', <[u := with_status status unit]> l !! q = Some v'
             /\ unit_key v' = unit_key v
             /\ ((q = u /\ v = unit /\ unit_status v' = status) \/ (q <> u /\ v' = v)).
Proof.
  intros Hu Hq. destruct (decide (q = u)) as [->|Hne].
  - exists (with_status status unit). rewrite list_lookup_insert_eq
      by (eapply lookup_lt_Some, Hu).
    assert (v = unit) as -> by congruence.
    split; [reflexivity|]. split; [reflexivity|]. left. auto.
  - exists v. rewrite list_lookup_insert_ne by congruence.
    split; [exact Hq|]. split; [reflexivity|]. right. auto.
Qed.

Lemma advance_status sched u unit status event :
  advance sched u unit status event ->
  unit_status unit <> Settled /\ status <> Waiting /\ unitOf event = u
  /\ (status = Settled <-> event = Settle u)
  /\ (unit_status unit = Waiting <-> event = Begin u).
Proof.
  intros [Hw Hs|done t Hr Ht|Hr]; rewrite ?Hw, ?Hr;
    (split; [discriminate|]); (split; [discriminate|]); (split; [reflexivity|]);
    split; split; try discriminate; reflexivity.
Qed.

(** ** What the queue maintains *)

Lemma queue_inv_init idx : queue_inv (scheduler_init idx).
Proof.
  split; cbn [scheduler_init renderQueue units].
  - intros key p H. rewrite lookup_empty in H. discriminate.
  - intros key _ q v H. rewrite lookup_nil in H. discriminate.
  - intros q v H. rewrite lookup_nil in H. discriminate.
  - intros p q u v _ H. rewrite lookup_nil in H. discriminate.
Qed.

Lemma queue_inv_ext sched sched' :
  units sched' = units sched -> renderQueue sched' = renderQueue sched ->
  queue_inv sched -> queue_inv sched'.
Proof.
  intros Hu Hq [H1 H2 H3 H4]. split; rewrite ?Hu, ?Hq; assumption.
Qed.

Lemma queue_inv_event sched sched' key transforms reason :
  units sched'
  = (units sched ++ [ {| unit_key := key; unit_transforms := transforms;
                         unit_reason := reason;
                         unit_previous := renderQueue sched !! key;
                         unit_status := Waiting |} ])%list ->
  renderQueue sched' = <[key := List.length (units sched)]> (renderQueue sched) ->
  queue_inv sched -> queue_inv sched'.
Proof.
  intros Hu Hq [Hlatest Hidle Hprevious Hserial].
  set (new := {| unit_key := key; unit_transforms := transforms;
                 unit_reason := reason;
                 unit_previous := renderQueue sched !! key;
                 unit_status := Waiting |}) in *.
  assert (forall q v, units sched' !! q = Some v ->
            (q < List.length (units sched) /\ units sched !! q = Some v)
            \/ (q = List.length (units sched) /\ v = new)) as Hsplit.
  { intros q v H. rewrite Hu in H.
    apply lookup_snoc_Some in H as [[? ?]|[? ?]]; auto. }
  assert (forall q v, units sched !! q = Some v -> units sched' !! q = Some v) as Hlift.
  { intros q v H. rewrite Hu. apply lookup_app_l_Some, H. }
  split.
  - intros key' p H. rewrite Hq in H.
    apply lookup_insert_Some in H as [[<- <-]|[Hne H]].
    + exists new. split; [rewrite Hu; apply list_lookup_middle; reflexivity|].
      split; [reflexivity|]. intros q v Hlt Hv.
      apply Hsplit in Hv as [[Hlt' _]|[-> _]]; lia.
    + destruct (Hlatest key' p H) as (u & Hp & Hkey & Hafter).
      exists u. split; [apply Hlift, Hp|]. split; [exact Hkey|].
      intros q v Hlt Hv. apply Hsplit in Hv as [[_ Hv]|[_ ->]].
      * exact (Hafter q v Hlt Hv).
      * cbn [new unit_key]. exact Hne.
  - intros key' H q v Hv Hkey. rewrite Hq in H.
    apply lookup_insert_None in H as [H Hne].
    apply Hsplit in Hv as [[_ Hv]|[_ ->]].
    + exact (Hidle key' H q v Hv Hkey).
    + cbn [new unit_key] in Hkey. contradiction.
  - intros q v Hv. apply Hsplit in Hv as [[Hlt Hv]|[-> ->]].
    + specialize (Hprevious q v Hv).
      destruct (unit_previous v) as [p|].
      * destruct Hprevious as (Hpq & (u & Hp & Hkey) & Hbetween).
        split; [exact Hpq|]. split; [exists u; split; [apply Hlift, Hp|exact Hkey]|].
        intros r w Hpr Hrq Hw. apply Hsplit in Hw as [[_ Hw]|[-> _]]; [|lia].
        exact (Hbetween r w Hpr Hrq Hw).
      * intros r w Hrq Hw. apply Hsplit in Hw as [[_ Hw]|[-> _]]; [|lia].
        exact (Hprevious r w Hrq Hw).
    + cbn [new unit_previous unit_key].
      destruct (renderQueue sched !! key) as [p|] eqn:Hqueue.
      * destruct (Hlatest key p Hqueue) as (u & Hp & Hkey & Hafter).
        split; [eapply lookup_lt_Some, Hp|].
        split; [exists u; split; [apply Hlift, Hp|exact Hkey]|].
        intros r w Hpr Hrq Hw. apply Hsplit in Hw as [[_ Hw]|[-> _]]; [|lia].
        exact (Hafter r w Hpr Hw).
      * intros r w Hrq Hw Hkey. apply Hsplit in Hw as [[_ Hw]|[-> _]]; [|lia].
        exact (Hidle key Hqueue r w Hw Hkey).
  - intros p q u v Hpq Hp Hv Hkey Hstarted.
    apply Hsplit in Hv as [[Hlt Hv]|[_ ->]]; [|contradiction Hstarted; reflexivity].
    apply Hsplit in Hp as [[_ Hp]|[-> _]]; [|lia].
    exact (Hserial p q u v Hpq Hp Hv Hkey Hstarted).
Qed.

(** A unit that advances leaves the units before it, of its source,
    settled. *)
Lemma serial_advance sched u unit status event :
  queue_inv sched ->
  units sched !! u = Some unit ->
  advance sched u unit status event ->
  forall p q u' v',
    p < q ->
    <[u := with_status status unit]> (units sched) !! p = Some u' ->
    <[u := with_status status unit]> (units sched) !! q = Some v' ->
    unit_key u' = unit_key v' -> unit_status v' <> Waiting ->
    unit_status u' = Settled.
Proof.
  intros [Hlatest Hidle Hprevious Hserial] Hu Hadv p q u' v' Hpq Hp Hq Hkey Hstarted.
  destruct (advance_status _ _ _ _ _ Hadv) as (Hopen & _).
  destruct (lookup_update _ _ _ _ _ _ Hu Hp)
    as (u0 & Hp0 & Hku & _ & _ & Hcase_p).
  destruct (lookup_update _ _ _ _ _ _ Hu Hq)
    as (v0 & Hq0 & Hkv & _ & _ & Hcase_q).
  assert (unit_key u0 = unit_key v0) as Hkey0 by congruence.
  assert (unit_status u0 = Settled) as Hsettled.
  { destruct Hcase_q as [(-> & -> & _)|(_ & ->)];
      [|exact (Hserial p q u0 v0 Hpq Hp0 Hq0 Hkey0 Hstarted)].
    destruct Hadv as [Hwaiting Hset|done t Hrunning _|Hrunning];
      try (apply (Hserial p u u0 unit Hpq Hp0 Hq0 Hkey0); rewrite Hrunning;
           discriminate).
    specialize (Hprevious u unit Hq0).
    destruct (unit_previous unit) as [p0|].
    - destruct Hprevious as (Hp0u & (w & Hw & Hkw) & Hbetween).
      unfold settled in Hset. rewrite Hw in Hset.
      assert (unit_status w = Settled) as Hws
        by (destruct (unit_status w); [discriminate|discriminate|reflexivity]).
      destruct (lt_eq_lt_dec p p0) as [[Hlt|Heq]|Hgt].
      + apply (Hserial p p0 u0 w Hlt Hp0 Hw); [congruence|].
        rewrite Hws. discriminate.
      + subst p0. congruence.
      + exfalso. exact (Hbetween p u0 Hgt Hpq Hp0 Hkey0).
    - exact (Hprevious p u0 Hpq Hp0 Hkey0). }
  destruct Hcase_p as [(_ & -> & _)|(_ & ->)]; [contradiction|exact Hsettled].
Qed.

Lemma queue_inv_advance sched sched' u unit status event :
  queue_inv sched ->
  units sched !! u = Some unit ->
  advance sched u unit status event ->
  units sched' = <[u := with_status status unit]> (units sched) ->
  ((status = Settled /\ renderQueue sched !! unit_key unit = Some u)
   /\ renderQueue sched' = delete (unit_key unit) (renderQueue sched)
   \/ ~ (status = Settled /\ renderQueue sched !! unit_key unit = Some u)
      /\ renderQueue sched' = renderQueue sched) ->
  queue_inv sched'.
Proof.
  intros Hinv Hu Hadv Hunits Hqueue.
  pose proof (serial_advance _ _ _ _ _ Hinv Hu Hadv) as Hserial'.
  destruct Hinv as [Hlatest Hidle Hprevious Hserial].
  destruct (advance_status _ _ _ _ _ Hadv) as (Hopen & _).
  assert (forall key p, renderQueue sched' !! key = Some p ->
                        renderQueue sched !! key = Some p) as Hsub.
  { intros key p H. destruct Hqueue as [(_ & Hq)|(_ & Hq)]; rewrite Hq in H;
      [apply lookup_delete_Some in H as [_ H]|]; exact H. }
  split; rewrite ?Hunits.
  - intros key p H. destruct (Hlatest key p (Hsub key p H)) as (u0 & Hp & Hkey & Hafter).
    destruct (update_lookup _ _ _ status _ _ Hu Hp) as (v' & Hp' & Hk' & _).
    exists v'. split; [exact Hp'|]. split; [congruence|].
    intros q w' Hpq Hw'.
    destruct (lookup_update _ _ _ _ _ _ Hu Hw') as (w & Hw & Hkw & _).
    rewrite Hkw. exact (Hafter q w Hpq Hw).
  - intros key H q v' Hv' Hkey.
    destruct (lookup_update _ _ _ _ _ _ Hu Hv') as (v & Hv & Hkv & _ & _ & Hcase).
    assert (renderQueue sched !! key = None
            \/ (status = Settled /\ renderQueue sched !! unit_key unit = Some u
                /\ key = unit_key unit)) as [Hnone|(Hs & Hlast & ->)].
    { destruct Hqueue as [((Hs & Hlast) & Hq)|(_ & Hq)]; rewrite Hq in H.
      - apply lookup_delete_None in H as [<-|H]; auto.
      - auto. }
    + pose proof (Hidle key Hnone q v Hv ltac:(congruence)) as Hsettled.
      destruct Hcase as [(_ & -> & _)|(_ & ->)]; [contradiction|exact Hsettled].
    + destruct Hcase as [(_ & _ & ->)|(Hne & ->)]; [exact Hs|].
      destruct (Hlatest _ _ Hlast) as (u0 & Hu0 & _ & Hafter).
      destruct (lt_eq_lt_dec q u) as [[Hlt|Heq]|Hgt]; [|contradiction|].
      * apply (Hserial q u v unit Hlt Hv Hu Hkey).
        destruct Hadv as [| |Hrunning]; try discriminate.
        rewrite Hrunning. discriminate.
      * exfalso. exact (Hafter q v Hgt Hv Hkey).
  - intros q v' Hv'.
    destruct (lookup_update _ _ _ _ _ _ Hu Hv') as (v & Hv & Hkv & Hpv & _ & _).
    specialize (Hprevious q v Hv). rewrite Hpv, Hkv.
    destruct (unit_previous v) as [p|].
    + destruct Hprevious as (Hpq & (u0 & Hp & Hkey) & Hbetween).
      split; [exact Hpq|]. split.
      * destruct (update_lookup _ _ _ status _ _ Hu Hp) as (u0' & Hp' & Hk' & _).
        exists u0'. split; [exact Hp'|congruence].
      * intros r w' Hpr Hrq Hw'.
        destruct (lookup_update _ _ _ _ _ _ Hu Hw') as (w & Hw & Hkw & _).
        rewrite Hkw. exact (Hbetween r w Hpr Hrq Hw).
    + intros r w' Hrq Hw' Hkey.
      destruct (lookup_update _ _ _ _ _ _ Hu Hw') as (w & Hw & Hkw & _ & _ & Hcase).
      pose proof (Hprevious r w Hrq Hw ltac:(congruence)) as Hsettled.
      destruct Hcase as [(_ & -> & _)|(_ & ->)]; [contradiction|exact Hsettled].
  - exact Hserial'.
Qed.

Lemma queue_inv_turn sched sched' :
  turn sched sched' -> queue_inv sched -> queue_inv sched'.
Proof.
  intros [Hu Hq _ _|key transforms reason now _ Hu Hq _ _|u unit status event Hu Hadv Hunits _ Hq]
    Hinv.
  - exact (queue_inv_ext _ _ Hu Hq Hinv).
  - exact (queue_inv_event _ _ _ _ _ Hu Hq Hinv).
  - apply (queue_inv_advance _ _ _ _ _ _ Hinv Hu Hadv Hunits).
    destruct Hq as [(H & Hq & _)|(H & Hq & _)]; auto.
Qed.

(** ** What the trace records *)

Lemma trace_inv_init idx : trace_inv (scheduler_init idx).
Proof.
  split; cbn [scheduler_init trace units].
  - intros e [].
  - intros p u H. rewrite lookup_nil in H. discriminate.
  - intros p [].
  - intros l1 l2 q H. destruct l1; discriminate.
  - intros l1 l2 p H. destruct l1; discriminate.
Qed.

Lemma trace_inv_ext sched sched' :
  units sched' = units sched -> trace sched' = trace sched ->
  trace_inv sched -> trace_inv sched'.
Proof.
  intros Hu Ht [H1 H2 H3 H4 H5]. split; rewrite ?Hu, ?Ht; assumption.
Qed.

Lemma trace_inv_event sched sched' new :
  units sched' = (units sched ++ [new])%list ->
  unit_status new = Waiting ->
  trace sched' = trace sched ->
  trace_inv sched -> trace_inv sched'.
Proof.
  intros Hu Hnew Ht [Htraced Hsettle Hsettled Horder Hquiet].
  assert (forall q v, units sched' !! q = Some v ->
            (q < List.length (units sched) /\ units sched !! q = Some v)
            \/ (q = List.length (units sched) /\ v = new)) as Hsplit.
  { intros q v H. rewrite Hu in H.
    apply lookup_snoc_Some in H as [[? ?]|[? ?]]; auto. }
  assert (forall q v, units sched !! q = Some v -> units sched' !! q = Some v) as Hlift.
  { intros q v H. rewrite Hu. apply lookup_app_l_Some, H. }
  split; rewrite ?Ht.
  - intros e He. destruct (Htraced e He) as (v & Hv & Hstarted).
    exists v. split; [apply Hlift, Hv|exact Hstarted].
  - intros p u Hp Hs. apply Hsplit in Hp as [[_ Hp]|[_ ->]]; [|congruence].
    exact (Hsettle p u Hp Hs).
  - intros p Hp. destruct (Hsettled p Hp) as (u & Hu' & Hs).
    exists u. split; [apply Hlift, Hu'|exact Hs].
  - intros l1 l2 q Heq p u v Hpq Hp Hv Hkey.
    assert (q < List.length (units sched)) as Hq.
    { destruct (Htraced (Begin q)) as (w & Hw & _);
        [rewrite Heq; apply in_app_iff; right; now left|].
      eapply lookup_lt_Some, Hw. }
    apply Hsplit in Hv as [[_ Hv]|[-> _]]; [|lia].
    apply Hsplit in Hp as [[_ Hp]|[-> _]]; [|lia].
    exact (Horder l1 l2 q Heq p u v Hpq Hp Hv Hkey).
  - exact Hquiet.
Qed.

Lemma trace_inv_advance sched sched' u unit status event :
  queue_inv sched -> trace_inv sched ->
  units sched !! u = Some unit ->
  advance sched u unit status event ->
  units sched' = <[u := with_status status unit]> (units sched) ->
  trace sched' = (trace sched ++ [event])%list ->
  trace_inv sched'.
Proof.
  intros Hqueue [Htraced Hsettle Hsettled Horder Hquiet] Hu Hadv Hunits Htrace.
  pose proof (serial_advance _ _ _ _ _ Hqueue Hu Hadv) as Hserial'.
  destruct (advance_status _ _ _ _ _ Hadv)
    as (Hopen & Hbegun & Hunit & Hsettles & Hbegins).
  assert (units sched' !! u = Some (with_status status unit)) as Hnew.
  { rewrite Hunits. apply list_lookup_insert_eq. eapply lookup_lt_Some, Hu. }
  split; rewrite ?Htrace.
  - intros e He. apply in_app_iff in He as [He|[<-|[]]].
    + destruct (Htraced e He) as (v & Hv & Hstarted).
      destruct (update_lookup _ _ _ status _ _ Hu Hv) as (v' & Hv' & _ & Hcase).
      exists v'. rewrite Hunits. split; [exact Hv'|].
      destruct Hcase as [(_ & _ & ->)|(_ & ->)]; assumption.
    + rewrite Hunit. exists (with_status status unit). split; [exact Hnew|exact Hbegun].
  - intros p u' Hp Hs. rewrite Hunits in Hp.
    destruct (lookup_update _ _ _ _ _ _ Hu Hp) as (u0 & Hp0 & _ & _ & _ & Hcase).
    apply in_app_iff. destruct Hcase as [(-> & _ & Heq)|(_ & ->)].
    + right. left. apply (proj1 Hsettles). congruence.
    + left. exact (Hsettle p u0 Hp0 Hs).
  - intros p Hp. apply in_app_iff in Hp as [Hp|[Heq|[]]].
    + destruct (Hsettled p Hp) as (u0 & Hp0 & Hs).
      destruct (update_lookup _ _ _ status _ _ Hu Hp0) as (v' & Hv' & _ & Hcase).
      exists v'. rewrite Hunits. split; [exact Hv'|].
      destruct Hcase as [(_ & -> & _)|(_ & ->)]; [contradiction|exact Hs].
    + assert (p = u) as -> by (rewrite Heq in Hunit; cbn [unitOf] in Hunit; congruence).
      exists (with_status status unit). split; [exact Hnew|].
      apply (proj2 Hsettles). exact Heq.
  - intros l1 l2 q Heq p u' v' Hpq Hp Hv Hkey.
    rewrite Hunits in Hp, Hv.
    apply snoc_split in Heq as [(-> & <- & ->)|(l2' & -> & Heq)].
    + cbn [unitOf] in Hunit. subst q.
      assert (unit_status u' = Settled) as Hs.
      { apply (Hserial' p u u' v' Hpq Hp Hv Hkey).
        rewrite list_lookup_insert_eq in Hv by (eapply lookup_lt_Some, Hu).
        injection Hv as <-. exact Hbegun. }
      destruct (lookup_update _ _ _ _ _ _ Hu Hp) as (u0 & Hp0 & _ & _ & _ & Hcase).
      destruct Hcase as [(-> & _)|(_ & ->)]; [lia|].
      exact (Hsettle p u0 Hp0 Hs).
    + destruct (lookup_update _ _ _ _ _ _ Hu Hp) as (u0 & Hp0 & Hku & _).
      destruct (lookup_update _ _ _ _ _ _ Hu Hv) as (v0 & Hv0 & Hkv & _).
      apply (Horder l1 l2' q Heq p u0 v0 Hpq Hp0 Hv0). congruence.
  - intros l1 l2 p Heq e He.
    apply snoc_split in Heq as [(-> & _)|(l2' & -> & Heq)]; [destruct He|].
    apply in_app_iff in He as [He|[<-|[]]].
    + exact (Hquiet l1 l2' p Heq e He).
    + rewrite Hunit. intros ->.
      destruct (Hsettled p) as (u0 & Hp0 & Hs);
        [rewrite Heq; apply in_app_iff; right; now left|].
      apply Hopen. congruence.
Qed.

Lemma trace_inv_turn sched sched' :
  turn sched sched' -> queue_inv sched -> trace_inv sched -> trace_inv sched'.
Proof.
  intros [Hu _ _ Ht|key transforms reason now _ Hu _ _ Ht|u unit status event Hu Hadv Hunits Ht _]
    Hqueue Htrace.
  - exact (trace_inv_ext _ _ Hu Ht Htrace).
  - exact (trace_inv_event _ _ _ Hu eq_refl Ht Htrace).
  - exact (trace_inv_advance _ _ _ _ _ _ Hqueue Htrace Hu Hadv Hunits Ht).
Qed.

(** ** The renders of a unit *)

Lemma progress_inv_init idx : progress_inv (scheduler_init idx).
Proof.
  split; cbn [scheduler_init trace units].
  - intros e [].
  - intros u unit H. rewrite lookup_nil in H. discriminate.
  - intros u unit H. rewrite lookup_nil in H. discriminate.
Qed.

Lemma progress_inv_ext sched sched' :
  units sched' = units sched -> trace sched' = trace sched ->
  progress_inv sched -> progress_inv sched'.
Proof.
  intros Hu Ht [H1 H2 H3]. split; rewrite ?Hu, ?Ht; assumption.
Qed.

Lemma progress_inv_event sched sched' new :
  units sched' = (units sched ++ [new])%list ->
  unit_status new = Waiting ->
  unit_transforms new <> [] ->
  trace sched' = trace sched ->
  progress_inv sched -> progress_inv sched'.
Proof.
  intros Hu Hnew Hwork' Ht [Hknown Hprogress Hwork]. split; rewrite ?Ht, ?Hu.
  - intros e He. rewrite length_app. specialize (Hknown e He). lia.
  - intros u unit H. apply lookup_snoc_Some in H as [[_ H]|[-> <-]].
    + exact (Hprogress u unit H).
    + unfold progress. rewrite Hnew. apply rendersOf_other.
      intros e He. specialize (Hknown e He). lia.
  - intros u unit H. apply lookup_snoc_Some in H as [[_ H]|[_ <-]].
    + exact (Hwork u unit H).
    + exact Hwork'.
Qed.

Lemma progress_inv_advance sched sched' u unit status event :
  progress_inv sched ->
  units sched !! u = Some unit ->
  advance sched u unit status event ->
  units sched' = <[u := with_status status unit]> (units sched) ->
  trace sched' = (trace sched ++ [event])%list ->
  progress_inv sched'.
Proof.
  intros [Hknown Hprogress Hwork] Hu Hadv Hunits Htrace.
  destruct (advance_status _ _ _ _ _ Hadv) as (_ & _ & Hunit & _).
  split; rewrite ?Htrace, ?Hunits.
  - intros e He. rewrite length_insert. apply in_app_iff in He as [He|[<-|[]]].
    + exact (Hknown e He).
    + rewrite Hunit. eapply lookup_lt_Some, Hu.
  - intros q unit' Hq.
    destruct (lookup_update _ _ _ _ _ _ Hu Hq) as (v & Hv & _ & _ & Hts & Hcase).
    rewrite rendersOf_snoc, (Hprogress q v Hv).
    destruct Hcase as [(-> & -> & Hs)|(Hne & ->)].
    + unfold progress. rewrite Hs, Hts.
      destruct Hadv as [Hwaiting _|done t Hrunning Ht|Hrunning]; rewrite ?Hwaiting, ?Hrunning.
      * reflexivity.
      * rewrite Nat.eqb_refl. symmetry. apply take_S_r, Ht.
      * rewrite app_nil_r. apply firstn_all.
    + destruct Hadv as [| done t _ _ |]; try apply app_nil_r.
      destruct (Nat.eqb_spec u q); [congruence|apply app_nil_r].
  - intros q unit' Hq.
    destruct (lookup_update _ _ _ _ _ _ Hu Hq) as (v & Hv & _ & _ & Hts & _).
    rewrite Hts. exact (Hwork q v Hv).
Qed.

Lemma progress_inv_turn sched sched' :
  turn sched sched' -> progress_inv sched -> progress_inv sched'.
Proof.
  intros [Hu _ _ Ht|key transforms reason now Hwork Hu _ _ Ht|u unit status event Hu Hadv Hunits Ht _]
    Hinv.
  - exact (progress_inv_ext _ _ Hu Ht Hinv).
  - exact (progress_inv_event _ _ _ Hu eq_refl Hwork Ht Hinv).
  - exact (progress_inv_advance _ _ _ _ _ _ Hinv Hu Hadv Hunits Ht).
Qed.

(** ** The keys of the queue and of the timestamps *)

Lemma kept_is_Some {V} now sched (m : gmap string V) key :
  is_Some (kept now sched m !! key)
  <-> is_Some (m !! key) /\ stale now (renderTimestamps sched) key = false.
Proof.
  unfold kept, is_Some. split.
  - intros (x & Hx). apply map_lookup_filter_Some in Hx as [Hx Hfresh]. eauto.
  - intros [(x & Hx) Hfresh]. exists x. apply map_lookup_filter_Some. auto.
Qed.

Lemma sameKeys_init idx : sameKeys (scheduler_init idx).
Proof.
  intros key. cbn [scheduler_init renderQueue renderTimestamps].
  rewrite !lookup_empty. split; intros [x Hx]; discriminate.
Qed.

Lemma sameKeys_turn sched sched' : turn sched sched' -> sameKeys sched -> sameKeys sched'.
Proof.
  intros [_ Hq Ht _|key transforms reason now _ _ Hq Ht _|u unit status event _ _ _ _ Hq]
    Hsame key'.
  - rewrite Hq, Ht. apply Hsame.
  - rewrite Hq, Ht, !lookup_insert_is_Some. rewrite (Hsame key'). reflexivity.
  - destruct Hq as [(_ & Hq & Ht)|(_ & Hq & Ht)]; rewrite Hq, Ht; [|apply Hsame].
    rewrite !lookup_delete_is_Some, (Hsame key'). reflexivity.
Qed.

Lemma sameKeys_swept now sched sched' :
  swept now sched sched' -> sameKeys sched -> sameKeys sched'.
Proof.
  intros (_ & Hq & Ht & _) Hsame key.
  rewrite Hq, Ht, !kept_is_Some, (Hsame key). reflexivity.
Qed.

Lemma progress_inv_swept now sched sched' :
  swept now sched sched' -> progress_inv sched -> progress_inv sched'.
Proof. intros (Hu & _ & _ & Ht). exact (progress_inv_ext _ _ Hu Ht). Qed.

Section Queue.

Context (E : Env).

(** ** The turns of [step] *)

Lemma step_turn action sched sched' :
  step E action sched = Some sched' ->
  (forall now, action = Sweep now -> swept now sched sched')
  /\ ((forall now, action <> Sweep now) -> turn sched sched').
Proof.
  intros Hstep. split.
  - intros now ->. cbn [step] in Hstep. injection Hstep as <-.
    repeat split.
  - intros Hno. destruct action as [uri reason now|u|u|u|now|idx]; cbn [step] in Hstep.
    + injection Hstep as <-. unfold handleSourceEvent.
      destruct (JsMap.get _ (index sched)) as [[|t ts]|].
      * apply turn_idle; reflexivity.
      * eapply turn_event; [|reflexivity..]. discriminate.
      * apply turn_idle; reflexivity.
    + destruct (units sched !! u) as [unit|] eqn:Hu; [|discriminate].
      destruct (unit_status unit) eqn:Hs; try discriminate.
      destruct (settled sched (unit_previous unit)) eqn:Hset; [|discriminate].
      injection Hstep as <-.
      apply (turn_advance _ _ u unit (Running 0) (Begin u));
        [exact Hu|constructor; assumption|reflexivity|reflexivity|].
      right. split; [intros [[=] _]|split; reflexivity].
    + destruct (units sched !! u) as [unit|] eqn:Hu; [|discriminate].
      destruct (unit_status unit) as [|done|] eqn:Hs; try discriminate.
      destruct (unit_transforms unit !! done) as [t|] eqn:Ht; [|discriminate].
      injection Hstep as <-.
      apply (turn_advance _ _ u unit (Running (S done)) (Rendered u t));
        [exact Hu|econstructor; eassumption|reflexivity|reflexivity|].
      right. split; [intros [[=] _]|split; reflexivity].
    + destruct (units sched !! u) as [unit|] eqn:Hu; [|discriminate].
      destruct (unit_status unit) as [|done|] eqn:Hs; try discriminate.
      destruct (Nat.eqb_spec done (List.length (unit_transforms unit))) as [->|];
        [|discriminate].
      injection Hstep as <-. unfold forget, update_unit.
      cbn [renderQueue units trace renderTimestamps with_status unit_key].
      destruct (bool_decide _) eqn:Hlatest.
      * apply bool_decide_eq_true in Hlatest.
        apply (turn_advance _ _ u unit Settled (Settle u));
          [exact Hu|constructor; assumption|reflexivity|reflexivity|].
        left. auto.
      * apply bool_decide_eq_false in Hlatest.
        apply (turn_advance _ _ u unit Settled (Settle u));
          [exact Hu|constructor; assumption|reflexivity|reflexivity|].
        right. split; [intros [_ H]; contradiction|split; reflexivity].
    + exfalso. exact (Hno now eq_refl).
    + injection Hstep as <-. apply turn_idle; reflexivity.
Qed.

Lemma run_cons action actions sched sched' :
  run E (action :: actions) sched = Some sched' ->
  exists mid, step E action sched = Some mid /\ run E actions mid = Some sched'.
Proof.
  cbn [run]. destruct (step E action sched) as [mid|]; [eauto|discriminate].
Qed.

Lemma eventTimes_cons action actions :
  eventTimes (action :: actions) = (eventTime action ++ eventTimes actions)%list.
Proof. destruct action; reflexivity. Qed.

Lemma sweepTimes_cons action actions now :
  In now (sweepTimes actions) -> In now (sweepTimes (action :: actions)).
Proof. destruct action; cbn; auto. Qed.

Lemma step_timesWithin action sched sched' times :
  step E action sched = Some sched' ->
  timesWithin times sched -> timesWithin (eventTime action ++ times) sched'.
Proof.
  intros Hstep Hwithin key t Ht.
  destruct action as [uri reason now|u|u|u|now|idx]; cbn [step eventTime app] in *.
  - injection Hstep as <-. unfold handleSourceEvent in Ht.
    destruct (JsMap.get _ (index sched)) as [[|t0 ts]|];
      try (right; exact (Hwithin key t Ht)).
    cbn [renderTimestamps] in Ht.
    apply lookup_insert_Some in Ht as [[_ <-]|[_ Ht]];
      [now left|right; exact (Hwithin key t Ht)].
  - destruct (units sched !! u) as [unit|]; [|discriminate].
    destruct (unit_status unit); try discriminate.
    destruct (settled sched (unit_previous unit)); [|discriminate].
    injection Hstep as <-. exact (Hwithin key t Ht).
  - destruct (units sched !! u) as [unit|]; [|discriminate].
    destruct (unit_status unit) as [|done|]; try discriminate.
    destruct (unit_transforms unit !! done); [|discriminate].
    injection Hstep as <-. exact (Hwithin key t Ht).
  - destruct (units sched !! u) as [unit|]; [|discriminate].
    destruct (unit_status unit) as [|done|]; try discriminate.
    destruct (done =? _)%nat; [|discriminate].
    injection Hstep as <-. unfold forget, update_unit in Ht.
    cbn [renderQueue renderTimestamps] in Ht.
    destruct (bool_decide _); cbn [renderTimestamps] in Ht;
      [apply lookup_delete_Some in Ht as [_ Ht]|]; exact (Hwithin key t Ht).
  - injection Hstep as <-. cbn [cleanupStaleRenders renderTimestamps] in Ht.
    apply map_lookup_filter_Some in Ht as [Ht _]. exact (Hwithin key t Ht).
  - injection Hstep as <-. exact (Hwithin key t Ht).
Qed.

(** A sweep that comes in time evicts nothing. *)
Lemma step_in_time action sched sched' times :
  step E action sched = Some sched' ->
  timesWithin times sched ->
  (forall t now, In t times -> action = Sweep now -> (now - t <= RENDER_TIMEOUT_MS)%Z) ->
  turn sched sched'.
Proof.
  intros Hstep Hwithin Hcalm. destruct (step_turn _ _ _ Hstep) as [Hsweep Hturn].
  destruct action as [uri reason now|u|u|u|now|idx];
    try (apply Hturn; intros now'; discriminate).
  destruct (Hsweep now eq_refl) as (Hu & Hq & Ht & Htr).
  assert (forall key, stale now (renderTimestamps sched) key = false) as Hfresh.
  { intros key. unfold stale.
    destruct (renderTimestamps sched !! key) as [t|] eqn:Hkey; [|reflexivity].
    apply Z.ltb_ge. exact (Hcalm t now (Hwithin key t Hkey) eq_refl). }
  rewrite (kept_all now sched _ Hfresh) in Hq.
  rewrite (kept_all now sched _ Hfresh) in Ht.
  apply turn_idle; assumption.
Qed.

Lemma run_serial actions : forall times sched sched',
  queue_inv sched -> trace_inv sched -> timesWithin times sched ->
  (forall t now, In t times \/ In t (eventTimes actions) ->
                 In now (sweepTimes actions) -> (now - t <= RENDER_TIMEOUT_MS)%Z) ->
  run E actions sched = Some sched' ->
  queue_inv sched' /\ trace_inv sched'.
Proof.
  induction actions as [|action actions IH];
    intros times sched sched' Hqueue Htrace Hwithin Hcalm Hrun.
  - injection Hrun as <-. auto.
  - apply run_cons in Hrun as (mid & Hstep & Hrun).
    assert (turn sched mid) as Hturn.
    { apply (step_in_time _ _ _ times Hstep Hwithin).
      intros t now Ht ->. apply Hcalm; [now left|]. cbn. now left. }
    apply (IH (eventTime action ++ times)%list mid sched').
    + exact (queue_inv_turn _ _ Hturn Hqueue).
    + exact (trace_inv_turn _ _ Hturn Hqueue Htrace).
    + exact (step_timesWithin _ _ _ _ Hstep Hwithin).
    + intros t now Ht Hnow. apply Hcalm; [|apply sweepTimes_cons, Hnow].
      rewrite eventTimes_cons.
      destruct Ht as [Ht|Ht]; [apply in_app_iff in Ht as [Ht|Ht]|];
        [right; apply in_app_iff; now left|now left|right; apply in_app_iff; now right].
    + exact Hrun.
Qed.

Lemma run_serial_init idx actions sched :
  run E actions (scheduler_init idx) = Some sched -> calm actions ->
  queue_inv sched /\ trace_inv sched.
Proof.
  intros Hrun Hcalm.
  apply (run_serial actions [] (scheduler_init idx) sched);
    [apply queue_inv_init|apply trace_inv_init| | |exact Hrun].
  - intros key t Ht. cbn [scheduler_init renderTimestamps] in Ht.
    rewrite lookup_empty in Ht. discriminate.
  - intros t now [[]|Ht] Hnow. exact (Hcalm t now Ht Hnow).
Qed.

Lemma run_progress actions : forall sched sched',
  progress_inv sched /\ sameKeys sched ->
  run E actions sched = Some sched' ->
  progress_inv sched' /\ sameKeys sched'.
Proof.
  induction actions as [|action actions IH]; intros sched sched' [Hprogress Hsame] Hrun.
  - injection Hrun as <-. auto.
  - apply run_cons in Hrun as (mid & Hstep & Hrun).
    apply (IH mid sched'); [|exact Hrun].
    destruct (step_turn _ _ _ Hstep) as [Hsweep Hturn].
    destruct action as [uri reason now|u|u|u|now|idx];
      try (assert (turn sched mid) as Ht by (apply Hturn; intros now'; discriminate);
           split; [exact (progress_inv_turn _ _ Ht Hprogress)
                  |exact (sameKeys_turn _ _ Ht Hsame)]).
    split; [exact (progress_inv_swept _ _ _ (Hsweep now eq_refl) Hprogress)
           |exact (sameKeys_swept _ _ _ (Hsweep now eq_refl) Hsame)].
Qed.

(** X26.  As long as no sweep comes more than thirty seconds after a
    source event, the units of work of one source run one after the
    other: in every state the event loop reaches, a unit that has begun
    has only settled units of its source before it.  In particular no two
    units of one source are under way at a time. *)
Theorem renders_of_one_source_never_overlap
    (idx : list (string * list FileTransformEntry)) (actions : list Action)
    (sched : Scheduler) :
  run E actions (scheduler_init idx) = Some sched ->
  calm actions ->
  forall p q u v,
    p < q -> units sched !! p = Some u -> units sched !! q = Some v ->
    unit_key u = unit_key v -> unit_status v <> Waiting ->
    unit_status u = Settled.
Proof.
  intros Hrun Hcalm. destruct (run_serial_init _ _ _ Hrun Hcalm) as [Hqueue _].
  exact (inv_serial _ Hqueue).
Qed.

(** X27.  Under the same condition the trace shows it: when a unit
    begins, every earlier unit of its source has settled before, and
    nothing of an earlier unit -- no render, no write -- comes after. *)
Theorem later_unit_begins_after_the_earlier_settled
    (idx : list (string * list FileTransformEntry)) (actions : list Action)
    (sched : Scheduler) :
  run E actions (scheduler_init idx) = Some sched ->
  calm actions ->
  forall l1 l2 p q u v,
    trace sched = (l1 ++ Begin q :: l2)%list ->
    p < q -> units sched !! p = Some u -> units sched !! q = Some v ->
    unit_key u = unit_key v ->
    In (Settle p) l1 /\ forall e, In e l2 -> unitOf e <> p.
Proof.
  intros Hrun Hcalm l1 l2 p q u v Htrace Hpq Hp Hq Hkey.
  destruct (run_serial_init _ _ _ Hrun Hcalm) as [_ Hinv].
  pose proof (inv_order _ Hinv l1 l2 q Htrace p u v Hpq Hp Hq Hkey) as Hsettled.
  split; [exact Hsettled|].
  apply in_split in Hsettled as (a & b & ->).
  rewrite <- app_assoc in Htrace. cbn [app] in Htrace.
  intros e He. apply (inv_quiet _ Hinv a _ p Htrace).
  apply in_app_iff. right. now right.
Qed.

(** X28.  A unit of work renders the transforms it was chained with,
    at least one, in the order of the list, each once: in every state
    the event loop reaches, sweeps or not, the renders the trace records
    of a unit are the first transforms of its list, as many as its
    status counts, and all of them once it has settled. *)
Theorem unit_renders_its_transforms_in_order
    (idx : list (string * list FileTransformEntry)) (actions : list Action)
    (sched : Scheduler) :
  run E actions (scheduler_init idx) = Some sched ->
  forall u unit,
    units sched !! u = Some unit ->
    unit_transforms unit <> []
    /\ rendersOf u (trace sched)
       = match unit_status unit with
         | Waiting => []
         | Running done => take done (unit_transforms unit)
         | Settled => unit_transforms unit
         end.
Proof.
  intros Hrun u unit Hu.
  destruct (run_progress actions (scheduler_init idx) sched
              (conj (progress_inv_init idx) (sameKeys_init idx)) Hrun) as [Hinv _].
  split; [exact (inv_work _ Hinv u unit Hu)|exact (inv_progress _ Hinv u unit Hu)].
Qed.

(** X29.  The queue and the timestamps always have the same keys, so
    that a sweep forgets exactly the sources whose latest event is more
    than thirty seconds old: after it the queue holds what it held for
    the sources with a timestamp within the timeout, and nothing else.
    The units themselves are not touched: a unit under way goes on. *)
Theorem sweep_forgets_exactly_the_stale_sources
    (idx : list (string * list FileTransformEntry)) (actions : list Action)
    (sched : Scheduler) (now : Z) :
  run E actions (scheduler_init idx) = Some sched ->
  (forall key, is_Some (renderQueue sched !! key)
               <-> is_Some (renderTimestamps sched !! key))
  /\ (forall key p,
        renderQueue (cleanupStaleRenders now sched) !! key = Some p
        <-> renderQueue sched !! key = Some p
            /\ exists t, renderTimestamps sched !! key = Some t
                         /\ (now - t <= RENDER_TIMEOUT_MS)%Z)
  /\ (forall key t,
        renderTimestamps (cleanupStaleRenders now sched) !! key = Some t
        <-> renderTimestamps sched !! key = Some t
            /\ (now - t <= RENDER_TIMEOUT_MS)%Z)
  /\ units (cleanupStaleRenders now sched) = units sched.
Proof.
  intros Hrun.
  destruct (run_progress actions (scheduler_init idx) sched
              (conj (progress_inv_init idx) (sameKeys_init idx)) Hrun) as [_ Hsame].
  split; [exact Hsame|]. split; [|split; [|reflexivity]].
  - intros key p. cbn [cleanupStaleRenders renderQueue].
    rewrite map_lookup_filter_Some. cbn [fst]. unfold stale. split.
    + intros [Hp Hfresh]. split; [exact Hp|].
      destruct (proj1 (Hsame key) (ex_intro _ p Hp)) as (t & Ht).
      rewrite Ht in Hfresh. exists t. split; [exact Ht|].
      apply Z.ltb_ge. exact Hfresh.
    + intros [Hp (t & Ht & Hle)]. split; [exact Hp|].
      rewrite Ht. apply Z.ltb_ge. exact Hle.
  - intros key t. cbn [cleanupStaleRenders renderTimestamps].
    rewrite map_lookup_filter_Some. cbn [fst]. unfold stale. split.
    + intros [Ht Hfresh]. rewrite Ht in Hfresh. split; [exact Ht|].
      apply Z.ltb_ge. exact Hfresh.
    + intros [Ht Hle]. split; [exact Ht|]. rewrite Ht. apply Z.ltb_ge. exact Hle.
Qed.

(** X30.  Once a sweep has forgotten a source, the next event of the
    source does not wait: the unit it chains is chained on nothing and
    can begin at once, whatever the earlier units of the source are
    doing, and they go on as they were. *)
Theorem forgotten_source_does_not_wait (sched : Scheduler) (uri reason : string)
    (now now' : Z) (t : FileTransformEntry) (ts : list FileTransformEntry) :
  JsMap.get (normalizeFsPath E uri) (index sched) = Some (t :: ts) ->
  stale now (renderTimestamps sched) (normalizeFsPath E uri) = true ->
  let next := List.length (units sched) in
  exists sched',
    run E [Sweep now; SourceEvent uri reason now'; Start next] sched = Some sched'
    /\ (forall q v, units sched !! q = Some v -> units sched' !! q = Some v)
    /\ exists unit, units sched' !! next = Some unit
                    /\ unit_key unit = normalizeFsPath E uri
                    /\ unit_previous unit = None
                    /\ unit_status unit = Running 0.
Proof.
  intros Hindex Hstale. cbv zeta. cbn [run step].
  unfold handleSourceEvent. cbn [cleanupStaleRenders index renderQueue units].
  rewrite Hindex.
  assert (filter (fun kv : string * nat =>
                    stale now (renderTimestamps sched) (fst kv) = false)
            (renderQueue sched) !! normalizeFsPath E uri = None) as Hgone.
  { apply map_lookup_filter_None. right. intros p _. cbn [fst].
    rewrite Hstale. discriminate. }
  rewrite Hgone. cbn [units].
  rewrite list_lookup_middle by reflexivity. cbn [unit_status unit_previous settled].
  eexists. split; [reflexivity|]. cbn [update_unit units]. split.
  - intros q v Hq. rewrite list_lookup_insert_ne
      by (apply lookup_lt_Some in Hq; lia).
    apply lookup_app_l_Some, Hq.
  - eexists. split.
    + apply list_lookup_insert_eq. rewrite length_app. cbn. lia.
    + cbn [with_status unit_key unit_previous unit_status]. auto.
Qed.

End Queue.

(** ** A day of the queue *)

(** X26, a run: at the end of [servedInTurn] the second unit has begun
    and the first has settled. *)
Lemma renders_of_one_source_never_overlap_run :
  units afterServedInTurn !! 0 = Some firstUnit
  /\ units afterServedInTurn !! 1 = Some secondUnit
  /\ unit_status firstUnit = Settled.
Proof.
  split; [vm_compute; reflexivity|]. split; [vm_compute; reflexivity|].
  apply (renders_of_one_source_never_overlap posixEnv oneSourceIndex servedInTurn
           afterServedInTurn ltac:(vm_compute; reflexivity)
           ltac:(intros t now [<-|[<-|[]]] [<-|[]]; unfold RENDER_TIMEOUT_MS; lia)
           0 1 firstUnit secondUnit);
    [lia|vm_compute; reflexivity|vm_compute; reflexivity|reflexivity|discriminate].
Defined.

(** X27, a run: in the trace of [servedInTurn] the first unit settles
    before the second begins. *)
Lemma later_unit_begins_after_the_earlier_settled_run :
  In (Settle 0)
     [Begin 0; Rendered 0 (transform "/w/tpl/a.njk" "/w/out/a"); Settle 0]
  /\ forall e, In e [] -> unitOf e <> 0.
Proof.
  apply (later_unit_begins_after_the_earlier_settled posixEnv oneSourceIndex
           servedInTurn afterServedInTurn ltac:(vm_compute; reflexivity)
           ltac:(intros t now [<-|[<-|[]]] [<-|[]]; unfold RENDER_TIMEOUT_MS; lia)
           [Begin 0; Rendered 0 (transform "/w/tpl/a.njk" "/w/out/a"); Settle 0] []
           0 1 firstUnit secondUnit);
    [vm_compute; reflexivity|lia|vm_compute; reflexivity|vm_compute; reflexivity
    |reflexivity].
Defined.

(** X28, a run: the first unit of [servedInTurn] rendered its one
    transform. *)
Lemma unit_renders_its_transforms_in_order_run :
  unit_transforms firstUnit <> []
  /\ rendersOf 0 (trace afterServedInTurn)
     = match unit_status firstUnit with
       | Waiting => []
       | Running done => take done (unit_transforms firstUnit)
       | Settled => unit_transforms firstUnit
       end.
Proof.
  apply (unit_renders_its_transforms_in_order posixEnv oneSourceIndex servedInTurn
           afterServedInTurn ltac:(vm_compute; reflexivity) 0 firstUnit).
  vm_compute. reflexivity.
Defined.

(** X29, a run: a sweep at the end of [servedInTurn]. *)
Lemma sweep_forgets_exactly_the_stale_sources_run :
  (forall key, is_Some (renderQueue afterServedInTurn !! key)
               <-> is_Some (renderTimestamps afterServedInTurn !! key))
  /\ (forall key p,
        renderQueue (cleanupStaleRenders 50000 afterServedInTurn) !! key = Some p
        <-> renderQueue afterServedInTurn !! key = Some p
            /\ exists t, renderTimestamps afterServedInTurn !! key = Some t
                         /\ (50000 - t <= RENDER_TIMEOUT_MS)%Z)
  /\ (forall key t,
        renderTimestamps (cleanupStaleRenders 50000 afterServedInTurn) !! key = Some t
        <-> renderTimestamps afterServedInTurn !! key = Some t
            /\ (50000 - t <= RENDER_TIMEOUT_MS)%Z)
  /\ units (cleanupStaleRenders 50000 afterServedInTurn) = units afterServedInTurn.
Proof.
  exact (sweep_forgets_exactly_the_stale_sources posixEnv oneSourceIndex servedInTurn
           afterServedInTurn 50000 ltac:(vm_compute; reflexivity)).
Defined.

(** X30, a run: the unit of [fallenBehind] is still rendering when the
    sweep forgets its source; the next change begins at once, and both
    units are under way. *)
Lemma forgotten_source_does_not_wait_run :
  exists sched',
    run posixEnv [Sweep 40000; SourceEvent "/w/tpl/a.njk" "change" 40001;
                  Start (List.length (units fallenBehind))] fallenBehind
    = Some sched'
    /\ (forall q v, units fallenBehind !! q = Some v -> units sched' !! q = Some v)
    /\ exists unit, units sched' !! List.length (units fallenBehind) = Some unit
                    /\ unit_key unit = normalizeFsPath posixEnv "/w/tpl/a.njk"
                    /\ unit_previous unit = None
                    /\ unit_status unit = Running 0.
Proof.
  exact (forgotten_source_does_not_wait posixEnv fallenBehind "/w/tpl/a.njk" "change"
           40000 40001 (transform "/w/tpl/a.njk" "/w/out/a") []
           ltac:(vm_compute; reflexivity) ltac:(vm_compute; reflexivity)).
Defined.

(** With the sweep in between, two units of one source are under way at
    a time. *)
Example sweep_lets_renders_overlap :
  exists sched,
    run posixEnv [Sweep 40000; SourceEvent "/w/tpl/a.njk" "change" 40001; Start 1]
      fallenBehind = Some sched
    /\ map unit_status (units sched) = [Running 0; Running 0]
    /\ map unit_key (units sched) = ["/w/tpl/a.njk"; "/w/tpl/a.njk"].
Proof. eexists. split; [vm_compute; reflexivity|]. split; reflexivity. Qed.
